(** * dmlc-core CSV parser: [src/data/csv_parser.h]

    A shallow embedding of [CSVParserParam::ExtractLabelColumnIndices] and
    of [CSVParser<IndexType, DType>::ParseBlock], with the properties of
    the parser stated and proved over it.

    Conventions.
    - A [const char *] into the block is a [nat] offset from [begin]
      (so [begin] is offset [0]); [mem] is the memory that can be read
      starting at [begin], and [end_] is the offset of [end].
    - [LOG(FATAL)] and a failed [CHECK] are the outcome [Fatal]; a C++
      exception is [Throw]; behaviour the C++ standard leaves undefined
      (a read outside [mem], a write outside the [label] vector, signed
      overflow of [column_index]) is [Undefined].
    - [LOG(WARNING)] is an explicit list of warnings. *)

From Stdlib Require Import ZArith String Ascii List Lia.
From Stdlib Require Import Floats.SpecFloat.
From stdpp Require Import base option list sorting gmap.

Import ListNotations.
Local Open Scope Z_scope.

(** ** Characters *)

Definition char : Type := ascii.

Definition char_code (c : char) : Z := Z.of_nat (nat_of_ascii c).

Definition LF : char := "010"%char.
Definition CR : char := "013"%char.
Definition NUL : char := "000"%char.

(** [c == '\n' || c == '\r'] *)
Definition is_newline (c : char) : bool := (c =? LF)%char || (c =? CR)%char.

(** [isdigit] on a [char] in the "C" locale. *)
Definition isdigit (c : char) : bool :=
  (char_code "0"%char <=? char_code c) && (char_code c <=? char_code "9"%char).

(** [isspace] in the "C" locale: space, \t, \n, \v, \f, \r. *)
Definition isspace (c : char) : bool :=
  (c =? " ")%char || ((9 <=? char_code c) && (char_code c <=? 13)).

Definition digit_value (c : char) : Z := char_code c - char_code "0"%char.

(** ** Outcomes of a computation *)

Inductive fatal : Type :=
| UnsupportedDType          (* line 158 *)
| DelimiterNotFound         (* line 179 *)
| FormatNotCsv              (* line 105 *)
| LabelWeightNotDistinct    (* line 106 *)
| CheckLabelCountPositive   (* line 195 *)
| CheckLabelSizeMultiple    (* line 196 *)
| CheckOffsetSize           (* line 197 *)
| CheckWeightSize.          (* line 198 *)

Inductive exception : Type :=
| invalid_argument
| out_of_range.

(** Where the undefined behaviour happens. *)
Inductive undefined : Type :=
| ReadLeadingNewline (pos : nat)    (* [*lbegin], line 131 *)
| ReadLineEnd (pos : nat)           (* [*lend], line 136 *)
| ReadDelimiterScan (pos : nat)     (* [*p], line 177 *)
| ReadNewlineRun (pos : nat)        (* [*lend], line 186 *)
| WriteLabelSlot (slot : nat)       (* [label[...] = v], line 163 *)
| ColumnIndexOverflow.              (* [++column_index], line 176 *)

Inductive result (A : Type) : Type :=
| Ok (a : A)
| Fatal (f : fatal)
| Throw (e : exception)
| Undefined (u : undefined)
| OutOfFuel.

Arguments Ok {A} a.
Arguments Fatal {A} f.
Arguments Throw {A} e.
Arguments Undefined {A} u.
Arguments OutOfFuel {A}.

Definition result_bind {A B : Type} (f : A -> result B) (r : result A) : result B :=
  match r with
  | Ok a => f a
  | Fatal e => Fatal e
  | Throw e => Throw e
  | Undefined u => Undefined u
  | OutOfFuel => OutOfFuel
  end.

#[global] Instance result_mbind : MBind result := @result_bind.
#[global] Instance result_mret : MRet result := @Ok.

Definition is_Ok {A : Type} (r : result A) : bool :=
  match r with Ok _ => true | _ => false end.

(** ** [CSVParserParam] *)

Record CSVParserParam : Type := mkParam {
  format : string;
  label_column : string;
  delimiter : string;
  weight_column : Z;
  label_column_indices : gmap Z nat;
  label_count : nat
}.

(** The declared defaults (lines 31-38); the map is default-constructed. *)
Definition default_param : CSVParserParam :=
  {| format := "csv"%string; label_column := ""%string; delimiter := ","%string;
     weight_column := -1; label_column_indices := ∅; label_count := 0 |}.

Definition kLabelColumnListDelimiter : char := ","%char.

Definition INT_MAX : Z := 2147483647.
Definition INT_MIN : Z := -2147483648.

(** *** [std::stoi(element, &next)], base 10

    [strtol] semantics: leading white space, an optional sign, then the
    longest run of decimal digits. No digit: [std::invalid_argument]. A
    value that is not an [int]: [std::out_of_range]. Otherwise the value
    and the number of characters processed. *)

Fixpoint skip_space (s : string) : string * nat :=
  match s with
  | String c s' =>
      if isspace c then let '(r, n) := skip_space s' in (r, S n) else (s, O)
  | EmptyString => (s, O)
  end.

Fixpoint decimal_digits (s : string) (acc : Z) : Z * nat :=
  match s with
  | String c s' =>
      if isdigit c
      then let '(v, n) := decimal_digits s' (10 * acc + digit_value c) in (v, S n)
      else (acc, O)
  | EmptyString => (acc, O)
  end.

(** An optional sign: whether it is a minus, the rest, and its length. *)
Definition stoi_sign (s : string) : bool * string * nat :=
  match s with
  | String c r =>
      if (c =? "-")%char then (true, r, 1%nat)
      else if (c =? "+")%char then (false, r, 1%nat)
      else (false, s, 0%nat)
  | EmptyString => (false, s, 0%nat)
  end.

Definition stoi (element : string) : result (Z * nat) :=
  let '(s1, nspace) := skip_space element in
  let '(negative, s2, nsign) := stoi_sign s1 in
  let '(magnitude, ndigits) := decimal_digits s2 0 in
  if (ndigits =? 0)%nat then Throw invalid_argument
  else
    let v := if negative : bool then - magnitude else magnitude in
    if (v <? INT_MIN) || (INT_MAX <? v) then Throw out_of_range
    else Ok (v, (nspace + nsign + ndigits)%nat).

(** *** [std::getline(list, element, ',')] until the stream fails

    Each call extracts up to the next delimiter (which it consumes) or to
    the end of the text; a call that extracts nothing fails, so a text that
    ends in the delimiter has no empty last element. *)

Fixpoint getline_all (s : string) (element : string) (extracted : bool) : list string :=
  match s with
  | EmptyString => if extracted then [element] else []
  | String c s' =>
      if (c =? kLabelColumnListDelimiter)%char
      then element :: getline_all s' EmptyString false
      else getline_all s' (element ++ String c EmptyString)%string true
  end.

Inductive warning : Type :=
| IgnoringDuplicate (input_index : Z)                          (* line 61 *)
| IgnoringNegative (input_index : Z)                           (* line 65 *)
| IgnoringUnexpectedCharacter (element : string) (c : char)    (* line 69 *)
| IgnoringNonNumeric (element : string)                        (* line 75 *)
| IgnoringMissing.                                             (* line 79 *)

(** The loop-carried state of lines 49-81. *)
Record extract_state : Type := mkExtract {
  indices : gmap Z nat;
  output_index : nat;
  warnings : list warning
}.

Definition warn (w : warning) (st : extract_state) : extract_state :=
  {| indices := indices st; output_index := output_index st;
     warnings := warnings st ++ [w] |}.

Definition string_front (s : string) : option char :=
  match s with String c _ => Some c | EmptyString => None end.

(** One iteration of the [while] loop, lines 50-80. *)
Definition extract_element (st : extract_state) (element : string) : result extract_state :=
  match string_front element with
  | None => Ok (warn IgnoringMissing st)
  | Some front =>
      if isdigit front || (front =? "-")%char || (front =? "+")%char then
        '(input_index, next) ← stoi element;
        if (next =? String.length element)%nat then
          if 0 <=? input_index then
            match indices st !! input_index with
            | None =>
                Ok {| indices := <[input_index := output_index st]> (indices st);
                      output_index := S (output_index st);
                      warnings := warnings st |}
            | Some _ => Ok (warn (IgnoringDuplicate input_index) st)
            end
          else Ok (warn (IgnoringNegative input_index) st)
        else
          match String.get next element with
          | Some c => Ok (warn (IgnoringUnexpectedCharacter element c) st)
          | None => Throw out_of_range   (* [element.at(next)] *)
          end
      else Ok (warn (IgnoringNonNumeric element) st)
  end.

Fixpoint extract_elements (st : extract_state) (elements : list string) : result extract_state :=
  match elements with
  | [] => Ok st
  | element :: rest => st' ← extract_element st element; extract_elements st' rest
  end.

(** [ExtractLabelColumnIndices], lines 44-85: the updated parameters and
    the warnings logged. *)
Definition ExtractLabelColumnIndices (param : CSVParserParam)
  : result (CSVParserParam * list warning) :=
  st ← (if (0 <? String.length (label_column param))%nat
        then extract_elements
               {| indices := label_column_indices param; output_index := 0;
                  warnings := [] |}
               (getline_all (label_column param) EmptyString false)
        else Ok {| indices := label_column_indices param; output_index := 0;
                   warnings := [] |});
  Ok ({| format := format param; label_column := label_column param;
         delimiter := delimiter param; weight_column := weight_column param;
         label_column_indices := indices st;
         label_count := if (1 <? size (indices st))%nat
                        then size (indices st) else 1%nat |},
      warnings st).

(** The constructor, lines 103-108, after [param_.Init(args)] has produced
    [param]. *)
Definition CSVParser_init (param : CSVParserParam)
  : result (CSVParserParam * list warning) :=
  '(param', ws) ← ExtractLabelColumnIndices param;
  if negb (String.eqb (format param') "csv"%string) then Fatal FormatNotCsv
  else match label_column_indices param' !! weight_column param' with
       | Some _ => Fatal LabelWeightNotDistinct
       | None => Ok (param', ws)
       end.

(** A block given as text. *)
Definition text (s : string) : list char := list_ascii_of_string s.

(** The parameters as [param_.Init(args)] leaves them. *)
Definition init_param (label_column0 delimiter0 : string) (weight_column0 : Z)
  : CSVParserParam :=
  {| format := "csv"%string; label_column := label_column0;
     delimiter := delimiter0; weight_column := weight_column0;
     label_column_indices := ∅; label_count := 0 |}.

(** [param_] of a parser that was constructed with these arguments. *)
Definition constructed (label_column0 delimiter0 : string) (weight_column0 : Z)
  : CSVParserParam :=
  match CSVParser_init (init_param label_column0 delimiter0 weight_column0) with
  | Ok (param, _) => param
  | _ => init_param label_column0 delimiter0 weight_column0
  end.

(** [param] with another [weight_column]. *)
Definition with_weight_column (w : Z) (param : CSVParserParam) : CSVParserParam :=
  {| format := format param; label_column := label_column param;
     delimiter := delimiter param; weight_column := w;
     label_column_indices := label_column_indices param;
     label_count := label_count param |}.

(** ** Numeric representations

    [real_t] is [float]: an IEEE 754 binary32 value, as a [spec_float] with
    precision 24 and maximal exponent 128. [int32_t] and [int64_t] are
    integers in their two's complement range. *)

Definition real_t : Type := spec_float.
Definition int32_t : Type := Z.
Definition int64_t : Type := Z.

Definition float_prec : Z := 24.
Definition float_emax : Z := 128.

(** [std::numeric_limits<real_t>::quiet_NaN()] *)
Definition quiet_NaN : real_t := S754_nan.

(** [std::isnan] *)
Definition isnan (x : real_t) : bool :=
  match x with S754_nan => true | _ => false end.

(** Conversion of an integer to [float], round to nearest even. *)
Definition real_of_Z (z : Z) : real_t :=
  binary_normalize float_prec float_emax z 0 false.

(** The [float] of an integer literal, for the examples. *)
Definition f32 (z : Z) : real_t := real_of_Z z.

Definition LLONG_MAX : Z := 2 ^ 63 - 1.
Definition LLONG_MIN : Z := - 2 ^ 63.

(** [static_cast<int32_t>] of a [long long]. *)
Definition cast_int32 (z : Z) : int32_t := (z + 2 ^ 31) mod 2 ^ 32 - 2 ^ 31.

(** *** Text to number *)

Fixpoint count_space (s : list char) : nat :=
  match s with
  | c :: s' => if isspace c then S (count_space s') else O
  | [] => O
  end.

Definition read_sign (s : list char) : bool * nat :=
  match s with
  | c :: _ =>
      if (c =? "-")%char then (true, 1%nat)
      else if (c =? "+")%char then (false, 1%nat)
      else (false, 0%nat)
  | [] => (false, 0%nat)
  end.

(** Value of [c] as a digit, when it is one in base 36. *)
Definition digit_of_char (c : char) : option Z :=
  let n := char_code c in
  if (48 <=? n) && (n <=? 57) then Some (n - 48)
  else if (97 <=? n) && (n <=? 122) then Some (n - 87)
  else if (65 <=? n) && (n <=? 90) then Some (n - 55)
  else None.

(** The longest run of digits of [base], accumulated onto [acc], and its
    length. *)
Fixpoint read_digits (base : Z) (s : list char) (acc : Z) : Z * nat :=
  match s with
  | c :: s' =>
      match digit_of_char c with
      | Some d =>
          if d <? base
          then let '(v, n) := read_digits base s' (base * acc + d) in (v, S n)
          else (acc, O)
      | None => (acc, O)
      end
  | [] => (acc, O)
  end.

Definition to_lower (c : char) : char :=
  let n := char_code c in
  if (65 <=? n) && (n <=? 90) then ascii_of_nat (Z.to_nat (n + 32)) else c.

(** [s] starts with the lower-case word [w], in any case. *)
Fixpoint starts_with_ci (w : list char) (s : list char) : bool :=
  match w, s with
  | [], _ => true
  | a :: w', c :: s' => (to_lower c =? a)%char && starts_with_ci w' s'
  | _ :: _, [] => false
  end.

(** [(-1)^negative * mantissa * 10^exp10] as a [float]. *)
Definition real_of_decimal (negative : bool) (mantissa exp10 : Z) : real_t :=
  let m := if negative then - mantissa else mantissa in
  if 0 <=? exp10
  then binary_normalize float_prec float_emax (m * 10 ^ exp10) 0 negative
  else SFdiv float_prec float_emax
         (binary_normalize float_prec float_emax m 0 negative)
         (real_of_Z (10 ^ (- exp10))).

(** Modelled from the spec: [strtof] ([dmlc/strtonum.h], not among the
    sources). "Parse the longest valid numeric prefix and return the value
    plus the first unconsumed position. Float parsing accepts standard
    decimal/exponent float syntax"; "if zero characters are consumed, this
    is reported back to the caller". The text is the memory from the
    cursor on; the result is the value and the number of characters
    consumed. *)
Definition strtof (s : list char) : real_t * nat :=
  let nspace := count_space s in
  let s1 := drop nspace s in
  let '(negative, nsign) := read_sign s1 in
  let s2 := drop nsign s1 in
  if starts_with_ci (list_ascii_of_string "nan") s2
  then (quiet_NaN, (nspace + nsign + 3)%nat)
  else if starts_with_ci (list_ascii_of_string "infinity") s2
  then (S754_infinity negative, (nspace + nsign + 8)%nat)
  else if starts_with_ci (list_ascii_of_string "inf") s2
  then (S754_infinity negative, (nspace + nsign + 3)%nat)
  else
    let '(int_part, nint) := read_digits 10 s2 0 in
    let s3 := drop nint s2 in
    let '(mantissa, nfrac, ndot) :=
      match s3 with
      | c :: r =>
          if (c =? ".")%char
          then let '(m, n) := read_digits 10 r int_part in (m, n, 1%nat)
          else (int_part, 0%nat, 0%nat)
      | [] => (int_part, 0%nat, 0%nat)
      end in
    if (nint + nfrac =? 0)%nat then (S754_zero false, 0%nat)
    else
      let s4 := drop (ndot + nfrac) s3 in
      let '(exp10, nexp) :=
        match s4 with
        | c :: r =>
            if (to_lower c =? "e")%char
            then
              let '(eneg, nesign) := read_sign r in
              let '(e, ne) := read_digits 10 (drop nesign r) 0 in
              if (ne =? 0)%nat then (0, 0%nat)
              else (if eneg : bool then - e else e, (1 + nesign + ne)%nat)
            else (0, 0%nat)
        | [] => (0, 0%nat)
        end in
      (real_of_decimal negative mantissa (exp10 - Z.of_nat nfrac),
       (nspace + nsign + nint + ndot + nfrac + nexp)%nat).

(** Modelled from the spec: [strtoll(p, &endptr, 0)] (the C library, not
    among the sources). "Integer parsing accepts ... arbitrary-base textual
    integers (auto base-detection: leading 0x -> hex, leading 0 -> octal,
    else decimal)"; a value outside [long long] saturates. The result is
    the value and the number of characters consumed, [0] when there is no
    digit. *)
Definition strtoll (s : list char) : Z * nat :=
  let nspace := count_space s in
  let s1 := drop nspace s in
  let '(negative, nsign) := read_sign s1 in
  let s2 := drop nsign s1 in
  let '(magnitude, ndigits) :=
    match s2 with
    | z :: x :: r =>
        if (z =? "0")%char && (to_lower x =? "x")%char
           && (snd (read_digits 16 r 0) =? 0)%nat
        then (0, 1%nat)
        else if (z =? "0")%char && (to_lower x =? "x")%char
        then let '(v, n) := read_digits 16 r 0 in (v, (2 + n)%nat)
        else if (z =? "0")%char then read_digits 8 s2 0
        else read_digits 10 s2 0
    | _ => read_digits 10 s2 0
    end in
  if (ndigits =? 0)%nat then (0, 0%nat)
  else
    let v := if negative then - magnitude else magnitude in
    (Z.max LLONG_MIN (Z.min LLONG_MAX v), (nspace + nsign + ndigits)%nat).

(** *** The template parameter [DType]

    What [ParseBlock] needs of [DType]: the constant of
    [std::is_same<DType, real_t>::value]; [DType(0.0f)]; the branch of
    the chain of lines 148-159 that is taken for this [DType], as a
    function from the text at [p] to [v] and [endptr - p], or [None] in the
    [LOG(FATAL)] branch; and the conversion of [weight = v]. *)
Class DTypeOps (DType : Type) : Type := {
  is_same_real_t : bool;
  DType_zero : DType;
  strtonum : option (list char -> DType * nat);
  real_of_DType : DType -> real_t
}.

#[global] Typeclasses Opaque real_t int32_t int64_t.

#[global] Instance real_t_ops : DTypeOps real_t :=
  {| is_same_real_t := true;
     DType_zero := S754_zero false;
     strtonum := Some strtof;
     real_of_DType := fun v => v |}.

#[global] Instance int32_t_ops : DTypeOps int32_t :=
  {| is_same_real_t := false;
     DType_zero := 0;
     strtonum := Some (fun s => let '(v, n) := strtoll s in (cast_int32 v, n));
     real_of_DType := real_of_Z |}.

#[global] Instance int64_t_ops : DTypeOps int64_t :=
  {| is_same_real_t := false;
     DType_zero := 0;
     strtonum := Some strtoll;
     real_of_DType := real_of_Z |}.

(** Any other [DType], here [bool] for definiteness: line 158. *)
Definition other_ops : DTypeOps bool :=
  {| is_same_real_t := false;
     DType_zero := false;
     strtonum := None;
     real_of_DType := fun b => if b then real_of_Z 1 else real_of_Z 0 |}.

(** The template parameter [IndexType]: an unsigned integer type of 32 or
    64 bits. *)
Inductive IndexType : Type := uint32_t | uint64_t.

Definition index_modulus (I : IndexType) : Z :=
  match I with uint32_t => 2 ^ 32 | uint64_t => 2 ^ 64 end.

(** ** [RowBlockContainer] *)

(** Modelled from the spec: [RowBlockContainer<IndexType, DType>]
    ([row_block.h], not among the sources), the fields that [ParseBlock]
    writes: "index: ordered sequence of feature-column positions", "value:
    ... parallel to index", "offset: ordered sequence of row boundaries",
    "label: flat sequence of label values, label_count per row", "weight:
    optional sequence, at most one entry per row", "label_count". *)
Record RowBlockContainer (DType : Type) : Type := mkRowBlock {
  offset : list nat;
  label : list DType;
  weight : list real_t;
  index : list Z;
  value : list DType;
  out_label_count : nat
}.

Arguments mkRowBlock {DType}.
Arguments offset {DType}.
Arguments label {DType}.
Arguments weight {DType}.
Arguments index {DType}.
Arguments value {DType}.
Arguments out_label_count {DType}.

(** Modelled from the spec: [RowBlockContainer::Clear] ([row_block.h], not
    among the sources). "A Row Block is created empty at the start of each
    ParseBlock call"; "offset[0] = 0 ... Length = number of rows + 1". *)
Definition Clear {DType : Type} (label_count0 : nat) : RowBlockContainer DType :=
  {| offset := [0%nat]; label := []; weight := []; index := []; value := [];
     out_label_count := label_count0 |}.

(** The UTF-8 byte-order mark, EF BB BF. *)
Definition UTF8BOM : list char := ["239"%char; "187"%char; "191"%char].

(** ** [ParseBlock] *)

Section ParseBlock.

Context {DType : Type} {ops : DTypeOps DType}.
Variable I : IndexType.
Variable param_ : CSVParserParam.

(** The memory readable from [begin] on, and the offset of [end]. *)
Variable mem : list char.
Variable end_ : nat.

(** [param_.delimiter[0]]; the terminating NUL when the string is empty. *)
Definition delimiter0 : char :=
  match delimiter param_ with
  | String c _ => c
  | EmptyString => NUL
  end.

(** Line 131: while [lbegin != end] and then [*lbegin] is a newline
    character, [++lbegin]. The bound is tested before the read. [s] is
    the memory from [lbegin] on. *)
Fixpoint skip_leading_newlines (s : list char) (lbegin : nat) : result nat :=
  if (lbegin =? end_)%nat then Ok lbegin
  else match s with
       | [] => Undefined (ReadLeadingNewline lbegin)
       | c :: s' =>
           if is_newline c then skip_leading_newlines s' (S lbegin)
           else Ok lbegin
       end.

(** Modelled from the spec: [TextParserBase::IgnoreUTF8BOM(&lbegin, &end)]
    ([text_parser.h], not among the sources). "If present, skip a UTF-8
    byte-order-mark": when the three bytes of the mark lie at [lbegin]
    inside the block, [lbegin] moves past them. *)
Definition IgnoreUTF8BOM (lbegin : nat) : nat :=
  if (lbegin + 3 <=? end_)%nat
     && bool_decide (take 3 (drop lbegin mem) = UTF8BOM)
  then (lbegin + 3)%nat else lbegin.

(** Line 136: while [lend != end] and then [*lend] is not a newline
    character, [++lend]. The bound is tested before the read. *)
Fixpoint find_line_end (s : list char) (lend : nat) : result nat :=
  if (lend =? end_)%nat then Ok lend
  else match s with
       | [] => Undefined (ReadLineEnd lend)
       | c :: s' =>
           if is_newline c then Ok lend else find_line_end s' (S lend)
       end.

(** Line 177: while [*p != param_.delimiter[0]] and then [p != lend],
    [++p]. The read comes before the test of the bound. *)
Fixpoint find_delimiter (lend : nat) (s : list char) (p : nat) : result nat :=
  match s with
  | [] => Undefined (ReadDelimiterScan p)
  | c :: s' =>
      if negb (c =? delimiter0)%char && negb (p =? lend)%nat
      then find_delimiter lend s' (S p)
      else Ok p
  end.

(** Line 186: while [*lend] is a newline character and then
    [lend != end], [++lend]. The read comes before the test of the
    bound. *)
Fixpoint skip_newline_run (s : list char) (lend : nat) : result nat :=
  match s with
  | [] => Undefined (ReadNewlineRun lend)
  | c :: s' =>
      if is_newline c && negb (lend =? end_)%nat
      then skip_newline_run s' (S lend)
      else Ok lend
  end.

(** The variables of one line, lines 138-142, with the container. *)
Record row_state : Type := mkRow {
  p : nat;
  column_index : Z;
  idx : Z;
  row_label : list DType;
  row_weight : real_t;
  out : RowBlockContainer DType
}.

(** [idx++] on [IndexType]. *)
Definition idx_incr (i : Z) : Z := (i + 1) mod index_modulus I.

(** Lines 161-174: the parsed value [v], of which [consumed] characters
    were read, goes to its label slot, to the weight or to the features. *)
Definition store_field (v : DType) (consumed : nat) (st : row_state)
  : result row_state :=
  match label_column_indices param_ !! column_index st with
  | Some slot =>
      if (slot <? length (row_label st))%nat
      then Ok {| p := p st; column_index := column_index st; idx := idx st;
                 row_label := <[slot := v]> (row_label st);
                 row_weight := row_weight st; out := out st |}
      else Undefined (WriteLabelSlot slot)
  | None =>
      if is_same_real_t && (column_index st =? weight_column param_)
      then Ok {| p := p st; column_index := column_index st; idx := idx st;
                 row_label := row_label st;
                 row_weight := real_of_DType v; out := out st |}
      else if negb (consumed =? 0)%nat
      then Ok {| p := p st; column_index := column_index st;
                 idx := idx_incr (idx st);
                 row_label := row_label st; row_weight := row_weight st;
                 out := {| offset := offset (out st); label := label (out st);
                           weight := weight (out st);
                           index := index (out st) ++ [idx st];
                           value := value (out st) ++ [v];
                           out_label_count := out_label_count (out st) |} |}
      else Ok {| p := p st; column_index := column_index st;
                 idx := idx_incr (idx st);
                 row_label := row_label st; row_weight := row_weight st;
                 out := out st |}
  end.

(** One iteration of the field loop, lines 145-183. *)
Definition parse_field (lend : nat) (st : row_state) : result row_state :=
  match strtonum with
  | None => Fatal UnsupportedDType
  | Some parse =>
      let '(v, consumed) := parse (drop (p st) mem) in
      let endptr := (p st + consumed)%nat in
      st1 ← store_field v consumed st;
      let p1 := if (lend <=? endptr)%nat then lend else endptr in
      if column_index st1 =? INT_MAX then Undefined ColumnIndexOverflow
      else
        p2 ← find_delimiter lend (drop p1 mem) p1;
        if (p2 =? lend)%nat && (idx st1 =? 0) then Fatal DelimiterNotFound
        else Ok {| p := if (p2 =? lend)%nat then p2 else S p2;
                   column_index := column_index st1 + 1;
                   idx := idx st1; row_label := row_label st1;
                   row_weight := row_weight st1; out := out st1 |}
  end.

(** Lines 144-184: [while (p != lend) { ... }] *)
Fixpoint parse_fields (fuel : nat) (lend : nat) (st : row_state)
  : result row_state :=
  if (p st =? lend)%nat then Ok st
  else match fuel with
       | O => OutOfFuel
       | S fuel' => st' ← parse_field lend st; parse_fields fuel' lend st'
       end.

(** Lines 189-193: the row is closed. *)
Definition close_row (st : row_state) : RowBlockContainer DType :=
  {| offset := offset (out st) ++ [length (index (out st))];
     label := label (out st) ++ row_label st;
     weight := if isnan (row_weight st) then weight (out st)
               else weight (out st) ++ [row_weight st];
     index := index (out st);
     value := value (out st);
     out_label_count := out_label_count (out st) |}.

(** The variables of a line when its first field starts, lines 138-142. *)
Definition row_start (o : RowBlockContainer DType) (lbegin : nat) : row_state :=
  {| p := lbegin; column_index := 0; idx := 0;
     row_label := replicate (label_count param_) DType_zero;
     row_weight := quiet_NaN; out := o |}.

(** Lines 135-187: the end of the line that starts at [lbegin], its
    fields, and the newline characters after it. The result is the
    state of the row and the new [lbegin]. *)
Definition scan_line (o : RowBlockContainer DType) (lbegin : nat)
  : result (row_state * nat) :=
  lend ← find_line_end (drop (S lbegin) mem) (S lbegin);
  st ← parse_fields (lend - lbegin) lend (row_start o lbegin);
  lend' ← skip_newline_run (drop lend mem) lend;
  Ok (st, lend').

(** Lines 135-193: one line, starting at [lbegin] once the byte-order
    mark has been looked for. The result is the container and the new
    [lbegin]. *)
Definition parse_line_at (o : RowBlockContainer DType) (lbegin : nat)
  : result (RowBlockContainer DType * nat) :=
  '(st, lbegin') ← scan_line o lbegin;
  Ok (close_row st, lbegin').

(** Lines 133-193: the body of the line loop. *)
Definition parse_line (o : RowBlockContainer DType) (lbegin : nat)
  : result (RowBlockContainer DType * nat) :=
  parse_line_at o (IgnoreUTF8BOM lbegin).

(** Lines 132-194: [while (lbegin != end) { ... }] *)
Fixpoint parse_lines (fuel : nat) (o : RowBlockContainer DType) (lbegin : nat)
  : result (RowBlockContainer DType) :=
  if (lbegin =? end_)%nat then Ok o
  else match fuel with
       | O => OutOfFuel
       | S fuel' =>
           '(o', lbegin') ← parse_line o lbegin;
           parse_lines fuel' o' lbegin'
       end.

(** Lines 195-198. *)
Definition final_checks (o : RowBlockContainer DType)
  : result (RowBlockContainer DType) :=
  if negb (0 <? out_label_count o)%nat then Fatal CheckLabelCountPositive
  else if negb (length (label o) mod out_label_count o =? 0)%nat
  then Fatal CheckLabelSizeMultiple
  else if negb (length (label o) / out_label_count o + 1 =? length (offset o))%nat
  then Fatal CheckOffsetSize
  else if negb ((length (weight o) =? 0)%nat
                || (length (weight o) + 1 =? length (offset o))%nat)
  then Fatal CheckWeightSize
  else Ok o.

(** [ParseBlock(begin, end, out)], lines 125-199. *)
Definition ParseBlock : result (RowBlockContainer DType) :=
  lbegin ← skip_leading_newlines mem 0%nat;
  o ← parse_lines (length mem) (Clear (label_count param_)) lbegin;
  final_checks o.

(** *** Notions used to state the properties *)

(** The role of a column, as lines 161-165 decide it. *)
Inductive role : Type :=
| LabelColumn (slot : nat)
| WeightColumn
| FeatureColumn.

Definition column_role (column : Z) : role :=
  match label_column_indices param_ !! column with
  | Some slot => LabelColumn slot
  | None =>
      if is_same_real_t && (column =? weight_column param_)
      then WeightColumn else FeatureColumn
  end.

(** [field_steps lend st st']: the field loop of a line that ends at
    [lend], in state [st] at the start of a field, is in state [st'] at
    the start of the same or of a later field. *)
Inductive field_steps (lend : nat) : row_state -> row_state -> Prop :=
| field_steps_refl st : field_steps lend st st
| field_steps_next st st1 st2 :
    p st ≠ lend ->
    parse_field lend st = Ok st1 ->
    field_steps lend st1 st2 ->
    field_steps lend st st2.

(** The value of the variable [weight] at the end of each line of the
    line loop, in line order. *)
Fixpoint row_weights (fuel : nat) (o : RowBlockContainer DType) (lbegin : nat)
  : list real_t :=
  if (lbegin =? end_)%nat then []
  else match fuel with
       | O => []
       | S fuel' =>
           match scan_line o (IgnoreUTF8BOM lbegin) with
           | Ok (st, lbegin') =>
               row_weight st :: row_weights fuel' (close_row st) lbegin'
           | _ => []
           end
       end.

(** The line loop as the specification words it, "skip a UTF-8
    byte-order-mark at the start of the first line only": no line of
    the loop looks for the mark. *)
Fixpoint parse_lines_without_BOM (fuel : nat) (o : RowBlockContainer DType)
    (lbegin : nat) : result (RowBlockContainer DType) :=
  if (lbegin =? end_)%nat then Ok o
  else match fuel with
       | O => OutOfFuel
       | S fuel' =>
           '(o', lbegin') ← parse_line_at o lbegin;
           parse_lines_without_BOM fuel' o' lbegin'
       end.

(** [ParseBlock] as the specification words it: the mark is looked for
    once, where the first line starts. *)
Definition ParseBlock_BOM_first_line_only : result (RowBlockContainer DType) :=
  lbegin ← skip_leading_newlines mem 0%nat;
  o ← parse_lines_without_BOM (length mem) (Clear (label_count param_))
        (IgnoreUTF8BOM lbegin);
  final_checks o.

End ParseBlock.

(** ** Notions used to state further properties *)

(** What the loop of lines 49-81 keeps true of the map and of
    [output_index]: the slots given out are the numbers below
    [output_index], each to one column, and the columns are non-negative
    values of [int]. *)
Definition slots_wf (st : extract_state) : Prop :=
  size (indices st) = output_index st /\
  (forall k slot, indices st !! k = Some slot ->
                  (slot < output_index st)%nat /\ 0 <= k <= INT_MAX) /\
  (forall k1 k2 slot, indices st !! k1 = Some slot ->
                      indices st !! k2 = Some slot -> k1 = k2) /\
  (forall slot, (slot < output_index st)%nat ->
                exists k, indices st !! k = Some slot).

(** The outcomes that the loops of [ParseBlock] can have when every label
    slot of the map is inside the label vector: no write outside the
    vector, no exception, and of the fatal errors only those of lines 158
    and 179. *)
Definition loop_outcome {A : Type} (r : result A) : Prop :=
  match r with
  | Ok _ | OutOfFuel => True
  | Fatal f => f = UnsupportedDType \/ f = DelimiterNotFound
  | Throw _ => False
  | Undefined (WriteLabelSlot _) => False
  | Undefined _ => True
  end.

(** The outcomes of [ParseBlock] itself: in addition, the check of line
    198 can fail, and the fuel is enough. *)
Definition block_outcome {A : Type} (r : result A) : Prop :=
  match r with
  | Ok _ => True
  | Fatal f => f = UnsupportedDType \/ f = DelimiterNotFound \/ f = CheckWeightSize
  | Throw _ | OutOfFuel => False
  | Undefined (WriteLabelSlot _) => False
  | Undefined _ => True
  end.

(** The feature indices of row [i] of a container: the part of [index]
    between [offset[i]] and [offset[i + 1]]. *)
Definition row_indices {DType : Type} (o : RowBlockContainer DType) (i : nat)
  : list Z :=
  match offset o !! i, offset o !! S i with
  | Some a, Some b => take (b - a) (drop a (index o))
  | _, _ => []
  end.

(** The row boundaries of a container are well formed: they do not
    decrease, none is past the end of [index], and the last one is the
    length of [index]. *)
Definition offsets_wf {DType : Type} (o : RowBlockContainer DType) : Prop :=
  (forall i a b, offset o !! i = Some a -> offset o !! S i = Some b ->
                 (a <= b)%nat) /\
  Forall (fun a => (a <= length (index o))%nat) (offset o) /\
  last (offset o) = Some (length (index o)).

(** How a computation failed, whatever it computes. *)
Inductive failure : Type :=
| FailFatal (f : fatal)
| FailThrow (e : exception)
| FailUndefined (u : undefined)
| FailOutOfFuel.

Definition failure_of {A : Type} (r : result A) : option failure :=
  match r with
  | Ok _ => None
  | Fatal f => Some (FailFatal f)
  | Throw e => Some (FailThrow e)
  | Undefined u => Some (FailUndefined u)
  | OutOfFuel => Some FailOutOfFuel
  end.

(** The failure [u], with its position [k] bytes further. *)
Definition shift_undefined (k : nat) (u : undefined) : undefined :=
  match u with
  | ReadLeadingNewline pos => ReadLeadingNewline (k + pos)
  | ReadLineEnd pos => ReadLineEnd (k + pos)
  | ReadDelimiterScan pos => ReadDelimiterScan (k + pos)
  | ReadNewlineRun pos => ReadNewlineRun (k + pos)
  | WriteLabelSlot slot => WriteLabelSlot slot
  | ColumnIndexOverflow => ColumnIndexOverflow
  end.

(** The outcome [r], as it is when the memory starts [k] bytes earlier:
    the positions of a failure are [k] further, and [f] moves the result. *)
Definition shift_result {A : Type} (k : nat) (f : A -> A) (r : result A)
  : result A :=
  match r with
  | Ok a => Ok (f a)
  | Undefined u => Undefined (shift_undefined k u)
  | Fatal e => Fatal e
  | Throw e => Throw e
  | OutOfFuel => OutOfFuel
  end.

(** The state of a row with its cursor [k] bytes further. *)
Definition shift_row {DType : Type} (k : nat) (st : @row_state DType)
  : row_state :=
  {| p := k + p st; column_index := column_index st; idx := idx st;
     row_label := row_label st; row_weight := row_weight st; out := out st |}.

(** A line of text: not empty, without newline characters, and not
    starting with the byte-order mark. *)
Definition is_line (l : list char) : bool :=
  negb (length l =? 0)%nat && forallb (fun c => negb (is_newline c)) l
  && negb (bool_decide (take 3 l = UTF8BOM)).

(** Lines, each with the run of newline characters that follows it; the
    run is not empty, except that the last line may end the block. *)
Fixpoint lines_wf (ls : list (list char * list char)) : bool :=
  match ls with
  | [] => true
  | (l, nl) :: ls' =>
      is_line l && forallb is_newline nl
      && (negb (length nl =? 0)%nat || (length ls' =? 0)%nat)
      && lines_wf ls'
  end.

(** The text of the lines with their newline runs. *)
Definition join_lines (ls : list (list char * list char)) : list char :=
  concat (List.map (fun '(l, nl) => l ++ nl) ls).

(** ** Inputs of the examples *)

(** The parameters of a parser constructed with the label columns
    "2,0,2". *)
Definition param_2_0 : CSVParserParam :=
  {| format := "csv"; label_column := "2,0,2"; delimiter := ",";
     weight_column := -1;
     label_column_indices := <[0 := 1%nat]> (<[2 := 0%nat]> ∅);
     label_count := 2 |}.

(** The block "1,,3" with its newline, followed by a NUL, and the
    container that [ParseBlock] fills from it under [real_t] without
    label and weight columns. *)
Definition block_1_3 : list char := text "1,,3" ++ [LF; NUL].

Definition out_1_3 : RowBlockContainer real_t :=
  {| offset := [0; 2]%nat; label := [S754_zero false]; weight := [];
     index := [0; 2]; value := [f32 1; f32 3]; out_label_count := 1 |}.

(** The states of the field loop on the line "7,2" when column 1 is the
    label column: after the first field and at the end of the line. *)
Definition row_7_2_field1 : @row_state real_t :=
  {| p := 2; column_index := 1; idx := 1;
     row_label := [S754_zero false]; row_weight := quiet_NaN;
     out := {| offset := [0%nat]; label := []; weight := []; index := [0];
               value := [f32 7]; out_label_count := 1 |} |}.

Definition row_7_2_end : @row_state real_t :=
  {| p := 3; column_index := 2; idx := 1;
     row_label := [f32 2]; row_weight := quiet_NaN;
     out := {| offset := [0%nat]; label := []; weight := []; index := [0];
               value := [f32 7]; out_label_count := 1 |} |}.

(** * Properties *)

Lemma bind_Ok {A B : Type} (m : result A) (k : A -> result B) (b : B) :
  m ≫= k = Ok b -> exists a, m = Ok a /\ k a = Ok b.
Proof. destruct m; simpl; intros E; try discriminate. eauto. Qed.

(** Splits a hypothesis [x ← m; k = Ok b] into [m = Ok a] and [k a = Ok b]. *)
Ltac bind_inv H :=
  let a := fresh "a" in
  let Ha := fresh "H" a in
  apply bind_Ok in H; destruct H as (a & Ha & H).

(** ** The label column list *)

Lemma skip_space_length s r n :
  skip_space s = (r, n) -> String.length s = (n + String.length r)%nat.
Proof.
  revert r n. induction s as [|c s IH]; intros r n; simpl.
  - intros [= <- <-]. reflexivity.
  - destruct (isspace c).
    + destruct (skip_space s) as [r' n']. intros [= <- <-].
      rewrite (IH r' n' eq_refl). reflexivity.
    + intros [= <- <-]. reflexivity.
Qed.

Lemma decimal_digits_length s acc v n :
  decimal_digits s acc = (v, n) -> (n <= String.length s)%nat.
Proof.
  revert acc v n. induction s as [|c s IH]; intros acc v n; simpl.
  - intros [= <- <-]. lia.
  - destruct (isdigit c).
    + destruct (decimal_digits s _) as [v' n'] eqn:E. intros [= <- <-].
      apply IH in E. lia.
    + intros [= <- <-]. lia.
Qed.

Lemma stoi_sign_length s negative r n :
  stoi_sign s = (negative, r, n) -> String.length s = (n + String.length r)%nat.
Proof.
  destruct s as [|c s]; simpl; [intros [= <- <- <-]; reflexivity|].
  destruct (c =? "-")%char; [intros [= <- <- <-]; reflexivity|].
  destruct (c =? "+")%char; intros [= <- <- <-]; reflexivity.
Qed.

(** [std::stoi] returns or throws, and the position it reports is inside
    the string. *)
Lemma stoi_outcome element :
  match stoi element with
  | Ok (v, next) => (next <= String.length element)%nat
  | Throw _ => True
  | _ => False
  end.
Proof.
  unfold stoi. destruct (skip_space element) as [s1 nspace] eqn:Hs.
  apply skip_space_length in Hs.
  destruct (stoi_sign s1) as [[negative s2] nsign] eqn:Hg.
  apply stoi_sign_length in Hg.
  destruct (decimal_digits s2 0) as [magnitude ndigits] eqn:Hd.
  apply decimal_digits_length in Hd.
  destruct (ndigits =? 0)%nat; [exact Logic.I|]. cbv zeta.
  match goal with
  | |- context [if ?b then Throw out_of_range else _] => destruct b
  end; [exact Logic.I|]. lia.
Qed.

Lemma string_get_lt s n :
  (n < String.length s)%nat -> exists c, String.get n s = Some c.
Proof.
  revert n. induction s as [|c s IH]; intros n; simpl; [lia|].
  destruct n as [|n]; [eauto|]. intros H. apply IH. lia.
Qed.

(** An entry is accepted or skipped with a warning, unless [std::stoi]
    throws on it; then the exception leaves the loop. *)
Lemma extract_element_outcome st element :
  match extract_element st element with
  | Ok st' =>
      (exists input_index,
          indices st !! input_index = None /\
          st' = {| indices := <[input_index := output_index st]> (indices st);
                   output_index := S (output_index st);
                   warnings := warnings st |}) \/
      (exists w, st' = warn w st)
  | Throw e => stoi element = Throw e
  | _ => False
  end.
Proof.
  unfold extract_element. destruct (string_front element) as [front|];
    [|right; eauto].
  destruct (isdigit front || (front =? "-")%char || (front =? "+")%char);
    [|right; eauto].
  pose proof (stoi_outcome element) as Hs.
  destruct (stoi element) as [[input_index next]| | | |]; simpl;
    try reflexivity; try contradiction.
  destruct (Nat.eqb_spec next (String.length element)) as [->|Hne].
  - destruct (0 <=? input_index); [|right; eauto].
    destruct (indices st !! input_index) eqn:Hl; [right; eauto|left; eauto].
  - destruct (string_get_lt element next) as [c ->]; [lia|]. right. eauto.
Qed.

Section Properties.

Context {DType : Type} {ops : DTypeOps DType}.
Variable I : IndexType.
Variable param_ : CSVParserParam.
Variable mem : list char.
Variable end_ : nat.

Local Abbreviation find_line_end := (find_line_end end_).
Local Abbreviation find_delimiter := (find_delimiter param_).
Local Abbreviation skip_newline_run := (skip_newline_run end_).
Local Abbreviation skip_leading_newlines := (skip_leading_newlines end_).
Local Abbreviation IgnoreUTF8BOM := (IgnoreUTF8BOM mem end_).
Local Abbreviation store_field := (store_field I param_).
Local Abbreviation parse_field := (parse_field I param_ mem).
Local Abbreviation parse_fields := (parse_fields I param_ mem).
Local Abbreviation row_start := (row_start param_).
Local Abbreviation scan_line := (scan_line I param_ mem end_).
Local Abbreviation parse_line_at := (parse_line_at I param_ mem end_).
Local Abbreviation parse_line := (parse_line I param_ mem end_).
Local Abbreviation parse_lines := (parse_lines I param_ mem end_).
Local Abbreviation ParseBlock := (ParseBlock I param_ mem end_).
Local Abbreviation column_role := (column_role param_).
Local Abbreviation field_steps := (field_steps I param_ mem).
Local Abbreviation row_weights := (row_weights I param_ mem end_).
Local Abbreviation delimiter0 := (delimiter0 param_).

(** ** The scanning loops *)

Lemma find_line_end_bounds s lend r :
  find_line_end s lend = Ok r ->
  (lend <= r)%nat /\ (r = end_ \/ (r < lend + length s)%nat).
Proof.
  revert lend. induction s as [|c s IH]; intros lend; simpl.
  - destruct (Nat.eqb_spec lend end_); [|discriminate].
    intros [= <-]. lia.
  - destruct (Nat.eqb_spec lend end_).
    + intros [= <-]. lia.
    + destruct (is_newline c).
      * intros [= <-]. lia.
      * intros E. apply IH in E. lia.
Qed.

Lemma find_delimiter_bounds lend s p0 r :
  find_delimiter lend s p0 = Ok r ->
  (p0 <= r < p0 + length s)%nat /\ ((p0 <= lend)%nat -> (r <= lend)%nat).
Proof.
  revert p0. induction s as [|c s IH]; intros p0; simpl; [discriminate|].
  destruct (negb (c =? delimiter0)%char); simpl.
  - destruct (Nat.eqb_spec p0 lend); simpl.
    + intros [= <-]. lia.
    + intros E. apply IH in E. lia.
  - intros [= <-]. lia.
Qed.

Lemma skip_newline_run_bounds s lend r :
  skip_newline_run s lend = Ok r -> (lend <= r < lend + length s)%nat.
Proof.
  revert lend. induction s as [|c s IH]; intros lend; simpl; [discriminate|].
  destruct (is_newline c && negb (lend =? end_)%nat).
  - intros E. apply IH in E. lia.
  - intros [= <-]. lia.
Qed.

Lemma find_delimiter_fuel lend s p0 : find_delimiter lend s p0 ≠ OutOfFuel.
Proof.
  revert p0. induction s as [|c s IH]; intros p0; simpl; [discriminate|].
  destruct (negb (c =? delimiter0)%char && negb (p0 =? lend)%nat);
    [apply IH|discriminate].
Qed.

Lemma find_delimiter_not_Fatal lend s p0 f : find_delimiter lend s p0 ≠ Fatal f.
Proof.
  revert p0. induction s as [|c s IH]; intros p0; simpl; [discriminate|].
  destruct (negb (c =? delimiter0)%char && negb (p0 =? lend)%nat);
    [apply IH|discriminate].
Qed.

Lemma find_line_end_fuel s lend : find_line_end s lend ≠ OutOfFuel.
Proof.
  revert lend. induction s as [|c s IH]; intros lend; simpl;
    destruct (lend =? end_)%nat; try discriminate.
  destruct (is_newline c); [discriminate|apply IH].
Qed.

Lemma skip_newline_run_fuel s lend : skip_newline_run s lend ≠ OutOfFuel.
Proof.
  revert lend. induction s as [|c s IH]; intros lend; simpl; [discriminate|].
  destruct (is_newline c && negb (lend =? end_)%nat); [apply IH|discriminate].
Qed.

Lemma skip_newline_run_not_Fatal s lend f : skip_newline_run s lend ≠ Fatal f.
Proof.
  revert lend. induction s as [|c s IH]; intros lend; simpl; [discriminate|].
  destruct (is_newline c && negb (lend =? end_)%nat); [apply IH|discriminate].
Qed.

Lemma skip_leading_newlines_fuel s lbegin :
  skip_leading_newlines s lbegin ≠ OutOfFuel.
Proof.
  revert lbegin. induction s as [|c s IH]; intros lbegin; simpl;
    destruct (lbegin =? end_)%nat; try discriminate.
  destruct (is_newline c); [apply IH|discriminate].
Qed.

Lemma skip_leading_newlines_bounds s lbegin r :
  skip_leading_newlines s lbegin = Ok r ->
  (lbegin <= r)%nat /\ (r = end_ \/ (r < lbegin + length s)%nat).
Proof.
  revert lbegin. induction s as [|c s IH]; intros lbegin; simpl.
  - destruct (Nat.eqb_spec lbegin end_); [|discriminate].
    intros [= <-]. lia.
  - destruct (Nat.eqb_spec lbegin end_).
    + intros [= <-]. lia.
    + destruct (is_newline c).
      * intros E. apply IH in E. lia.
      * intros [= <-]. lia.
Qed.

Lemma IgnoreUTF8BOM_bounds lbegin :
  (lbegin <= IgnoreUTF8BOM lbegin)%nat /\
  ((lbegin < end_)%nat -> (IgnoreUTF8BOM lbegin <= end_)%nat).
Proof.
  unfold IgnoreUTF8BOM.
  destruct (Nat.leb_spec (lbegin + 3) end_); simpl; [|lia].
  destruct (bool_decide _); lia.
Qed.

(** ** One field *)

(** What [store_field] leaves alone: the cursor, the column, the size of
    the label vector, and in the container everything but [index] and
    [value], which grow together. *)
Lemma store_field_frame v consumed st st' :
  store_field v consumed st = Ok st' ->
  p st' = p st /\ column_index st' = column_index st /\
  length (row_label st') = length (row_label st) /\
  offset (out st') = offset (out st) /\ label (out st') = label (out st) /\
  weight (out st') = weight (out st) /\
  out_label_count (out st') = out_label_count (out st) /\
  (length (index (out st)) = length (value (out st)) ->
   length (index (out st')) = length (value (out st'))).
Proof.
  unfold store_field.
  destruct (label_column_indices param_ !! column_index st) as [slot|].
  - destruct (slot <? length (row_label st))%nat; [|discriminate].
    intros [= <-]; simpl. rewrite length_insert. auto 10.
  - destruct (is_same_real_t && (column_index st =? weight_column param_)).
    + intros [= <-]; simpl. auto 10.
    + destruct (negb (consumed =? 0)%nat); intros [= <-]; simpl.
      * rewrite !length_app. simpl. repeat split; auto; lia.
      * auto 10.
Qed.

(** The cursor after a field: at the line end, or past a delimiter that
    lies before the line end. *)
Lemma parse_field_frame lend st st' :
  parse_field lend st = Ok st' ->
  (p st <= lend)%nat ->
  ((p st' = lend /\ idx st' ≠ 0) \/ (p st < p st' <= lend)%nat) /\
  column_index st' = column_index st + 1 /\
  length (row_label st') = length (row_label st) /\
  offset (out st') = offset (out st) /\ label (out st') = label (out st) /\
  weight (out st') = weight (out st) /\
  out_label_count (out st') = out_label_count (out st) /\
  (length (index (out st)) = length (value (out st)) ->
   length (index (out st')) = length (value (out st'))).
Proof.
  unfold parse_field. destruct strtonum as [parse|]; [|discriminate].
  destruct (parse (drop (p st) mem)) as [v consumed].
  intros E Hp. bind_inv E.
  apply store_field_frame in Ha as (Ep & Ec & Hl & Ho & Hla & Hw & Hc & Hiv).
  destruct (column_index a =? INT_MAX); [discriminate|].
  bind_inv E. apply find_delimiter_bounds in Ha0 as [Hb Hle].
  destruct (Nat.eqb_spec a0 lend) as [->|Hne]; simpl in E.
  - destruct (Z.eqb_spec (idx a) 0); [discriminate|].
    injection E as <-; simpl. repeat split; auto. lia.
  - injection E as <-; simpl. repeat split; auto; try lia.
    right. destruct (Nat.leb_spec lend (p st + consumed)); lia.
Qed.

Lemma parse_field_fuel lend st : parse_field lend st ≠ OutOfFuel.
Proof.
  unfold parse_field. destruct strtonum as [parse|]; [|discriminate].
  destruct (parse (drop (p st) mem)) as [v consumed].
  destruct (store_field v consumed st) as [st1| | | |] eqn:E; simpl;
    try discriminate.
  - destruct (column_index st1 =? INT_MAX); [discriminate|].
    match goal with
    | |- context [find_delimiter ?l ?s ?q] =>
        pose proof (find_delimiter_fuel l s q);
        destruct (find_delimiter l s q); simpl; try discriminate; try congruence
    end.
    destruct ((a =? lend)%nat && (idx st1 =? 0)); discriminate.
  - revert E. unfold store_field.
    repeat (match goal with
            | |- context [match ?x with _ => _ end] => destruct x
            end; simpl; try discriminate).
Qed.

(** ** The field loop *)

Lemma parse_fields_frame fuel lend st st' :
  parse_fields fuel lend st = Ok st' ->
  (p st <= lend)%nat ->
  p st' = lend /\
  column_index st <= column_index st' /\
  length (row_label st') = length (row_label st) /\
  offset (out st') = offset (out st) /\ label (out st') = label (out st) /\
  weight (out st') = weight (out st) /\
  out_label_count (out st') = out_label_count (out st) /\
  (length (index (out st)) = length (value (out st)) ->
   length (index (out st')) = length (value (out st'))).
Proof.
  revert st. induction fuel as [|fuel IH]; intros st; simpl.
  - destruct (Nat.eqb_spec (p st) lend); [|discriminate].
    intros [= <-] _. repeat split; auto; lia.
  - destruct (Nat.eqb_spec (p st) lend).
    + intros [= <-] _. repeat split; auto; lia.
    + intros E Hp. bind_inv E.
      apply parse_field_frame in Ha as (Hp' & Hc & Hl & Ho & Hla & Hw & Hlc & Hiv);
        [|exact Hp].
      apply IH in E as (Ep & Hc' & Hl' & Ho' & Hla' & Hw' & Hlc' & Hiv'); [|lia].
      repeat split; try congruence; try lia; auto.
Qed.

(** The fuel that [scan_line] gives the field loop is enough. *)
Lemma parse_fields_fuel fuel lend st :
  (p st <= lend)%nat -> (lend - p st <= fuel)%nat ->
  parse_fields fuel lend st ≠ OutOfFuel.
Proof.
  revert st. induction fuel as [|fuel IH]; intros st Hp Hf; simpl.
  - destruct (Nat.eqb_spec (p st) lend); [discriminate|lia].
  - destruct (Nat.eqb_spec (p st) lend); [discriminate|].
    destruct (parse_field lend st) as [st1| | | |] eqn:E; simpl; try discriminate.
    + apply parse_field_frame in E as (Hp' & _); [|exact Hp].
      apply IH; lia.
    + exfalso. exact (parse_field_fuel _ _ E).
Qed.

(** ** One line *)

Lemma scan_line_frame o lbegin st lbegin' :
  scan_line o lbegin = Ok (st, lbegin') ->
  (lbegin < lbegin' < length mem)%nat /\
  length (row_label st) = label_count param_ /\
  offset (out st) = offset o /\ label (out st) = label o /\
  weight (out st) = weight o /\
  out_label_count (out st) = out_label_count o /\
  (length (index o) = length (value o) ->
   length (index (out st)) = length (value (out st))).
Proof.
  unfold scan_line. intros E. bind_inv E. bind_inv E. bind_inv E.
  injection E as <- <-.
  apply find_line_end_bounds in Ha as [Hle _].
  apply parse_fields_frame in Ha0 as (_ & _ & Hl & Ho & Hla & Hw & Hc & Hiv);
    [|simpl; lia].
  apply skip_newline_run_bounds in Ha1. rewrite length_drop in Ha1.
  simpl in *. rewrite length_replicate in Hl.
  repeat split; auto; lia.
Qed.

Lemma scan_line_fuel o lbegin : scan_line o lbegin ≠ OutOfFuel.
Proof.
  unfold scan_line.
  destruct (find_line_end _ _) as [lend| | | |] eqn:E; simpl; try discriminate.
  - apply find_line_end_bounds in E as [Hle _].
    destruct (parse_fields _ lend _) as [st| | | |] eqn:E2; simpl;
      try discriminate.
    + destruct (skip_newline_run _ lend) eqn:E3; simpl; try discriminate.
      exfalso. exact (skip_newline_run_fuel _ _ E3).
    + exfalso. revert E2. apply parse_fields_fuel; simpl; lia.
  - exfalso. exact (find_line_end_fuel _ _ E).
Qed.

Lemma parse_line_at_Ok o lbegin o' lbegin' :
  parse_line_at o lbegin = Ok (o', lbegin') ->
  exists st, scan_line o lbegin = Ok (st, lbegin') /\ o' = close_row st.
Proof.
  unfold parse_line_at. intros E. bind_inv E. destruct a as [st lb].
  injection E as <- <-. eauto.
Qed.

(** ** The line loop *)

(** The number of rows that the loop closes is the length of
    [row_weights]; each one adds [label_count] labels, one offset, and its
    weight when that is not NaN. *)
Lemma parse_lines_frame fuel o lbegin o' :
  parse_lines fuel o lbegin = Ok o' ->
  length (label o') =
    (length (label o) + label_count param_ * length (row_weights fuel o lbegin))%nat /\
  length (offset o') = (length (offset o) + length (row_weights fuel o lbegin))%nat /\
  weight o' =
    weight o ++ List.filter (fun w => negb (isnan w)) (row_weights fuel o lbegin) /\
  out_label_count o' = out_label_count o /\
  (length (index o) = length (value o) -> length (index o') = length (value o')).
Proof.
  revert o lbegin. induction fuel as [|fuel IH]; intros o lbegin; simpl.
  - destruct (lbegin =? end_)%nat; [|discriminate].
    intros [= <-]. simpl. rewrite app_nil_r. repeat split; auto; lia.
  - destruct (lbegin =? end_)%nat.
    + intros [= <-]. simpl. rewrite app_nil_r. repeat split; auto; lia.
    + intros E. bind_inv E. destruct a as [o1 lb1].
      unfold parse_line in Ha. apply parse_line_at_Ok in Ha as (st & Hs & ->).
      rewrite Hs. apply scan_line_frame in Hs as (_ & Hl & Ho & Hla & Hw & Hc & Hiv).
      apply IH in E as (El & Eo & Ew & Ec & Eiv). simpl in *.
      rewrite El, Eo, Ew, Ec, Hla, Ho, Hw, Hc, !length_app, Hl. simpl.
      repeat split; auto; try lia.
      destruct (isnan (row_weight st)); simpl; [reflexivity|].
      rewrite <- app_assoc. reflexivity.
Qed.

Lemma parse_lines_fuel fuel o lbegin :
  lbegin = end_ \/ ((lbegin < length mem)%nat /\ (length mem - lbegin <= fuel)%nat) ->
  parse_lines fuel o lbegin ≠ OutOfFuel.
Proof.
  revert o lbegin. induction fuel as [|fuel IH]; intros o lbegin H; simpl.
  - destruct (Nat.eqb_spec lbegin end_); [discriminate|lia].
  - destruct (Nat.eqb_spec lbegin end_); [discriminate|].
    destruct H as [?|[Hlt Hf]]; [contradiction|].
    unfold parse_line, parse_line_at.
    destruct (scan_line o _) as [[st lb]| | | |] eqn:E; simpl; try discriminate.
    + apply IH. right. apply scan_line_frame in E as (Hlb & _).
      pose proof (IgnoreUTF8BOM_bounds lbegin). lia.
    + exfalso. exact (scan_line_fuel _ _ E).
Qed.

(** ** The block *)

(** [ParseBlock] is total: the fuel of its loops never runs out. *)
Lemma ParseBlock_total : ParseBlock ≠ OutOfFuel.
Proof.
  unfold ParseBlock.
  destruct (skip_leading_newlines mem 0%nat) as [lbegin| | | |] eqn:E; simpl;
    try discriminate.
  - apply skip_leading_newlines_bounds in E as [_ Hb].
    destruct (parse_lines _ _ lbegin) as [o| | | |] eqn:E2; simpl;
      try discriminate.
    + unfold final_checks.
      repeat (match goal with
              | |- context [if ?b then _ else _] => destruct b
              end; try discriminate).
    + exfalso. revert E2. apply parse_lines_fuel.
      destruct Hb as [->|Hb]; [left; reflexivity|right; lia].
  - exfalso. exact (skip_leading_newlines_fuel _ _ E).
Qed.

Lemma final_checks_Ok (o o' : RowBlockContainer DType) :
  final_checks o = Ok o' ->
  o' = o /\
  (0 < out_label_count o)%nat /\
  (length (label o) mod out_label_count o = 0)%nat /\
  (length (label o) / out_label_count o + 1 = length (offset o))%nat /\
  (length (weight o) = 0%nat \/ (length (weight o) + 1 = length (offset o))%nat).
Proof.
  unfold final_checks.
  destruct (Nat.ltb_spec 0 (out_label_count o)); simpl; [|discriminate].
  destruct (Nat.eqb_spec (length (label o) mod out_label_count o) 0); simpl;
    [|discriminate].
  destruct (Nat.eqb_spec (length (label o) / out_label_count o + 1)
              (length (offset o))); simpl; [|discriminate].
  destruct (Nat.eqb_spec (length (weight o)) 0); simpl.
  - intros [= <-]. repeat split; auto.
  - destruct (Nat.eqb_spec (length (weight o) + 1) (length (offset o))); simpl;
      [|discriminate].
    intros [= <-]. repeat split; auto.
Qed.

Lemma ParseBlock_Ok (o : RowBlockContainer DType) :
  ParseBlock = Ok o ->
  exists lbegin,
    skip_leading_newlines mem 0%nat = Ok lbegin /\
    parse_lines (length mem) (Clear (label_count param_)) lbegin = Ok o /\
    final_checks o = Ok o.
Proof.
  unfold ParseBlock. intros E. bind_inv E. bind_inv E.
  pose proof (final_checks_Ok _ _ E) as [-> _]. eauto.
Qed.

(** C3. Whenever [ParseBlock] returns, the container it filled has
    [label_count] labels per row, where the rows are [offset.size() - 1];
    no weight or one weight per row; and as many indices as values. *)
Theorem ParseBlock_invariants (o : RowBlockContainer DType) :
  ParseBlock = Ok o ->
  length (label o) = (out_label_count o * (length (offset o) - 1))%nat /\
  (length (weight o) = 0%nat \/ length (weight o) = (length (offset o) - 1)%nat) /\
  length (index o) = length (value o).
Proof.
  intros E. apply ParseBlock_Ok in E as (lbegin & _ & Hl & Hc).
  apply final_checks_Ok in Hc as (_ & _ & _ & _ & Hw).
  apply parse_lines_frame in Hl as (El & Eo & _ & Ec & Eiv). simpl in *.
  rewrite El, Eo, Ec. repeat split.
  - f_equal. lia.
  - lia.
  - auto.
Qed.

(** ** Lines without a delimiter *)

Lemma find_delimiter_absent lend n p0 :
  (p0 + n = lend)%nat -> (lend < length mem)%nat ->
  (forall i c, (p0 <= i < lend)%nat -> mem !! i = Some c -> c ≠ delimiter0) ->
  find_delimiter lend (drop p0 mem) p0 = Ok lend.
Proof.
  revert p0. induction n as [|n IH]; intros p0 Hn Hlt Hno.
  - assert (p0 = lend) as -> by lia.
    destruct (lookup_lt_is_Some_2 mem lend Hlt) as [c Hc].
    rewrite (drop_S _ _ _ Hc). simpl. rewrite Nat.eqb_refl.
    rewrite andb_false_r. reflexivity.
  - assert (Hp : (p0 < length mem)%nat) by lia.
    destruct (lookup_lt_is_Some_2 mem p0 Hp) as [c Hc].
    rewrite (drop_S _ _ _ Hc). simpl.
    assert (c ≠ delimiter0) as Hd by (apply (Hno p0); [lia|exact Hc]).
    apply Ascii.eqb_neq in Hd. rewrite Hd. simpl.
    destruct (Nat.eqb_spec p0 lend); [lia|]. simpl.
    apply IH; [lia|exact Hlt|].
    intros i c' Hi. apply Hno. lia.
Qed.

Lemma no_delimiter_lookup lbegin lend :
  forallb (fun c => negb (c =? delimiter0)%char)
          (take (lend - lbegin) (drop lbegin mem)) = true ->
  forall i c, (lbegin <= i < lend)%nat -> mem !! i = Some c -> c ≠ delimiter0.
Proof.
  intros H i c Hi Hc. rewrite forallb_forall in H.
  assert (Hin : In c (take (lend - lbegin) (drop lbegin mem))).
  { apply list_elem_of_In, list_elem_of_lookup. exists (i - lbegin)%nat.
    rewrite lookup_take_lt by lia. rewrite lookup_drop.
    replace (lbegin + (i - lbegin))%nat with i by lia. exact Hc. }
  apply H in Hin. apply negb_true_iff, Ascii.eqb_neq in Hin. exact Hin.
Qed.

Lemma idx_incr_0 : idx_incr I 0 = 1.
Proof. unfold idx_incr. destruct I; reflexivity. Qed.

(** A field from which the line has no delimiter left: the cursor ends at
    [lend], and the check of line 178 looks at [idx] as [store_field] left
    it. *)
Lemma parse_field_last parse lend st v consumed st1 :
  strtonum = Some parse ->
  parse (drop (p st) mem) = (v, consumed) ->
  (p st < lend < length mem)%nat ->
  (forall i c, (p st <= i < lend)%nat -> mem !! i = Some c -> c ≠ delimiter0) ->
  (column_index st =? INT_MAX) = false ->
  store_field v consumed st = Ok st1 ->
  parse_field lend st =
    if idx st1 =? 0 then Fatal DelimiterNotFound
    else Ok {| p := lend; column_index := column_index st + 1; idx := idx st1;
               row_label := row_label st1; row_weight := row_weight st1;
               out := out st1 |}.
Proof.
  intros Hparse Hv Hl Hno Hmax Hs. unfold parse_field. rewrite Hparse, Hv, Hs.
  simpl.
  pose proof (store_field_frame _ _ _ _ Hs) as (_ & Hc & _).
  rewrite Hc, Hmax.
  set (p1 := if (lend <=? p st + consumed)%nat then lend else (p st + consumed)%nat).
  assert (Hp1 : (p st <= p1 <= lend)%nat).
  { subst p1. destruct (Nat.leb_spec lend (p st + consumed)); lia. }
  rewrite (find_delimiter_absent lend (lend - p1) p1); [|lia|lia|].
  - simpl. rewrite Nat.eqb_refl. simpl. reflexivity.
  - intros i c Hi. apply Hno. lia.
Qed.

Lemma parse_field_without_delimiter parse o lbegin lend v consumed st1 :
  strtonum = Some parse ->
  parse (drop lbegin mem) = (v, consumed) ->
  (lbegin < lend < length mem)%nat ->
  (forall i c, (lbegin <= i < lend)%nat -> mem !! i = Some c -> c ≠ delimiter0) ->
  store_field v consumed (row_start o lbegin) = Ok st1 ->
  parse_field lend (row_start o lbegin) =
    if idx st1 =? 0 then Fatal DelimiterNotFound
    else Ok {| p := lend; column_index := 1; idx := idx st1;
               row_label := row_label st1; row_weight := row_weight st1;
               out := out st1 |}.
Proof.
  intros Hparse Hv Hl Hno Hs.
  exact (parse_field_last parse lend (row_start o lbegin) v consumed st1
           Hparse Hv Hl Hno eq_refl Hs).
Qed.

(** C1, as the code has it. On a line with no delimiter character,
    [ParseBlock] fails with "Delimiter is not found" when column 0 is a
    label column or the weight column; when column 0 is a feature column
    the check of line 178 does not fire, and the line is closed as a row
    whose single field took feature slot 0. *)
Theorem line_without_delimiter parse (o : RowBlockContainer DType) lbegin lend :
  strtonum = Some parse ->
  find_line_end (drop (S lbegin) mem) (S lbegin) = Ok lend ->
  (lend <? length mem)%nat = true ->
  forallb (fun c => negb (c =? delimiter0)%char)
          (take (lend - lbegin) (drop lbegin mem)) = true ->
  match column_role 0 with
  | LabelColumn slot =>
      (slot <? label_count param_)%nat = true ->
      parse_line_at o lbegin = Fatal DelimiterNotFound
  | WeightColumn => parse_line_at o lbegin = Fatal DelimiterNotFound
  | FeatureColumn =>
      exists st,
        parse_fields (lend - lbegin) lend (row_start o lbegin) = Ok st /\
        column_index st = 1 /\ idx st = 1 /\
        parse_line_at o lbegin =
          (lbegin' ← skip_newline_run (drop lend mem) lend;
           Ok (close_row st, lbegin')) /\
        (forall f, parse_line_at o lbegin ≠ Fatal f)
  end.
Proof.
  intros Hparse Hend Hlt Hno.
  apply Nat.ltb_lt in Hlt.
  pose proof (find_line_end_bounds _ _ _ Hend) as [Hle _].
  pose proof (no_delimiter_lookup _ _ Hno) as Hno'.
  destruct (parse (drop lbegin mem)) as [v consumed] eqn:Hv.
  assert (Hfuel : exists fuel, (lend - lbegin)%nat = S fuel)
    by (exists (lend - lbegin - 1)%nat; lia).
  destruct Hfuel as [fuel Hfuel].
  assert (Hne : (p (row_start o lbegin) =? lend)%nat = false)
    by (apply Nat.eqb_neq; simpl; lia).
  assert (Hpf := fun st1 =>
    parse_field_without_delimiter parse o lbegin lend v consumed st1
      Hparse Hv (conj Hle Hlt) Hno').
  assert (Hline : parse_line_at o lbegin =
            (st ← (st' ← parse_field lend (row_start o lbegin);
                   parse_fields fuel lend st');
             lbegin' ← skip_newline_run (drop lend mem) lend;
             Ok (close_row st, lbegin'))).
  { unfold parse_line_at, scan_line. rewrite Hend.
    cbn [mbind result_mbind result_bind]. rewrite Hfuel.
    cbn [mbind result_mbind result_bind parse_fields].
    rewrite Hne. destruct (parse_field lend (row_start o lbegin)); try reflexivity.
    simpl. destruct (parse_fields fuel lend a); try reflexivity.
    simpl. destruct (skip_newline_run _ _); reflexivity. }
  assert (Hfields : parse_fields (lend - lbegin) lend (row_start o lbegin) =
            (st' ← parse_field lend (row_start o lbegin);
             parse_fields fuel lend st')).
  { rewrite Hfuel. cbn [parse_fields]. rewrite Hne.
    reflexivity. }
  assert (Hstop : forall st, p st = lend -> parse_fields fuel lend st = Ok st).
  { intros st Hp. destruct fuel; simpl; rewrite Hp, Nat.eqb_refl; reflexivity. }
  rewrite Hline, Hfields. clear Hline Hfields.
  unfold column_role.
  destruct (label_column_indices param_ !! 0) as [slot|] eqn:Hslot.
  - intros Hs. erewrite Hpf.
    2:{ unfold store_field, row_start. cbn [column_index row_label].
        rewrite Hslot, length_replicate, Hs. reflexivity. }
    reflexivity.
  - destruct (is_same_real_t && (0 =? weight_column param_)) eqn:Hw.
    + erewrite Hpf.
      2:{ unfold store_field, row_start. cbn [column_index].
          rewrite Hslot, Hw. reflexivity. }
      reflexivity.
    + assert (Hrun : forall (k : nat -> result (RowBlockContainer DType * nat)) f,
                 (forall n, k n ≠ Fatal f) ->
                 skip_newline_run (drop lend mem) lend ≫= k ≠ Fatal f).
      { intros k f Hk.
        pose proof (skip_newline_run_not_Fatal (drop lend mem) lend f) as Hnf.
        destruct (skip_newline_run (drop lend mem) lend); simpl;
          try discriminate; [apply Hk|congruence]. }
      destruct (negb (consumed =? 0)%nat) eqn:Hc;
        (erewrite Hpf;
         [|unfold store_field, row_start; cbn [column_index];
           rewrite Hslot, Hw, Hc; reflexivity]);
        simpl; rewrite idx_incr_0; simpl;
        rewrite Hstop by reflexivity; simpl;
        (eexists; split; [reflexivity|]; repeat split;
         intros f; apply Hrun; discriminate).
Qed.

(** ** The delimiter check on later fields *)

Lemma store_field_idx v consumed st st1 :
  store_field v consumed st = Ok st1 ->
  match column_role (column_index st) with
  | FeatureColumn => idx st1 = idx_incr I (idx st)
  | _ => idx st1 = idx st
  end.
Proof.
  unfold store_field, column_role.
  destruct (label_column_indices param_ !! column_index st) as [slot|].
  - destruct (slot <? length (row_label st))%nat; [|discriminate].
    intros [= <-]. reflexivity.
  - destruct (is_same_real_t && (column_index st =? weight_column param_)).
    + intros [= <-]. reflexivity.
    + destruct (negb (consumed =? 0)%nat); intros [= <-]; reflexivity.
Qed.

Lemma store_field_outcome v consumed st :
  (exists st1, store_field v consumed st = Ok st1) \/
  (exists slot, store_field v consumed st = Undefined (WriteLabelSlot slot)).
Proof.
  unfold store_field.
  destruct (label_column_indices param_ !! column_index st) as [slot|].
  - destruct (slot <? length (row_label st))%nat; eauto.
  - destruct (is_same_real_t && (column_index st =? weight_column param_)); eauto.
    destruct (negb (consumed =? 0)%nat); eauto.
Qed.

(** A field that is parsed went through [store_field], which decided
    [idx] and [weight]. *)
Lemma parse_field_Ok_inv lend st st' :
  parse_field lend st = Ok st' ->
  exists parse st1,
    strtonum = Some parse /\
    store_field (parse (drop (p st) mem)).1 (parse (drop (p st) mem)).2 st
      = Ok st1 /\
    idx st' = idx st1 /\ row_weight st' = row_weight st1.
Proof.
  unfold parse_field. destruct strtonum as [parse|]; [|discriminate].
  destruct (parse (drop (p st) mem)) as [v consumed] eqn:Hv.
  intros E. bind_inv E. exists parse, a. rewrite Hv. simpl.
  destruct (column_index a =? INT_MAX); [discriminate|].
  bind_inv E. destruct ((a0 =? lend)%nat && (idx a =? 0)); [discriminate|].
  injection E as <-. auto.
Qed.

(** The check of line 178 fires only when [idx] is 0 after the field was
    stored. *)
Lemma parse_field_Fatal_inv lend st :
  parse_field lend st = Fatal DelimiterNotFound ->
  exists parse st1,
    strtonum = Some parse /\
    store_field (parse (drop (p st) mem)).1 (parse (drop (p st) mem)).2 st
      = Ok st1 /\
    idx st1 = 0.
Proof.
  unfold parse_field. destruct strtonum as [parse|]; [|discriminate].
  destruct (parse (drop (p st) mem)) as [v consumed] eqn:Hv.
  destruct (store_field_outcome v consumed st) as [[st1 Hs]|[slot Hs]];
    rewrite Hs; simpl; [|discriminate].
  destruct (column_index st1 =? INT_MAX); [discriminate|].
  destruct (find_delimiter lend _ _) as [p2| | | |] eqn:Hd; simpl;
    try discriminate.
  - destruct (Nat.eqb_spec p2 lend); simpl; [|discriminate].
    destruct (Z.eqb_spec (idx st1) 0); [|discriminate].
    intros _. exists parse, st1. rewrite Hv. auto.
  - exfalso. exact (find_delimiter_not_Fatal _ _ _ _ Hd).
Qed.

Lemma index_modulus_gt_1 : 1 < index_modulus I.
Proof. destruct I; reflexivity. Qed.

Lemma delimiter_check_after_feature_aux fuel lend st :
  (p st <= lend)%nat ->
  0 < idx st ->
  idx st + Z.of_nat (lend - p st) < index_modulus I ->
  parse_fields fuel lend st ≠ Fatal DelimiterNotFound.
Proof.
  revert st.
  induction fuel as [|fuel IH]; intros st Hp Hpos Hwrap; simpl.
  - destruct (p st =? lend)%nat; discriminate.
  - destruct (Nat.eqb_spec (p st) lend) as [|Hne]; [discriminate|].
    assert (Hincr : 0 < idx_incr I (idx st) <= idx st + 1).
    { unfold idx_incr. rewrite Z.mod_small; lia. }
    assert (Hidx : forall v consumed st1,
               store_field v consumed st = Ok st1 -> 0 < idx st1 <= idx st + 1).
    { intros v consumed st1 Hs. apply store_field_idx in Hs.
      destruct (column_role (column_index st)); rewrite Hs; lia. }
    destruct (parse_field lend st) as [st'|f| | |] eqn:E; simpl;
      try discriminate.
    + pose proof (parse_field_frame _ _ _ E Hp) as (Hp' & _).
      apply parse_field_Ok_inv in E as (parse & st1 & _ & Hs & Ei & _).
      apply Hidx in Hs. apply IH; lia.
    + intros [= ->].
      apply parse_field_Fatal_inv in E as (parse & st1 & _ & Hs & E0).
      apply Hidx in Hs. lia.
Qed.

(** On a field of a label column or of the weight column, with [idx]
    still 0 and no delimiter from the field to the line end, the check
    fires, in whatever column the field is. *)
Lemma delimiter_check_without_feature parse lend st :
  strtonum = Some parse ->
  (p st <? lend)%nat = true ->
  (lend <? length mem)%nat = true ->
  forallb (fun c => negb (c =? delimiter0)%char)
          (take (lend - p st) (drop (p st) mem)) = true ->
  (column_index st =? INT_MAX) = false ->
  idx st = 0 ->
  match column_role (column_index st) with
  | LabelColumn slot =>
      (slot <? length (row_label st))%nat = true ->
      parse_field lend st = Fatal DelimiterNotFound
  | WeightColumn => parse_field lend st = Fatal DelimiterNotFound
  | FeatureColumn => True
  end.
Proof.
  intros Hparse Hp Hlt Hno Hmax Hidx.
  apply Nat.ltb_lt in Hp. apply Nat.ltb_lt in Hlt.
  pose proof (no_delimiter_lookup _ _ Hno) as Hno'.
  destruct (parse (drop (p st) mem)) as [v consumed] eqn:Hv.
  assert (Hpf := fun st1 =>
    parse_field_last parse lend st v consumed st1 Hparse Hv (conj Hp Hlt)
      Hno' Hmax).
  unfold column_role.
  destruct (label_column_indices param_ !! column_index st) as [slot|] eqn:Hslot.
  - intros Hs. erewrite Hpf.
    2:{ unfold store_field. rewrite Hslot, Hs. reflexivity. }
    simpl. rewrite Hidx. reflexivity.
  - destruct (is_same_real_t && (column_index st =? weight_column param_)) eqn:Hw;
      [|exact Logic.I].
    erewrite Hpf.
    2:{ unfold store_field. rewrite Hslot, Hw. reflexivity. }
    simpl. rewrite Hidx. reflexivity.
Qed.

(** C2, as the code has it. Once a feature column has been stored on the
    line, so that [idx] is not 0, the check of line 178 does not fire on
    any later field of the line, as long as [idx] does not wrap around.
    While [idx] is 0 the check fires on any field of a label column or of
    the weight column from which the line has no delimiter left, also when
    a delimiter was found on earlier fields. *)
Theorem delimiter_check_after_feature :
  (forall fuel lend st,
     (p st <=? lend)%nat = true ->
     (0 <? idx st) = true ->
     (idx st + Z.of_nat (lend - p st) <? index_modulus I) = true ->
     parse_fields fuel lend st ≠ Fatal DelimiterNotFound) /\
  (forall parse lend st,
     strtonum = Some parse ->
     (p st <? lend)%nat = true ->
     (lend <? length mem)%nat = true ->
     forallb (fun c => negb (c =? delimiter0)%char)
             (take (lend - p st) (drop (p st) mem)) = true ->
     (column_index st =? INT_MAX) = false ->
     idx st = 0 ->
     match column_role (column_index st) with
     | LabelColumn slot =>
         (slot <? length (row_label st))%nat = true ->
         parse_field lend st = Fatal DelimiterNotFound
     | WeightColumn => parse_field lend st = Fatal DelimiterNotFound
     | FeatureColumn => True
     end).
Proof.
  split.
  - intros fuel lend st Hp Hpos Hwrap.
    apply Nat.leb_le in Hp. apply Z.ltb_lt in Hpos. apply Z.ltb_lt in Hwrap.
    apply delimiter_check_after_feature_aux; assumption.
  - exact delimiter_check_without_feature.
Qed.

(** ** The byte-order mark *)

(** C5, as the code has it. The mark is looked for where every line of
    the loop starts: at any iteration, a mark at [lbegin] inside the block
    is skipped and the line is parsed from the byte after it. *)
Theorem BOM_skipped_on_every_line fuel (o : RowBlockContainer DType) lbegin :
  (lbegin + 3 <=? end_)%nat = true ->
  take 3 (drop lbegin mem) = UTF8BOM ->
  parse_lines (S fuel) o lbegin =
    ('(o', lbegin') ← parse_line_at o (lbegin + 3); parse_lines fuel o' lbegin').
Proof.
  intros Hin Hbom. simpl.
  destruct (Nat.eqb_spec lbegin end_) as [->|_].
  - apply Nat.leb_le in Hin. lia.
  - unfold parse_line, IgnoreUTF8BOM. rewrite Hin, Hbom. reflexivity.
Qed.

(** ** Empty feature fields *)

Lemma store_field_empty_feature v st :
  column_role (column_index st) = FeatureColumn ->
  store_field v 0 st =
    Ok {| p := p st; column_index := column_index st;
          idx := idx_incr I (idx st);
          row_label := row_label st; row_weight := row_weight st;
          out := out st |}.
Proof.
  unfold column_role, store_field.
  destruct (label_column_indices param_ !! column_index st); [discriminate|].
  destruct (is_same_real_t && (column_index st =? weight_column param_));
    [discriminate|].
  reflexivity.
Qed.

(** ** The weight column under the integer types *)

Section IntegerTypes.

Hypothesis not_real_t : is_same_real_t = false.

Lemma store_field_weight_NaN v consumed st st1 :
  store_field v consumed st = Ok st1 -> row_weight st1 = row_weight st.
Proof.
  unfold store_field. rewrite not_real_t. simpl.
  destruct (label_column_indices param_ !! column_index st) as [slot|].
  - destruct (slot <? length (row_label st))%nat; [|discriminate].
    intros [= <-]. reflexivity.
  - destruct (negb (consumed =? 0)%nat); intros [= <-]; reflexivity.
Qed.

Lemma parse_fields_weight_NaN fuel lend st st' :
  parse_fields fuel lend st = Ok st' -> row_weight st' = row_weight st.
Proof.
  revert st. induction fuel as [|fuel IH]; intros st; simpl;
    destruct (p st =? lend)%nat; try discriminate; try (intros [= <-]; reflexivity).
  intros E. bind_inv E.
  apply parse_field_Ok_inv in Ha as (parse & st1 & _ & Hs & _ & Hw).
  apply store_field_weight_NaN in Hs. apply IH in E. congruence.
Qed.

Lemma row_weights_NaN fuel (o : RowBlockContainer DType) lbegin :
  Forall (fun w => isnan w = true) (row_weights fuel o lbegin).
Proof.
  revert o lbegin. induction fuel as [|fuel IH]; intros o lbegin; simpl;
    destruct (lbegin =? end_)%nat; try constructor.
  destruct (scan_line o _) as [[st lb]| | | |] eqn:E; try constructor.
  - unfold scan_line in E. bind_inv E. bind_inv E. bind_inv E.
    injection E as <- <-.
    apply parse_fields_weight_NaN in Ha0. rewrite Ha0. reflexivity.
  - apply IH.
Qed.

Lemma ParseBlock_no_weight (o : RowBlockContainer DType) :
  ParseBlock = Ok o -> weight o = [].
Proof.
  intros E. apply ParseBlock_Ok in E as (lbegin & _ & Hl & _).
  apply parse_lines_frame in Hl as (_ & _ & -> & _). simpl.
  pose proof (row_weights_NaN (length mem) (Clear (label_count param_)) lbegin) as H.
  induction H as [|w ws Hw _ IH]; simpl; [reflexivity|].
  rewrite Hw. simpl. exact IH.
Qed.

End IntegerTypes.

(** ** The weight of a row *)

Lemma field_steps_parse_fields lend st0 st_w :
  field_steps lend st0 st_w ->
  forall fuel st,
    parse_fields fuel lend st0 = Ok st ->
    exists fuel', parse_fields fuel' lend st_w = Ok st.
Proof.
  induction 1 as [st0|st0 st1 st2 Hne Hstep _ IH]; intros fuel st E.
  - eauto.
  - destruct fuel as [|fuel]; simpl in E;
      destruct (Nat.eqb_spec (p st0) lend); try contradiction; try discriminate.
    rewrite Hstep in E. simpl in E. eauto.
Qed.

Lemma field_steps_column_index lend st0 st1 :
  field_steps lend st0 st1 -> (p st0 <= lend)%nat ->
  (p st1 <= lend)%nat /\
  (st1 = st0 \/ column_index st0 < column_index st1).
Proof.
  induction 1 as [st0|st0 st1 st2 Hne Hstep _ IH]; intros Hp.
  - auto.
  - apply parse_field_frame in Hstep as (Hp' & Hc & _); [|exact Hp].
    destruct IH as [Hp2 Hc2]; [lia|].
    split; [exact Hp2|]. right. destruct Hc2 as [->|]; lia.
Qed.

(** A column that is not the weight column leaves [weight] alone. *)
Lemma store_field_other_column v consumed st st1 :
  store_field v consumed st = Ok st1 ->
  column_role (column_index st) ≠ WeightColumn ->
  row_weight st1 = row_weight st.
Proof.
  unfold store_field, column_role.
  destruct (label_column_indices param_ !! column_index st) as [slot|].
  - destruct (slot <? length (row_label st))%nat; [|discriminate].
    intros [= <-]. reflexivity.
  - destruct (is_same_real_t && (column_index st =? weight_column param_)).
    + intros _ H. contradiction.
    + destruct (negb (consumed =? 0)%nat); intros [= <-]; reflexivity.
Qed.

(** The weight column takes the parsed value as [weight]. *)
Lemma store_field_weight_column v consumed st :
  column_role (column_index st) = WeightColumn ->
  store_field v consumed st =
    Ok {| p := p st; column_index := column_index st; idx := idx st;
          row_label := row_label st; row_weight := real_of_DType v;
          out := out st |}.
Proof.
  unfold store_field, column_role.
  destruct (label_column_indices param_ !! column_index st); [discriminate|].
  destruct (is_same_real_t && (column_index st =? weight_column param_));
    [reflexivity|discriminate].
Qed.

Lemma column_role_weight column :
  column_role column = WeightColumn -> column = weight_column param_.
Proof.
  unfold column_role.
  destruct (label_column_indices param_ !! column); [discriminate|].
  destruct is_same_real_t; simpl; [|discriminate].
  destruct (Z.eqb_spec column (weight_column param_)); [auto|discriminate].
Qed.

(** Past the weight column, [weight] does not change. *)
Lemma parse_fields_past_weight fuel lend st st' :
  parse_fields fuel lend st = Ok st' ->
  (p st <= lend)%nat ->
  weight_column param_ < column_index st ->
  row_weight st' = row_weight st.
Proof.
  revert st. induction fuel as [|fuel IH]; intros st; simpl;
    destruct (p st =? lend)%nat; try discriminate;
    try (intros [= <-]; reflexivity).
  intros E Hp Hc. bind_inv E.
  pose proof (parse_field_frame _ _ _ Ha Hp) as (Hp' & Hc' & _).
  apply parse_field_Ok_inv in Ha as (parse & st1 & _ & Hs & _ & Hw).
  apply store_field_other_column in Hs.
  - apply IH in E; [congruence|lia|lia].
  - intros Hr. apply column_role_weight in Hr. lia.
Qed.

(** No field of the line is in the weight column: [weight] is as it was
    when the line started. *)
Lemma parse_fields_no_weight_field fuel lend st st' :
  parse_fields fuel lend st = Ok st' ->
  (forall st_w, field_steps lend st st_w -> p st_w ≠ lend ->
                column_role (column_index st_w) ≠ WeightColumn) ->
  row_weight st' = row_weight st.
Proof.
  revert st. induction fuel as [|fuel IH]; intros st; simpl;
    destruct (Nat.eqb_spec (p st) lend); try discriminate;
    try (intros [= <-]; reflexivity).
  intros E Hno. bind_inv E.
  pose proof Ha as Hstep.
  apply parse_field_Ok_inv in Ha as (parse & st1 & _ & Hs & _ & Hw).
  apply store_field_other_column in Hs.
  - apply IH in E; [congruence|].
    intros st_w Hsteps. apply Hno. econstructor; eauto.
  - apply Hno; [constructor|assumption].
Qed.

(** The field in the weight column decides [weight] at the end of the
    line: it is the value parsed where that field starts. *)
Lemma weight_field_decides fuel lend st0 st st_w parse :
  strtonum = Some parse ->
  (p st0 <= lend)%nat ->
  parse_fields fuel lend st0 = Ok st ->
  field_steps lend st0 st_w ->
  p st_w ≠ lend ->
  column_role (column_index st_w) = WeightColumn ->
  row_weight st = real_of_DType (parse (drop (p st_w) mem)).1.
Proof.
  intros Hparse Hp E Hsteps Hne Hrole.
  destruct (field_steps_parse_fields _ _ _ Hsteps _ _ E) as [fuel' E'].
  apply field_steps_column_index in Hsteps as [Hpw _]; [|exact Hp].
  destruct fuel' as [|fuel']; simpl in E';
    destruct (Nat.eqb_spec (p st_w) lend); try contradiction; try discriminate.
  bind_inv E'.
  pose proof (parse_field_frame _ _ _ Ha Hpw) as (Hp' & Hc' & _).
  apply parse_field_Ok_inv in Ha as (parse' & st1 & Hparse' & Hs & _ & Hw).
  rewrite Hparse in Hparse'. injection Hparse' as <-.
  rewrite (store_field_weight_column _ _ _ Hrole) in Hs. injection Hs as <-.
  apply column_role_weight in Hrole.
  apply parse_fields_past_weight in E'; [|lia|lia].
  rewrite E', Hw. reflexivity.
Qed.

Lemma filter_not_NaN_length (ws : list real_t) :
  (length (List.filter (fun w => negb (isnan w)) ws) <= length ws)%nat /\
  (existsb isnan ws = true ->
   (length (List.filter (fun w => negb (isnan w)) ws) < length ws)%nat) /\
  (existsb (fun w => negb (isnan w)) ws = true ->
   (0 < length (List.filter (fun w => negb (isnan w)) ws))%nat).
Proof.
  induction ws as [|w ws (IH1 & IH2 & IH3)]; simpl.
  - repeat split; [lia|discriminate|discriminate].
  - destruct (isnan w); simpl; repeat split; try lia.
    + intros H. apply IH3 in H. lia.
    + intros H. apply IH2 in H. lia.
Qed.

(** Rows with a NaN weight and rows with another weight in one block:
    the check of line 198 fails. *)
Lemma mixed_weights_fatal lbegin :
  (0 <? label_count param_)%nat = true ->
  skip_leading_newlines mem 0%nat = Ok lbegin ->
  is_Ok (parse_lines (length mem) (Clear (label_count param_)) lbegin) = true ->
  existsb isnan
    (row_weights (length mem) (Clear (label_count param_)) lbegin) = true ->
  existsb (fun w => negb (isnan w))
    (row_weights (length mem) (Clear (label_count param_)) lbegin) = true ->
  ParseBlock = Fatal CheckWeightSize.
Proof.
  intros Hlc Hskip Hok Hnan Hval. unfold ParseBlock. rewrite Hskip. simpl.
  destruct (parse_lines _ _ lbegin) as [o| | | |] eqn:E; try discriminate.
  simpl. apply parse_lines_frame in E as (El & Eo & Ew & Ec & _).
  simpl in El, Eo, Ew, Ec.
  set (ws := row_weights _ _ _) in *.
  destruct (filter_not_NaN_length ws) as (_ & H1 & H2).
  specialize (H1 Hnan). specialize (H2 Hval).
  apply Nat.ltb_lt in Hlc.
  unfold final_checks. rewrite Ec, El, Eo, Ew.
  destruct (Nat.ltb_spec 0 (label_count param_)); [|lia]. simpl.
  rewrite Nat.mul_comm, Nat.Div0.mod_mul, Nat.div_mul by lia. simpl.
  destruct (Nat.eqb_spec (length ws + 1) (S (length ws))); [|lia]. simpl.
  destruct (Nat.eqb_spec (length (List.filter (fun w => negb (isnan w)) ws)) 0);
    [lia|].
  destruct (Nat.eqb_spec (length (List.filter (fun w => negb (isnan w)) ws) + 1)
              (S (length ws))); [lia|].
  reflexivity.
Qed.

(** C10. Under [real_t], in a row that has a field in the weight column,
    the value [w] parsed at that field is appended to [weight] when the
    row is closed if and only if it is not NaN; a NaN there leaves [weight]
    as a row without a weight field does. A block in which the weight is
    NaN at the end of one row and not NaN at the end of another fails the
    check of line 198. *)
Theorem weight_appended_unless_NaN :
  (forall parse (o : RowBlockContainer DType) lbegin lend st lbegin' st_w,
     strtonum = Some parse ->
     find_line_end (drop (S lbegin) mem) (S lbegin) = Ok lend ->
     scan_line o lbegin = Ok (st, lbegin') ->
     field_steps lend (row_start o lbegin) st_w ->
     p st_w ≠ lend ->
     column_role (column_index st_w) = WeightColumn ->
     parse_line_at o lbegin = Ok (close_row st, lbegin') /\
     weight (close_row st) =
       if isnan (real_of_DType (parse (drop (p st_w) mem)).1)
       then weight o
       else weight o ++ [real_of_DType (parse (drop (p st_w) mem)).1]) /\
  (forall (o : RowBlockContainer DType) lbegin lend st lbegin',
     find_line_end (drop (S lbegin) mem) (S lbegin) = Ok lend ->
     scan_line o lbegin = Ok (st, lbegin') ->
     (forall st_w, field_steps lend (row_start o lbegin) st_w -> p st_w ≠ lend ->
                   column_role (column_index st_w) ≠ WeightColumn) ->
     parse_line_at o lbegin = Ok (close_row st, lbegin') /\
     weight (close_row st) = weight o) /\
  (forall lbegin,
     (0 <? label_count param_)%nat = true ->
     skip_leading_newlines mem 0%nat = Ok lbegin ->
     is_Ok (parse_lines (length mem) (Clear (label_count param_)) lbegin) = true ->
     existsb isnan
       (row_weights (length mem) (Clear (label_count param_)) lbegin) = true ->
     existsb (fun w => negb (isnan w))
       (row_weights (length mem) (Clear (label_count param_)) lbegin) = true ->
     ParseBlock = Fatal CheckWeightSize).
Proof.
  split; [|split].
  - intros parse o lbegin lend st lbegin' st_w Hparse Hend Hscan Hsteps Hne Hrole.
    split; [unfold parse_line_at; rewrite Hscan; reflexivity|].
    pose proof (scan_line_frame _ _ _ _ Hscan) as (_ & _ & _ & _ & Hw & _).
    unfold scan_line in Hscan. rewrite Hend in Hscan. simpl in Hscan.
    bind_inv Hscan. bind_inv Hscan. injection Hscan as <- <-.
    apply find_line_end_bounds in Hend as [Hle _].
    assert (Hp : (p (row_start o lbegin) <= lend)%nat) by (simpl; lia).
    rewrite <- (weight_field_decides _ _ _ _ _ _ Hparse Hp Ha Hsteps Hne Hrole).
    unfold close_row. simpl. rewrite Hw.
    destruct (isnan (row_weight a)); reflexivity.
  - intros o lbegin lend st lbegin' Hend Hscan Hno.
    split; [unfold parse_line_at; rewrite Hscan; reflexivity|].
    pose proof (scan_line_frame _ _ _ _ Hscan) as (_ & _ & _ & _ & Hw & _).
    unfold scan_line in Hscan. rewrite Hend in Hscan. simpl in Hscan.
    bind_inv Hscan. bind_inv Hscan. injection Hscan as <- <-.
    apply parse_fields_no_weight_field in Ha; [|exact Hno].
    unfold close_row. simpl. rewrite Ha, Hw. reflexivity.
  - exact mixed_weights_fatal.
Qed.

End Properties.

(** ** The weight column has no effect under the integer types *)

Section WeightColumnIgnored.

Context {DType : Type} {ops : DTypeOps DType}.
Variable I : IndexType.
Variable param_ : CSVParserParam.
Variable mem : list char.
Variable end_ : nat.
Variable w : Z.

Hypothesis not_real_t : is_same_real_t = false.

Lemma store_field_any_weight_column v consumed (st : row_state) :
  store_field I (with_weight_column w param_) v consumed st =
  store_field I param_ v consumed st.
Proof.
  unfold store_field. simpl. rewrite not_real_t. reflexivity.
Qed.

Lemma parse_field_any_weight_column lend (st : row_state) :
  parse_field I (with_weight_column w param_) mem lend st =
  parse_field I param_ mem lend st.
Proof.
  unfold parse_field. destruct strtonum as [parse|]; [|reflexivity].
  destruct (parse (drop (p st) mem)) as [v consumed].
  rewrite store_field_any_weight_column. reflexivity.
Qed.

Lemma parse_fields_any_weight_column fuel lend (st : row_state) :
  parse_fields I (with_weight_column w param_) mem fuel lend st =
  parse_fields I param_ mem fuel lend st.
Proof.
  revert st. induction fuel as [|fuel IH]; intros st; simpl; [reflexivity|].
  rewrite parse_field_any_weight_column.
  destruct (p st =? lend)%nat; [reflexivity|].
  destruct (parse_field I param_ mem lend st); simpl; auto.
Qed.

Lemma parse_line_any_weight_column (o : RowBlockContainer DType) lbegin :
  parse_line I (with_weight_column w param_) mem end_ o lbegin =
  parse_line I param_ mem end_ o lbegin.
Proof.
  unfold parse_line, parse_line_at, scan_line.
  destruct (find_line_end _ _ _); simpl; try reflexivity.
  rewrite parse_fields_any_weight_column. reflexivity.
Qed.

Lemma parse_lines_any_weight_column fuel (o : RowBlockContainer DType) lbegin :
  parse_lines I (with_weight_column w param_) mem end_ fuel o lbegin =
  parse_lines I param_ mem end_ fuel o lbegin.
Proof.
  revert o lbegin. induction fuel as [|fuel IH]; intros o lbegin; simpl;
    [reflexivity|].
  rewrite parse_line_any_weight_column.
  destruct (lbegin =? end_)%nat; [reflexivity|].
  destruct (parse_line I param_ mem end_ o lbegin) as [[o' lb']| | | |]; simpl;
    auto.
Qed.

Lemma ParseBlock_any_weight_column :
  ParseBlock I (with_weight_column w param_) mem end_ =
  ParseBlock I param_ mem end_.
Proof.
  unfold ParseBlock. destruct (skip_leading_newlines _ _ _); simpl; try reflexivity.
  rewrite parse_lines_any_weight_column. reflexivity.
Qed.

End WeightColumnIgnored.

(** ** Reads at [end] *)

(** When nothing can be read at [end], the line loop returns only when it
    has no line to parse: every line that is parsed to its end makes the
    loops of lines 177 and 186 read [*end]. *)
Lemma parse_lines_Ok_at_end {DType : Type} {ops : DTypeOps DType}
    I param_ mem fuel (o o' : RowBlockContainer DType) lbegin :
  parse_lines I param_ mem (length mem) fuel o lbegin = Ok o' ->
  lbegin = length mem /\ o' = o.
Proof.
  revert o lbegin. induction fuel as [|fuel IH]; intros o lbegin; simpl;
    destruct (Nat.eqb_spec lbegin (length mem)); try discriminate;
    try (intros [= <-]; auto).
  intros E. bind_inv E. destruct a as [o1 lb1].
  apply parse_line_at_Ok in Ha as (st & Hs & _).
  apply scan_line_frame in Hs as (Hlb & _).
  apply IH in E as [-> _]. lia.
Qed.

Lemma ParseBlock_Ok_at_end {DType : Type} {ops : DTypeOps DType}
    I param_ mem (o : RowBlockContainer DType) :
  ParseBlock I param_ mem (length mem) = Ok o ->
  o = Clear (label_count param_).
Proof.
  intros E. apply ParseBlock_Ok in E as (lbegin & _ & Hl & _).
  apply parse_lines_Ok_at_end in Hl as [_ ->]. reflexivity.
Qed.

(** * The claims on concrete blocks

    Unless a lemma says otherwise, the memory of an example is the block
    followed by one NUL character, and [end_] is the length of the block:
    the loops of lines 177 and 186 read the byte at [end]. *)

(** C1: a block whose only line is "5", with no label column and no weight
    column. The line has no delimiter and [ParseBlock] returns a row with
    one feature. *)
Lemma single_feature_line_accepted :
  forallb (fun c => negb (c =? ",")%char) (text "5") = true /\
  ParseBlock (ops := real_t_ops) uint32_t (constructed "" "," (-1))
    (text "5" ++ [LF; NUL]) 2 =
  Ok {| offset := [0; 1]%nat; label := [S754_zero false]; weight := [];
        index := [0]; value := [f32 5]; out_label_count := 1 |}.
Proof. split; vm_compute; reflexivity. Qed.

Lemma line_without_delimiter_witness :
  strtonum (DType := real_t) = Some strtof /\
  find_line_end 2 (drop 1 (text "5" ++ [LF; NUL])) 1 = Ok 1%nat /\
  (1 <? length (text "5" ++ [LF; NUL]))%nat = true /\
  forallb (fun c => negb (c =? delimiter0 (constructed "0" "," (-1)))%char)
          (take (1 - 0) (drop 0 (text "5" ++ [LF; NUL]))) = true /\
  parse_line_at (ops := real_t_ops) uint32_t (constructed "0" "," (-1))
    (text "5" ++ [LF; NUL]) 2 (Clear 1) 0 = Fatal DelimiterNotFound.
Proof.
  refine (conj eq_refl (conj eq_refl (conj eq_refl (conj eq_refl _)))).
  exact (line_without_delimiter (ops := real_t_ops) uint32_t
           (constructed "0" "," (-1)) (text "5" ++ [LF; NUL]) 2 strtof
           (Clear 1) 0 1 eq_refl eq_refl eq_refl eq_refl eq_refl).
Defined.

(** C2: the line "1,2" when columns 0 and 1 are label columns. The first
    field ends at a delimiter; the check fires on the second field. *)
Lemma delimiter_check_fires_after_delimiter :
  find_delimiter (constructed "0,1" "," (-1)) 3
    (drop 1 (text "1,2" ++ [LF; NUL])) 1 = Ok 1%nat /\
  parse_field (ops := real_t_ops) uint32_t (constructed "0,1" "," (-1))
    (text "1,2" ++ [LF; NUL]) 3
    (row_start (constructed "0,1" "," (-1)) (Clear 2) 0) =
  Ok {| p := 2; column_index := 1; idx := 0;
        row_label := [f32 1; S754_zero false]; row_weight := quiet_NaN;
        out := Clear 2 |} /\
  parse_field (ops := real_t_ops) uint32_t (constructed "0,1" "," (-1))
    (text "1,2" ++ [LF; NUL]) 3
    {| p := 2; column_index := 1; idx := 0;
       row_label := [f32 1; S754_zero false]; row_weight := quiet_NaN;
       out := Clear 2 |} = Fatal DelimiterNotFound /\
  ParseBlock (ops := real_t_ops) uint32_t (constructed "0,1" "," (-1))
    (text "1,2" ++ [LF; NUL]) 4 = Fatal DelimiterNotFound.
Proof. repeat split; vm_compute; reflexivity. Qed.

Lemma delimiter_check_after_feature_witness :
  ((2 <=? 3)%nat = true /\ (0 <? 1) = true /\
   (1 + Z.of_nat (3 - 2) <? index_modulus uint32_t) = true /\
   parse_fields (ops := real_t_ops) uint32_t (constructed "" "," (-1))
     (text "1,2" ++ [LF; NUL]) 3 3
     {| p := 2; column_index := 1; idx := 1;
        row_label := [S754_zero false]; row_weight := quiet_NaN;
        out := {| offset := [0%nat]; label := []; weight := []; index := [0];
                  value := [f32 1]; out_label_count := 1 |} |}
   ≠ Fatal DelimiterNotFound) /\
  parse_field (ops := real_t_ops) uint32_t (constructed "0,1" "," (-1))
    (text "1,2" ++ [LF; NUL]) 3
    {| p := 2; column_index := 1; idx := 0;
       row_label := [f32 1; S754_zero false]; row_weight := quiet_NaN;
       out := Clear 2 |} = Fatal DelimiterNotFound.
Proof.
  split.
  - refine (conj eq_refl (conj eq_refl (conj eq_refl _))).
    exact (proj1 (delimiter_check_after_feature (ops := real_t_ops) uint32_t
                    (constructed "" "," (-1)) (text "1,2" ++ [LF; NUL]))
             3%nat 3%nat
             {| p := 2; column_index := 1; idx := 1;
                row_label := [S754_zero false]; row_weight := quiet_NaN;
                out := {| offset := [0%nat]; label := []; weight := [];
                          index := [0]; value := [f32 1];
                          out_label_count := 1 |} |}
             eq_refl eq_refl eq_refl).
  - exact (proj2 (delimiter_check_after_feature (ops := real_t_ops) uint32_t
                    (constructed "0,1" "," (-1)) (text "1,2" ++ [LF; NUL]))
             strtof 3%nat
             {| p := 2; column_index := 1; idx := 0;
                row_label := [f32 1; S754_zero false]; row_weight := quiet_NaN;
                out := Clear 2 |}
             eq_refl eq_refl eq_refl eq_refl eq_refl eq_refl eq_refl).
Defined.

Lemma ParseBlock_invariants_witness :
  ParseBlock (ops := real_t_ops) uint32_t (constructed "" "," (-1))
    (text "1,,3" ++ [LF; NUL]) 5 =
  Ok {| offset := [0; 2]%nat; label := [S754_zero false]; weight := [];
        index := [0; 2]; value := [f32 1; f32 3]; out_label_count := 1 |} /\
  length (label (DType := real_t)
            {| offset := [0; 2]%nat; label := [S754_zero false]; weight := [];
               index := [0; 2]; value := [f32 1; f32 3];
               out_label_count := 1 |}) = (1 * (2 - 1))%nat /\
  (0 = 0 \/ 0 = 2 - 1)%nat /\ 2%nat = 2%nat.
Proof.
  refine (conj eq_refl _).
  exact (ParseBlock_invariants (ops := real_t_ops) uint32_t
           (constructed "" "," (-1)) (text "1,,3" ++ [LF; NUL]) 5
           {| offset := [0; 2]%nat; label := [S754_zero false]; weight := [];
              index := [0; 2]; value := [f32 1; f32 3];
              out_label_count := 1 |} eq_refl).
Defined.

(** C4: an entry that is a sign without digits passes the test of line 52
    and makes [std::stoi] throw; so does an entry too large for [int]. The
    exception leaves [ExtractLabelColumnIndices] and the constructor. *)
Theorem sign_only_entry_throws :
  ExtractLabelColumnIndices (init_param "-" "," (-1)) = Throw invalid_argument /\
  CSVParser_init (init_param "0,+,1" "," (-1)) = Throw invalid_argument /\
  ExtractLabelColumnIndices (init_param "1,2147483648" "," (-1))
    = Throw out_of_range.
Proof. repeat split; vm_compute; reflexivity. Qed.

(** C5: a block whose second line starts with the mark. [ParseBlock]
    skips it and reads 3 and 4 on that line; if the mark were looked for on
    the first line only, the first field of the second line would be empty
    and only 4 would be stored. *)
Lemma BOM_on_second_line_is_skipped :
  ParseBlock (ops := int64_t_ops) uint32_t (constructed "" "," (-1))
    (text "1,2" ++ [LF] ++ UTF8BOM ++ text "3,4" ++ [LF; NUL]) 11 =
  Ok {| offset := [0; 2; 4]%nat; label := [0; 0]; weight := [];
        index := [0; 1; 0; 1]; value := [1; 2; 3; 4]; out_label_count := 1 |} /\
  ParseBlock_BOM_first_line_only (ops := int64_t_ops) uint32_t
    (constructed "" "," (-1))
    (text "1,2" ++ [LF] ++ UTF8BOM ++ text "3,4" ++ [LF; NUL]) 11 =
  Ok {| offset := [0; 2; 3]%nat; label := [0; 0]; weight := [];
        index := [0; 1; 1]; value := [1; 2; 4]; out_label_count := 1 |} /\
  ParseBlock (ops := int64_t_ops) uint32_t (constructed "" "," (-1))
    (text "1,2" ++ [LF] ++ UTF8BOM ++ text "3,4" ++ [LF; NUL]) 11 ≠
  ParseBlock_BOM_first_line_only (ops := int64_t_ops) uint32_t
    (constructed "" "," (-1))
    (text "1,2" ++ [LF] ++ UTF8BOM ++ text "3,4" ++ [LF; NUL]) 11.
Proof. repeat split; vm_compute; try reflexivity. discriminate. Qed.

Lemma BOM_skipped_on_every_line_witness :
  (4 + 3 <=? 11)%nat = true /\
  take 3 (drop 4 (text "1,2" ++ [LF] ++ UTF8BOM ++ text "3,4" ++ [LF; NUL]))
    = UTF8BOM /\
  parse_lines (ops := int64_t_ops) uint32_t (constructed "" "," (-1))
    (text "1,2" ++ [LF] ++ UTF8BOM ++ text "3,4" ++ [LF; NUL]) 11 2
    {| offset := [0; 2]%nat; label := [0]; weight := [];
       index := [0; 1]; value := [1; 2]; out_label_count := 1 |} 4 =
  ('(o', lbegin') ←
     parse_line_at (ops := int64_t_ops) uint32_t (constructed "" "," (-1))
       (text "1,2" ++ [LF] ++ UTF8BOM ++ text "3,4" ++ [LF; NUL]) 11
       {| offset := [0; 2]%nat; label := [0]; weight := [];
          index := [0; 1]; value := [1; 2]; out_label_count := 1 |} (4 + 3);
   parse_lines (ops := int64_t_ops) uint32_t (constructed "" "," (-1))
     (text "1,2" ++ [LF] ++ UTF8BOM ++ text "3,4" ++ [LF; NUL]) 11 1 o' lbegin').
Proof.
  refine (conj eq_refl (conj eq_refl _)).
  exact (BOM_skipped_on_every_line (ops := int64_t_ops) uint32_t
           (constructed "" "," (-1))
           (text "1,2" ++ [LF] ++ UTF8BOM ++ text "3,4" ++ [LF; NUL]) 11 1
           {| offset := [0; 2]%nat; label := [0]; weight := [];
              index := [0; 1]; value := [1; 2]; out_label_count := 1 |} 4
           eq_refl eq_refl).
Defined.

(** C6. The label columns "2,0,2,-1,abc,0": the entries are read in the
    order of the list; column 2 is accepted first, as label slot 0, then
    column 0, as label slot 1; the second 2, the -1, the abc and the second
    0 are ignored with a warning each; [label_count] is 2. *)
Theorem label_column_example :
  getline_all "2,0,2,-1,abc,0" "" false = ["2"; "0"; "2"; "-1"; "abc"; "0"]%string /\
  extract_elements {| indices := ∅; output_index := 0; warnings := [] |}
    ["2"%string] =
  Ok {| indices := <[2 := 0%nat]> ∅; output_index := 1; warnings := [] |} /\
  extract_elements {| indices := ∅; output_index := 0; warnings := [] |}
    ["2"; "0"]%string =
  Ok {| indices := <[0 := 1%nat]> (<[2 := 0%nat]> ∅); output_index := 2;
        warnings := [] |} /\
  ExtractLabelColumnIndices (init_param "2,0,2,-1,abc,0" "," (-1)) =
  Ok ({| format := "csv"; label_column := "2,0,2,-1,abc,0"; delimiter := ",";
         weight_column := -1;
         label_column_indices := <[0 := 1%nat]> (<[2 := 0%nat]> ∅);
         label_count := 2 |},
      [IgnoringDuplicate 2; IgnoringNegative (-1); IgnoringNonNumeric "abc";
       IgnoringDuplicate 0]).
Proof. repeat split; vm_compute; reflexivity. Qed.

(** C7. A field of a feature column of which the numeric parse consumed
    no character adds nothing to [index] and [value], and [idx] is
    incremented. The block "1,,3" with a newline, under [real_t] with no
    label column and no weight column, gives the values 1 and 3 at the
    indices 0 and 2, in one row of two stored features. *)
Theorem empty_feature_field :
  (forall (DType : Type) (ops : DTypeOps DType) I param v (st : row_state),
     column_role param (column_index st) = FeatureColumn ->
     store_field I param v 0 st =
       Ok {| p := p st; column_index := column_index st;
             idx := idx_incr I (idx st);
             row_label := row_label st; row_weight := row_weight st;
             out := out st |}) /\
  (forall I,
     ParseBlock (ops := real_t_ops) I (constructed "" "," (-1))
       (text "1,,3" ++ [LF; NUL]) 5 =
     Ok {| offset := [0; 2]%nat; label := [S754_zero false]; weight := [];
           index := [0; 2]; value := [f32 1; f32 3]; out_label_count := 1 |}).
Proof.
  split.
  - intros DType ops I param v st. apply store_field_empty_feature.
  - intros []; vm_compute; reflexivity.
Qed.

Lemma empty_feature_field_witness :
  column_role (ops := real_t_ops) (constructed "" "," (-1)) 1 = FeatureColumn /\
  store_field (ops := real_t_ops) uint32_t (constructed "" "," (-1))
    (S754_zero false) 0
    {| p := 2; column_index := 1; idx := 1;
       row_label := [S754_zero false]; row_weight := quiet_NaN;
       out := {| offset := [0%nat]; label := []; weight := []; index := [0];
                 value := [f32 1]; out_label_count := 1 |} |} =
  Ok {| p := 2; column_index := 1; idx := idx_incr uint32_t 1;
        row_label := [S754_zero false]; row_weight := quiet_NaN;
        out := {| offset := [0%nat]; label := []; weight := []; index := [0];
                  value := [f32 1]; out_label_count := 1 |} |}.
Proof.
  refine (conj eq_refl _).
  exact (proj1 empty_feature_field real_t real_t_ops uint32_t
           (constructed "" "," (-1)) (S754_zero false)
           {| p := 2; column_index := 1; idx := 1;
              row_label := [S754_zero false]; row_weight := quiet_NaN;
              out := {| offset := [0%nat]; label := []; weight := [];
                        index := [0]; value := [f32 1];
                        out_label_count := 1 |} |} eq_refl).
Defined.

(** C8. Under [int32_t] and [int64_t] nothing is ever appended to
    [weight], the block is parsed as with any other [weight_column], and a
    column that is not a label column is a feature column, the weight
    column included. Under [real_t] the column [weight_column], when it is
    not a label column, is the weight column, and its value is stored as
    the weight of the row. *)
Theorem weight_column_only_under_real_t :
  (forall I param mem end_,
     (forall o, ParseBlock (ops := int32_t_ops) I param mem end_ = Ok o ->
                weight o = []) /\
     (forall w, ParseBlock (ops := int32_t_ops) I (with_weight_column w param)
                  mem end_ =
                ParseBlock (ops := int32_t_ops) I param mem end_) /\
     (forall column, label_column_indices param !! column = None ->
                     column_role (ops := int32_t_ops) param column
                     = FeatureColumn)) /\
  (forall I param mem end_,
     (forall o, ParseBlock (ops := int64_t_ops) I param mem end_ = Ok o ->
                weight o = []) /\
     (forall w, ParseBlock (ops := int64_t_ops) I (with_weight_column w param)
                  mem end_ =
                ParseBlock (ops := int64_t_ops) I param mem end_) /\
     (forall column, label_column_indices param !! column = None ->
                     column_role (ops := int64_t_ops) param column
                     = FeatureColumn)) /\
  (forall I param v consumed (st : row_state),
     label_column_indices param !! column_index st = None ->
     column_index st = weight_column param ->
     column_role (ops := real_t_ops) param (column_index st) = WeightColumn /\
     store_field (ops := real_t_ops) I param v consumed st =
       Ok {| p := p st; column_index := column_index st; idx := idx st;
             row_label := row_label st; row_weight := v; out := out st |}).
Proof.
  split; [|split].
  - intros I param mem end_. split; [|split].
    + intros o. apply (ParseBlock_no_weight (ops := int32_t_ops)). reflexivity.
    + intros w. apply (ParseBlock_any_weight_column (ops := int32_t_ops)).
      reflexivity.
    + intros column H. unfold column_role. rewrite H. reflexivity.
  - intros I param mem end_. split; [|split].
    + intros o. apply (ParseBlock_no_weight (ops := int64_t_ops)). reflexivity.
    + intros w. apply (ParseBlock_any_weight_column (ops := int64_t_ops)).
      reflexivity.
    + intros column H. unfold column_role. rewrite H. reflexivity.
  - intros I param v consumed st Hl Hw.
    assert (Hrole : column_role (ops := real_t_ops) param (column_index st)
                    = WeightColumn).
    { unfold column_role. rewrite Hl, Hw, Z.eqb_refl. reflexivity. }
    split; [exact Hrole|].
    rewrite (store_field_weight_column I param v consumed st Hrole).
    reflexivity.
Qed.

Lemma weight_column_only_under_real_t_witness :
  ParseBlock (ops := int32_t_ops) uint32_t (constructed "0" "," 1)
    (text "1,2,3" ++ [LF] ++ text "4,5,6" ++ [LF; NUL]) 12 =
  Ok {| offset := [0; 2; 4]%nat; label := [1; 4]; weight := [];
        index := [0; 1; 0; 1]; value := [2; 3; 5; 6]; out_label_count := 1 |} /\
  weight (DType := int32_t)
    {| offset := [0; 2; 4]%nat; label := [1; 4]; weight := [];
       index := [0; 1; 0; 1]; value := [2; 3; 5; 6]; out_label_count := 1 |} = [].
Proof.
  refine (conj eq_refl _).
  exact (proj1 (proj1 weight_column_only_under_real_t uint32_t
                  (constructed "0" "," 1)
                  (text "1,2,3" ++ [LF] ++ text "4,5,6" ++ [LF; NUL]) 12%nat)
           {| offset := [0; 2; 4]%nat; label := [1; 4]; weight := [];
              index := [0; 1; 0; 1]; value := [2; 3; 5; 6];
              out_label_count := 1 |} eq_refl).
Defined.

(** C9. On the block "1,2" of three bytes, with nothing readable at
    [end], the loop of line 177 reads the byte at [end]; on "1,2" with a
    newline, the loop of line 186 does. In general, when nothing can be
    read at [end], [ParseBlock] returns only for a block that has no line. *)
Theorem ParseBlock_reads_at_end :
  ParseBlock (ops := int64_t_ops) uint32_t (constructed "" "," (-1))
    (text "1,2") 3 = Undefined (ReadDelimiterScan 3) /\
  ParseBlock (ops := int64_t_ops) uint32_t (constructed "" "," (-1))
    (text "1,2" ++ [LF]) 4 = Undefined (ReadNewlineRun 4) /\
  (forall (DType : Type) (ops : DTypeOps DType) I param mem
          (o : RowBlockContainer DType),
     ParseBlock I param mem (length mem) = Ok o ->
     o = Clear (label_count param)).
Proof.
  split; [vm_compute; reflexivity|].
  split; [vm_compute; reflexivity|].
  intros DType ops I param mem o. apply ParseBlock_Ok_at_end.
Qed.

Lemma ParseBlock_reads_at_end_witness :
  ParseBlock (ops := int64_t_ops) uint32_t (constructed "" "," (-1))
    [LF; CR] (length [LF; CR]) = Ok (Clear 1) /\
  Clear (DType := int64_t) 1 = Clear (label_count (constructed "" "," (-1))).
Proof.
  refine (conj eq_refl _).
  exact (proj2 (proj2 ParseBlock_reads_at_end) int64_t int64_t_ops uint32_t
           (constructed "" "," (-1)) [LF; CR] (Clear 1) eq_refl).
Defined.

(** C10 on blocks whose column 0 is the weight column: the row "7,2"
    gets the weight 7; with the rows "nan,1" and "2,3" the block fails the
    check of line 198. *)
Lemma weight_appended_unless_NaN_witness :
  (parse_line_at (ops := real_t_ops) uint32_t (constructed "" "," 0)
     (text "7,2" ++ [LF; NUL]) 4 (Clear 1) 0 =
   Ok (close_row
         {| p := 3; column_index := 2; idx := 1;
            row_label := [S754_zero false]; row_weight := f32 7;
            out := {| offset := [0%nat]; label := []; weight := [];
                      index := [0]; value := [f32 2];
                      out_label_count := 1 |} |}, 4%nat) /\
   weight (close_row
         {| p := 3; column_index := 2; idx := 1;
            row_label := [S754_zero false]; row_weight := f32 7;
            out := {| offset := [0%nat]; label := []; weight := [];
                      index := [0]; value := [f32 2];
                      out_label_count := 1 |} |}) = [f32 7]) /\
  ParseBlock (ops := real_t_ops) uint32_t (constructed "" "," 0)
    (text "nan,1" ++ [LF] ++ text "2,3" ++ [LF; NUL]) 10
  = Fatal CheckWeightSize.
Proof.
  split.
  - exact (proj1 (weight_appended_unless_NaN (ops := real_t_ops) uint32_t
                    (constructed "" "," 0) (text "7,2" ++ [LF; NUL]) 4%nat)
             strtof (Clear 1) 0%nat 3%nat
             {| p := 3; column_index := 2; idx := 1;
                row_label := [S754_zero false]; row_weight := f32 7;
                out := {| offset := [0%nat]; label := []; weight := [];
                          index := [0]; value := [f32 2];
                          out_label_count := 1 |} |}
             4%nat (row_start (constructed "" "," 0) (Clear 1) 0)
             eq_refl eq_refl eq_refl (field_steps_refl _ _ _ _ _)
             (O_S 2) eq_refl).
  - exact (proj2 (proj2 (weight_appended_unless_NaN (ops := real_t_ops) uint32_t
                    (constructed "" "," 0)
                    (text "nan,1" ++ [LF] ++ text "2,3" ++ [LF; NUL]) 10%nat))
             0%nat eq_refl eq_refl eq_refl eq_refl eq_refl).
Defined.

(** * Further properties *)

(** ** The column-role map that the constructor builds *)

Lemma stoi_range element v next :
  stoi element = Ok (v, next) -> INT_MIN <= v <= INT_MAX.
Proof.
  unfold stoi. destruct (skip_space element) as [s1 nspace].
  destruct (stoi_sign s1) as [[negative s2] nsign].
  destruct (decimal_digits s2 0) as [magnitude ndigits].
  destruct (ndigits =? 0)%nat; [discriminate|]. cbv zeta.
  match goal with
  | |- context [if ?b then Throw out_of_range else _] => destruct b eqn:Hb
  end; [discriminate|].
  intros [= <- <-]. apply orb_false_iff in Hb as [H1 H2].
  apply Z.ltb_ge in H1. apply Z.ltb_ge in H2. lia.
Qed.

Lemma slots_wf_empty ws :
  slots_wf {| indices := ∅; output_index := 0; warnings := ws |}.
Proof.
  unfold slots_wf. simpl. split; [reflexivity|]. split; [|split].
  - intros k slot H. rewrite lookup_empty in H. discriminate.
  - intros k1 k2 slot H. rewrite lookup_empty in H. discriminate.
  - intros slot H. lia.
Qed.

(** An entry keeps the map well formed, and it is accepted or gets one
    warning. *)
Lemma extract_element_wf st element st' :
  slots_wf st ->
  extract_element st element = Ok st' ->
  slots_wf st' /\
  (output_index st' + length (warnings st') =
   S (output_index st + length (warnings st)))%nat.
Proof.
  intros (Hsize & Hslot & Hinj & Hdense).
  assert (Hwarn : forall w, slots_wf (warn w st) /\
            (output_index (warn w st) + length (warnings (warn w st)) =
             S (output_index st + length (warnings st)))%nat).
  { intros w. split; [unfold slots_wf; simpl; auto|].
    simpl. rewrite length_app. simpl. lia. }
  unfold extract_element. destruct (string_front element) as [front|];
    [|intros [= <-]; apply Hwarn].
  destruct (isdigit front || (front =? "-")%char || (front =? "+")%char);
    [|intros [= <-]; apply Hwarn].
  destruct (stoi element) as [[input_index next]| | | |] eqn:Hs; simpl;
    try discriminate.
  apply stoi_range in Hs.
  destruct (next =? String.length element)%nat.
  2:{ destruct (String.get next element); [|discriminate].
      intros [= <-]; apply Hwarn. }
  destruct (Z.leb_spec 0 input_index); [|intros [= <-]; apply Hwarn].
  destruct (indices st !! input_index) eqn:Hl; [intros [= <-]; apply Hwarn|].
  intros [= <-]. simpl. split; [|lia].
  unfold slots_wf. simpl. split; [|split; [|split]].
  - rewrite map_size_insert_None by exact Hl. congruence.
  - intros k slot H0.
    destruct (decide (input_index = k)) as [->|Hne].
    + rewrite lookup_insert_eq in H0. injection H0 as <-. lia.
    + rewrite lookup_insert_ne in H0 by exact Hne.
      apply Hslot in H0. lia.
  - intros k1 k2 slot H1 H2.
    destruct (decide (input_index = k1)) as [<-|Hne1];
      destruct (decide (input_index = k2)) as [<-|Hne2]; try reflexivity.
    + rewrite lookup_insert_eq in H1. injection H1 as <-.
      rewrite lookup_insert_ne in H2 by exact Hne2. apply Hslot in H2. lia.
    + rewrite lookup_insert_eq in H2. injection H2 as <-.
      rewrite lookup_insert_ne in H1 by exact Hne1. apply Hslot in H1. lia.
    + rewrite lookup_insert_ne in H1 by exact Hne1.
      rewrite lookup_insert_ne in H2 by exact Hne2. eauto.
  - intros slot Hlt.
    destruct (decide (slot = output_index st)) as [->|Hne].
    + exists input_index. apply lookup_insert_eq.
    + destruct (Hdense slot) as [k Hk]; [lia|]. exists k.
      rewrite lookup_insert_ne; [exact Hk|]. intros ->. congruence.
Qed.

Lemma extract_elements_wf elements st st' :
  slots_wf st ->
  extract_elements st elements = Ok st' ->
  slots_wf st' /\
  (output_index st' + length (warnings st') =
   output_index st + length (warnings st) + length elements)%nat.
Proof.
  revert st. induction elements as [|element rest IH]; intros st Hwf; simpl.
  - intros [= <-]. split; [exact Hwf|lia].
  - intros E. bind_inv E.
    apply extract_element_wf in Ha as [Hwf' Hn]; [|exact Hwf].
    apply IH in E as [Hwf'' Hn']; [|exact Hwf']. split; [exact Hwf''|lia].
Qed.

Lemma ExtractLabelColumnIndices_Ok param param' ws :
  label_column_indices param = ∅ ->
  ExtractLabelColumnIndices param = Ok (param', ws) ->
  exists st,
    slots_wf st /\
    label_column_indices param' = indices st /\ warnings st = ws /\
    label_count param' = Nat.max 1 (output_index st) /\
    weight_column param' = weight_column param /\
    format param' = format param /\
    (output_index st + length ws =
     length (getline_all (label_column param) EmptyString false))%nat.
Proof.
  intros Hempty. unfold ExtractLabelColumnIndices. rewrite Hempty.
  intros E. bind_inv E. injection E as <- <-. exists a.
  assert (Hwf : slots_wf a /\
            (output_index a + length (warnings a) =
             length (getline_all (label_column param) EmptyString false))%nat).
  { destruct (label_column param) as [|c s] eqn:Hlc; simpl in Ha.
    - injection Ha as <-. split; [apply slots_wf_empty|reflexivity].
    - apply extract_elements_wf in Ha as [Hwf Hn]; [|apply slots_wf_empty].
      split; [exact Hwf|]. simpl in Hn. exact Hn. }
  destruct Hwf as [Hwf Hn]. pose proof Hwf as (Hsize & _).
  split; [exact Hwf|]. split; [reflexivity|]. split; [reflexivity|].
  split; [|auto].
  cbn [label_count]. rewrite Hsize.
  destruct (Nat.ltb_spec 1 (output_index a)); lia.
Qed.

(** X1. The map that [ExtractLabelColumnIndices] builds sends columns that
    are non-negative values of [int] to the label slots 0, 1, ... below its
    size, each slot to one column and every such slot to some column;
    [label_count] is that size, or 1 when the map is empty. *)
Theorem label_slots_dense_injective param param' ws :
  label_column_indices param = ∅ ->
  ExtractLabelColumnIndices param = Ok (param', ws) ->
  label_count param' = Nat.max 1 (size (label_column_indices param')) /\
  (forall k slot, label_column_indices param' !! k = Some slot ->
                  (slot < size (label_column_indices param'))%nat /\
                  0 <= k <= INT_MAX) /\
  (forall k1 k2 slot, label_column_indices param' !! k1 = Some slot ->
                      label_column_indices param' !! k2 = Some slot ->
                      k1 = k2) /\
  (forall slot, (slot < size (label_column_indices param'))%nat ->
                exists k, label_column_indices param' !! k = Some slot).
Proof.
  intros Hempty E.
  destruct (ExtractLabelColumnIndices_Ok _ _ _ Hempty E)
    as (st & (Hsize & Hslot & Hinj & Hdense) & -> & _ & Hlc & _).
  rewrite Hsize. auto.
Qed.

(** X2. Every entry of the list is accounted for: when
    [ExtractLabelColumnIndices] returns, the columns in the map and the
    warnings logged are together as many as the entries of [label_column]. *)
Theorem every_entry_accepted_or_warned param param' ws :
  label_column_indices param = ∅ ->
  ExtractLabelColumnIndices param = Ok (param', ws) ->
  (size (label_column_indices param') + length ws =
   length (getline_all (label_column param) EmptyString false))%nat.
Proof.
  intros Hempty E.
  destruct (ExtractLabelColumnIndices_Ok _ _ _ Hempty E)
    as (st & (Hsize & _) & -> & _ & _ & _ & _ & Hn).
  rewrite Hsize. exact Hn.
Qed.

(** X3. Without a weight column (a negative [weight_column], as the
    default -1) and with the format "csv", the two checks of the
    constructor cannot fail: no label column is negative. The constructor
    then ends as [ExtractLabelColumnIndices] does. *)
Theorem constructor_without_weight_column param :
  label_column_indices param = ∅ ->
  format param = "csv"%string ->
  weight_column param < 0 ->
  CSVParser_init param = ExtractLabelColumnIndices param.
Proof.
  intros Hempty Hformat Hw. unfold CSVParser_init.
  destruct (ExtractLabelColumnIndices param) as [[param' ws]| | | |] eqn:E;
    try reflexivity.
  destruct (ExtractLabelColumnIndices_Ok _ _ _ Hempty E)
    as (st & (_ & Hslot & _) & Hidx & _ & _ & Hwc & Hf & _).
  simpl. rewrite Hf, Hformat. simpl. rewrite Hidx, Hwc.
  destruct (indices st !! weight_column param) eqn:Hl; [|reflexivity].
  apply Hslot in Hl. lia.
Qed.

(** ** [ParseBlock] on a parser that was constructed *)

Lemma loop_outcome_bind {A B : Type} (m : result A) (k : A -> result B) :
  loop_outcome m ->
  (forall a, m = Ok a -> loop_outcome (k a)) ->
  loop_outcome (m ≫= k).
Proof. destruct m; simpl; auto. Qed.

Section FurtherProperties.

Context {DType : Type} {ops : DTypeOps DType}.
Variable I : IndexType.
Variable param_ : CSVParserParam.
Variable mem : list char.
Variable end_ : nat.

Local Abbreviation find_line_end := (find_line_end end_).
Local Abbreviation find_delimiter := (find_delimiter param_).
Local Abbreviation skip_newline_run := (skip_newline_run end_).
Local Abbreviation skip_leading_newlines := (skip_leading_newlines end_).
Local Abbreviation IgnoreUTF8BOM := (IgnoreUTF8BOM mem end_).
Local Abbreviation store_field := (store_field I param_).
Local Abbreviation parse_field := (parse_field I param_ mem).
Local Abbreviation parse_fields := (parse_fields I param_ mem).
Local Abbreviation row_start := (row_start param_).
Local Abbreviation scan_line := (scan_line I param_ mem end_).
Local Abbreviation parse_line_at := (parse_line_at I param_ mem end_).
Local Abbreviation parse_line := (parse_line I param_ mem end_).
Local Abbreviation parse_lines := (parse_lines I param_ mem end_).
Local Abbreviation ParseBlock := (ParseBlock I param_ mem end_).
Local Abbreviation column_role := (column_role param_).
Local Abbreviation field_steps := (field_steps I param_ mem).
Local Abbreviation row_weights := (row_weights I param_ mem end_).
Local Abbreviation delimiter0 := (delimiter0 param_).

Lemma find_line_end_outcome s lend : loop_outcome (find_line_end s lend).
Proof.
  revert lend. induction s as [|c s IH]; intros lend; simpl;
    destruct (lend =? end_)%nat; simpl; auto.
  destruct (is_newline c); simpl; auto.
Qed.

Lemma find_delimiter_outcome lend s p0 : loop_outcome (find_delimiter lend s p0).
Proof.
  revert p0. induction s as [|c s IH]; intros p0; simpl; auto.
  destruct (negb (c =? delimiter0)%char && negb (p0 =? lend)%nat); simpl; auto.
Qed.

Lemma skip_newline_run_outcome s lend : loop_outcome (skip_newline_run s lend).
Proof.
  revert lend. induction s as [|c s IH]; intros lend; simpl; auto.
  destruct (is_newline c && negb (lend =? end_)%nat); simpl; auto.
Qed.

Lemma skip_leading_newlines_outcome s lbegin :
  loop_outcome (skip_leading_newlines s lbegin).
Proof.
  revert lbegin. induction s as [|c s IH]; intros lbegin; simpl;
    destruct (lbegin =? end_)%nat; simpl; auto.
  destruct (is_newline c); simpl; auto.
Qed.

Section SlotsInside.

Hypothesis slots_inside :
  forall k slot, label_column_indices param_ !! k = Some slot ->
                 (slot < label_count param_)%nat.

Lemma store_field_slots_inside v consumed st :
  length (row_label st) = label_count param_ ->
  exists st1, store_field v consumed st = Ok st1.
Proof.
  intros Hl. unfold store_field.
  destruct (label_column_indices param_ !! column_index st) as [slot|] eqn:E.
  - apply slots_inside in E. rewrite Hl.
    destruct (Nat.ltb_spec slot (label_count param_)); [eauto|lia].
  - destruct (is_same_real_t && (column_index st =? weight_column param_)); eauto.
    destruct (negb (consumed =? 0)%nat); eauto.
Qed.

Lemma parse_field_outcome lend st :
  length (row_label st) = label_count param_ ->
  loop_outcome (parse_field lend st).
Proof.
  intros Hl. unfold parse_field. destruct strtonum as [parse|]; simpl; auto.
  destruct (parse (drop (p st) mem)) as [v consumed].
  destruct (store_field_slots_inside v consumed st Hl) as [st1 ->]. simpl.
  destruct (column_index st1 =? INT_MAX); simpl; auto.
  apply loop_outcome_bind; [apply find_delimiter_outcome|].
  intros p2 _. destruct ((p2 =? lend)%nat && (idx st1 =? 0)); simpl; auto.
Qed.

Lemma parse_fields_outcome fuel lend st :
  (p st <= lend)%nat ->
  length (row_label st) = label_count param_ ->
  loop_outcome (parse_fields fuel lend st).
Proof.
  revert st. induction fuel as [|fuel IH]; intros st Hp Hl; simpl;
    destruct (Nat.eqb_spec (p st) lend); simpl; auto.
  apply loop_outcome_bind; [apply parse_field_outcome; exact Hl|].
  intros st' E. apply parse_field_frame in E as (Hp' & _ & Hl' & _); [|exact Hp].
  apply IH; [lia|congruence].
Qed.

Lemma scan_line_outcome (o : RowBlockContainer DType) lbegin :
  loop_outcome (scan_line o lbegin).
Proof.
  unfold scan_line. apply loop_outcome_bind; [apply find_line_end_outcome|].
  intros lend E. apply find_line_end_bounds in E as [Hle _].
  apply loop_outcome_bind.
  - apply parse_fields_outcome; simpl; [lia|apply length_replicate].
  - intros st _. apply loop_outcome_bind; [apply skip_newline_run_outcome|].
    intros lbegin' _. exact Logic.I.
Qed.

Lemma parse_lines_outcome fuel (o : RowBlockContainer DType) lbegin :
  loop_outcome (parse_lines fuel o lbegin).
Proof.
  revert o lbegin. induction fuel as [|fuel IH]; intros o lbegin; simpl;
    destruct (lbegin =? end_)%nat; simpl; auto.
  apply loop_outcome_bind.
  - unfold parse_line, parse_line_at. apply loop_outcome_bind;
      [apply scan_line_outcome|].
    intros [st lb] _. exact Logic.I.
  - intros [o' lb'] _. apply IH.
Qed.

(** With every label slot inside the label vector and a positive
    [label_count], [ParseBlock] returns, or stops at line 158, 179 or 198,
    or reads outside the memory, or overflows [column_index]. *)
Lemma ParseBlock_outcome :
  (0 < label_count param_)%nat -> block_outcome ParseBlock.
Proof.
  intros Hlc. pose proof ParseBlock_total I param_ mem end_ as Htotal.
  unfold ParseBlock in *.
  pose proof (skip_leading_newlines_outcome mem 0%nat) as H1.
  destruct (skip_leading_newlines mem 0%nat) as [lbegin|f|e|u|]; simpl in *.
  2:{ destruct H1 as [->| ->]; auto. }
  2:{ contradiction. }
  2:{ destruct u; auto. }
  2:{ congruence. }
  pose proof (parse_lines_outcome (length mem) (Clear (label_count param_)) lbegin)
    as H2.
  destruct (parse_lines _ _ lbegin) as [o|f|e|u|] eqn:E; simpl in *.
  2:{ destruct H2 as [->| ->]; auto. }
  2:{ contradiction. }
  2:{ destruct u; auto. }
  2:{ congruence. }
  apply parse_lines_frame in E as (El & Eo & _ & Ec & _). simpl in *.
  unfold final_checks. rewrite Ec, El, Eo.
  destruct (Nat.ltb_spec 0 (label_count param_)); [|lia]. simpl.
  rewrite Nat.mul_comm, Nat.Div0.mod_mul, Nat.div_mul by lia. simpl.
  match goal with
  | |- context [(?a + 1 =? S ?a)%nat] =>
      replace (a + 1 =? S a)%nat with true by (symmetry; apply Nat.eqb_eq; lia)
  end. simpl.
  match goal with
  | |- context [if negb ?b then _ else _] => destruct b
  end; simpl; auto.
Qed.

End SlotsInside.

(** ** Termination *)

(** X5. The loops of [ParseBlock] terminate. A field that is parsed
    leaves [p] at the line end or strictly further inside the line; a line
    that is parsed leaves [lbegin] strictly further and inside the memory;
    and the iterations that these bounds allow are enough for [ParseBlock]
    on every input. *)
Theorem ParseBlock_loops_terminate :
  (forall lend st st',
     parse_field lend st = Ok st' -> (p st <= lend)%nat ->
     p st' = lend \/ (p st < p st' <= lend)%nat) /\
  (forall (o : RowBlockContainer DType) lbegin st lbegin',
     scan_line o lbegin = Ok (st, lbegin') ->
     (lbegin < lbegin' < length mem)%nat) /\
  ParseBlock ≠ OutOfFuel.
Proof.
  split; [|split].
  - intros lend st st' E Hp.
    apply parse_field_frame in E as ([[-> _]|H] & _); auto.
  - intros o lbegin st lbegin' E. apply scan_line_frame in E as [H _]. exact H.
  - apply ParseBlock_total.
Qed.

(** ** Blocks without a line *)

Lemma skip_leading_newlines_all n pos :
  (pos + n = end_)%nat -> (end_ <= length mem)%nat ->
  (forall i c, (i < end_)%nat -> mem !! i = Some c -> is_newline c = true) ->
  skip_leading_newlines (drop pos mem) pos = Ok end_.
Proof.
  revert pos. induction n as [|n IH]; intros pos Hn Hle Hnl.
  - assert (pos = end_) as -> by lia.
    destruct (drop end_ mem); simpl; rewrite Nat.eqb_refl; reflexivity.
  - assert (Hp : (pos < length mem)%nat) by lia.
    destruct (lookup_lt_is_Some_2 mem pos Hp) as [c Hc].
    rewrite (drop_S _ _ _ Hc). simpl.
    destruct (Nat.eqb_spec pos end_); [lia|].
    rewrite (Hnl pos c) by (lia || exact Hc). apply IH; [lia|exact Hle|exact Hnl].
Qed.

(** X6. A block that is empty or holds only newline characters gives the
    empty container: [offset] is [0] alone and nothing else is stored. No
    byte at or after [end] is read for it. *)
Theorem ParseBlock_only_newlines :
  (end_ <=? length mem)%nat = true ->
  forallb is_newline (take end_ mem) = true ->
  (0 <? label_count param_)%nat = true ->
  ParseBlock = Ok (Clear (label_count param_)).
Proof.
  intros Hle Hnl Hlc. apply Nat.leb_le in Hle. apply Nat.ltb_lt in Hlc.
  assert (Hskip : skip_leading_newlines mem 0%nat = Ok end_).
  { apply (skip_leading_newlines_all end_ 0%nat); [lia|exact Hle|].
    intros i c Hi Hc. rewrite forallb_forall in Hnl. apply Hnl.
    apply list_elem_of_In, list_elem_of_lookup. exists i.
    rewrite lookup_take_lt by lia. exact Hc. }
  unfold ParseBlock. rewrite Hskip.
  simpl. assert (Hlines : forall fuel (o : RowBlockContainer DType),
                   parse_lines fuel o end_ = Ok o).
  { intros [|fuel] o; simpl; rewrite Nat.eqb_refl; reflexivity. }
  rewrite Hlines. simpl. unfold final_checks, Clear. simpl.
  destruct (Nat.ltb_spec 0 (label_count param_)); [|lia]. simpl.
  rewrite Nat.Div0.mod_0_l, Nat.Div0.div_0_l. reflexivity.
Qed.

(** ** What a field stores *)

(** The state after [store_field], by the role of the column. *)
Lemma store_field_Ok_inv v consumed st st1 :
  store_field v consumed st = Ok st1 ->
  p st1 = p st /\ column_index st1 = column_index st /\
  match column_role (column_index st) with
  | LabelColumn slot =>
      (slot < length (row_label st))%nat /\
      row_label st1 = <[slot := v]> (row_label st) /\
      row_weight st1 = row_weight st /\ idx st1 = idx st /\ out st1 = out st
  | WeightColumn =>
      row_label st1 = row_label st /\ row_weight st1 = real_of_DType v /\
      idx st1 = idx st /\ out st1 = out st
  | FeatureColumn =>
      row_label st1 = row_label st /\ row_weight st1 = row_weight st /\
      idx st1 = idx_incr I (idx st) /\
      offset (out st1) = offset (out st) /\ label (out st1) = label (out st) /\
      weight (out st1) = weight (out st) /\
      ((consumed = 0%nat /\ index (out st1) = index (out st) /\
        value (out st1) = value (out st)) \/
       (consumed ≠ 0%nat /\ index (out st1) = index (out st) ++ [idx st] /\
        value (out st1) = value (out st) ++ [v]))
  end.
Proof.
  unfold store_field, column_role.
  destruct (label_column_indices param_ !! column_index st) as [slot|].
  - destruct (Nat.ltb_spec slot (length (row_label st))); [|discriminate].
    intros [= <-]. simpl. auto 10.
  - destruct (is_same_real_t && (column_index st =? weight_column param_)).
    + intros [= <-]. simpl. auto 10.
    + destruct (Nat.eqb_spec consumed 0); simpl; intros [= <-]; simpl;
        repeat split; auto.
Qed.

(** A field that is parsed: what was stored, and where the cursor and the
    column are. *)
Lemma parse_field_Ok_store lend st st' :
  parse_field lend st = Ok st' ->
  exists parse st1,
    strtonum = Some parse /\
    store_field (parse (drop (p st) mem)).1 (parse (drop (p st) mem)).2 st
      = Ok st1 /\
    column_index st' = column_index st + 1 /\ column_index st ≠ INT_MAX /\
    idx st' = idx st1 /\ row_label st' = row_label st1 /\
    row_weight st' = row_weight st1 /\ out st' = out st1.
Proof.
  unfold parse_field. destruct strtonum as [parse|]; [|discriminate].
  destruct (parse (drop (p st) mem)) as [v consumed] eqn:Hv.
  intros E. bind_inv E. exists parse, a. rewrite Hv. simpl.
  pose proof (store_field_Ok_inv _ _ _ _ Ha) as (_ & Hc & _).
  destruct (Z.eqb_spec (column_index a) INT_MAX); [discriminate|].
  bind_inv E. destruct ((a0 =? lend)%nat && (idx a =? 0)); [discriminate|].
  injection E as <-. simpl. repeat split; auto; congruence.
Qed.

(** ** Row boundaries and feature indices *)

(** The field loop only appends to [index]. *)
Lemma parse_fields_index_prefix fuel lend st st' :
  parse_fields fuel lend st = Ok st' ->
  exists l, index (out st') = index (out st) ++ l.
Proof.
  revert st. induction fuel as [|fuel IH]; intros st; simpl;
    destruct (p st =? lend)%nat; try discriminate;
    try (intros [= <-]; exists []; rewrite app_nil_r; reflexivity).
  intros E. bind_inv E.
  apply parse_field_Ok_store in Ha
    as (parse & st1 & _ & Hs & _ & _ & _ & _ & _ & Ho).
  apply store_field_Ok_inv in Hs as (_ & _ & Hs).
  apply IH in E as [l El]. rewrite El, Ho.
  destruct (column_role (column_index st)).
  - destruct Hs as (_ & _ & _ & _ & ->). eauto.
  - destruct Hs as (_ & _ & _ & ->). eauto.
  - destruct Hs as (_ & _ & _ & _ & _ & _ & [(_ & -> & _)|(_ & -> & _)]).
    + eauto.
    + rewrite <- app_assoc. eauto.
Qed.

Lemma close_row_offsets_wf (st : @row_state DType)
    (o : RowBlockContainer DType) l :
  offsets_wf o ->
  offset (out st) = offset o ->
  index (out st) = index o ++ l ->
  offsets_wf (close_row st).
Proof.
  intros (Hmono & Hle & Hlast) Hoff Hidx. unfold offsets_wf, close_row. simpl.
  rewrite Hoff, Hidx, length_app. split; [|split].
  - intros i a b Ha Hb.
    destruct (decide (S i < length (offset o))%nat) as [Hlt|Hge].
    + rewrite lookup_app_l in Ha by lia. rewrite lookup_app_l in Hb by lia. eauto.
    + assert (Hi : (i < length (offset o))%nat).
      { apply lookup_lt_Some in Hb. rewrite length_app in Hb. simpl in Hb. lia. }
      rewrite lookup_app_l in Ha by lia.
      rewrite Forall_forall in Hle.
      assert (a <= length (index o))%nat
        by (apply Hle, list_elem_of_lookup; eauto).
      rewrite lookup_app_r in Hb by lia.
      replace (S i - length (offset o))%nat with 0%nat in Hb by lia.
      injection Hb as <-. lia.
  - apply Forall_app. split.
    + eapply Forall_impl; [exact Hle|]. simpl. intros a Ha. lia.
    + constructor; [lia|constructor].
  - apply last_snoc.
Qed.

Lemma parse_lines_offsets_wf fuel (o o' : RowBlockContainer DType) lbegin :
  parse_lines fuel o lbegin = Ok o' ->
  offsets_wf o ->
  offsets_wf o' /\ offset o' !! 0%nat = offset o !! 0%nat.
Proof.
  revert o lbegin. induction fuel as [|fuel IH]; intros o lbegin; simpl;
    destruct (lbegin =? end_)%nat; try discriminate;
    try (intros [= <-]; auto).
  intros E Hwf. bind_inv E. destruct a as [o1 lb1].
  apply parse_line_at_Ok in Ha as (st & Hs & ->).
  pose proof (scan_line_frame _ _ _ _ _ _ _ _ Hs) as (_ & _ & Hoff & _).
  unfold scan_line in Hs. bind_inv Hs. bind_inv Hs. bind_inv Hs.
  injection Hs as <- <-.
  apply parse_fields_index_prefix in Ha0 as [l Hl]. simpl in Hl.
  apply IH in E as [Hwf' H0].
  - split; [exact Hwf'|]. rewrite H0. simpl. rewrite Hoff.
    destruct Hwf as (_ & _ & Hlast).
    destruct (offset o) as [|first rest]; [discriminate|reflexivity].
  - eapply close_row_offsets_wf; eauto.
Qed.

(** X7. In the container that [ParseBlock] returns, [offset] starts with
    0, does not decrease, and ends with the length of [index]: consecutive
    entries delimit the features of one row. *)
Theorem ParseBlock_offsets (o : RowBlockContainer DType) :
  ParseBlock = Ok o ->
  offset o !! 0%nat = Some 0%nat /\ offsets_wf o.
Proof.
  intros E. apply ParseBlock_Ok in E as (lbegin & _ & Hl & _).
  apply parse_lines_offsets_wf in Hl as [Hwf H0].
  - split; [exact H0|exact Hwf].
  - unfold offsets_wf, Clear. simpl. split; [|split].
    + intros [|i] a b Ha Hb; discriminate.
    + repeat constructor.
    + reflexivity.
Qed.

Lemma idx_incr_small i :
  0 <= i -> i + 1 < index_modulus I -> idx_incr I i = i + 1.
Proof. intros H0 H1. unfold idx_incr. apply Z.mod_small. lia. Qed.

(** While [idx] does not wrap around, the indices that the field loop
    appends increase strictly, from [idx] on. *)
Lemma parse_fields_indices_sorted fuel lend st st' :
  parse_fields fuel lend st = Ok st' ->
  (p st <= lend)%nat ->
  0 <= idx st ->
  idx st + Z.of_nat (lend - p st) < index_modulus I ->
  exists l, index (out st') = index (out st) ++ l /\
            Forall (fun x => idx st <= x) l /\ StronglySorted Z.lt l.
Proof.
  revert st. induction fuel as [|fuel IH]; intros st; simpl;
    destruct (Nat.eqb_spec (p st) lend); try discriminate;
    try (intros [= <-] _ _ _; exists []; rewrite app_nil_r;
         repeat constructor).
  intros E Hp H0 Hwrap. bind_inv E.
  pose proof (parse_field_frame _ _ _ _ _ _ Ha Hp) as (Hp' & _).
  apply parse_field_Ok_store in Ha
    as (parse & st1 & _ & Hs & _ & _ & Hidx & _ & _ & Ho).
  apply store_field_Ok_inv in Hs as (_ & _ & Hs).
  assert (Hincr : idx_incr I (idx st) = idx st + 1)
    by (apply idx_incr_small; lia).
  assert (Hcases :
    (idx a = idx st \/ idx a = idx st + 1) /\
    (index (out a) = index (out st) \/
     (index (out a) = index (out st) ++ [idx st] /\ idx a = idx st + 1))).
  { rewrite Hidx, Ho. destruct (column_role (column_index st)).
    - destruct Hs as (_ & _ & _ & -> & ->). auto.
    - destruct Hs as (_ & _ & -> & ->). auto.
    - destruct Hs as (_ & _ & -> & _ & _ & _ & [(_ & -> & _)|(_ & -> & _)]);
        rewrite Hincr; auto. }
  destruct Hcases as [Hi Hx].
  apply IH in E as (l & El & Hall & Hsorted); [|lia|lia|lia].
  destruct Hx as [Hx|[Hx Hi']].
  - exists l. rewrite El, Hx. split; [reflexivity|]. split; [|exact Hsorted].
    eapply Forall_impl; [exact Hall|]. simpl. intros x Hxl. lia.
  - exists (idx st :: l). rewrite El, Hx, <- app_assoc. split; [reflexivity|].
    split.
    + constructor; [lia|]. eapply Forall_impl; [exact Hall|].
      simpl. intros x Hxl. lia.
    + constructor; [exact Hsorted|].
      eapply Forall_impl; [exact Hall|]. simpl. intros x Hxl. lia.
Qed.

Lemma row_indices_close_row (st : @row_state DType)
    (o : RowBlockContainer DType) l i :
  offsets_wf o ->
  offset (out st) = offset o ->
  index (out st) = index o ++ l ->
  row_indices (close_row st) i = row_indices o i \/
  row_indices (close_row st) i = l \/
  row_indices (close_row st) i = [].
Proof.
  intros (Hmono & Hle & Hlast) Hoff Hidx. unfold row_indices, close_row. simpl.
  rewrite Hoff, Hidx, length_app.
  destruct (decide (S i < length (offset o))%nat) as [Hlt|Hge].
  - left. rewrite !lookup_app_l by lia.
    destruct (offset o !! i) as [a|] eqn:Ha; [|reflexivity].
    destruct (offset o !! S i) as [b|] eqn:Hb; [|reflexivity].
    rewrite Forall_forall in Hle.
    assert (b <= length (index o))%nat
      by (apply Hle, list_elem_of_lookup; eauto).
    assert (a <= b)%nat by eauto.
    rewrite drop_app_le by lia. rewrite take_app_le; [reflexivity|].
    rewrite length_drop. lia.
  - destruct (decide (S i = length (offset o))) as [Heq|Hne].
    + right. left. rewrite lookup_app_l by lia.
      rewrite last_lookup in Hlast.
      replace (pred (length (offset o))) with i in Hlast by lia.
      rewrite Hlast. rewrite lookup_app_r by lia.
      replace (S i - length (offset o))%nat with 0%nat by lia. simpl.
      rewrite drop_app_length.
      apply take_ge. lia.
    + right. right.
      rewrite (lookup_ge_None_2 _ (S i)) by (rewrite length_app; simpl; lia).
      destruct (_ !! i); reflexivity.
Qed.

Lemma parse_lines_rows_sorted fuel (o o' : RowBlockContainer DType) lbegin :
  Z.of_nat (length mem) < index_modulus I ->
  parse_lines fuel o lbegin = Ok o' ->
  offsets_wf o ->
  (forall i, StronglySorted Z.lt (row_indices o i) /\
             Forall (fun x => 0 <= x) (row_indices o i)) ->
  forall i, StronglySorted Z.lt (row_indices o' i) /\
            Forall (fun x => 0 <= x) (row_indices o' i).
Proof.
  intros Hmem. revert o lbegin. induction fuel as [|fuel IH]; intros o lbegin;
    simpl; destruct (lbegin =? end_)%nat; try discriminate;
    try (intros [= <-]; auto).
  intros E Hwf Hrows. bind_inv E. destruct a as [o1 lb1].
  apply parse_line_at_Ok in Ha as (st & Hs & ->).
  pose proof (scan_line_frame _ _ _ _ _ _ _ _ Hs) as (Hlb & _ & Hoff & _).
  unfold scan_line in Hs. bind_inv Hs. bind_inv Hs. bind_inv Hs.
  injection Hs as <- <-.
  apply find_line_end_bounds in Ha as [Hle _].
  apply skip_newline_run_bounds in Ha1.
  apply parse_fields_indices_sorted in Ha0 as (l & Hl & Hall & Hsorted);
    simpl; try lia.
  simpl in Hl, Hall. eapply IH; [exact E| |].
  - eapply close_row_offsets_wf; eauto.
  - intros i.
    destruct (row_indices_close_row a0 o l i Hwf Hoff Hl) as [->|[->| ->]].
    + apply Hrows.
    + split; [exact Hsorted|exact Hall].
    + split; constructor.
Qed.

(** X8. In the container that [ParseBlock] returns for a block whose
    memory is smaller than the range of [IndexType], the feature indices of
    every row are non-negative and increase strictly. *)
Theorem ParseBlock_row_indices_increase (o : RowBlockContainer DType) i :
  (Z.of_nat (length mem) <? index_modulus I) = true ->
  ParseBlock = Ok o ->
  StronglySorted Z.lt (row_indices o i) /\
  Forall (fun x => 0 <= x) (row_indices o i).
Proof.
  intros Hmem E. apply Z.ltb_lt in Hmem.
  apply ParseBlock_Ok in E as (lbegin & _ & Hl & _).
  eapply parse_lines_rows_sorted; [exact Hmem|exact Hl| |].
  - unfold offsets_wf, Clear. simpl. split; [|split].
    + intros [|j] a b Ha Hb; discriminate.
    + repeat constructor.
    + reflexivity.
  - intros [|j]; split; constructor.
Qed.

(** ** Labels without a label column *)

Lemma parse_fields_row_label_kept fuel lend st st' :
  label_column_indices param_ = ∅ ->
  parse_fields fuel lend st = Ok st' ->
  row_label st' = row_label st /\ label (out st') = label (out st).
Proof.
  intros Hempty. revert st. induction fuel as [|fuel IH]; intros st; simpl;
    destruct (p st =? lend)%nat; try discriminate;
    try (intros [= <-]; auto).
  intros E. bind_inv E.
  apply parse_field_Ok_store in Ha
    as (parse & st1 & _ & Hs & _ & _ & _ & Hl & _ & Ho).
  pose proof (store_field_frame _ _ _ _ _ _ Hs) as (_ & _ & _ & _ & Hla & _).
  apply store_field_Ok_inv in Hs as (_ & _ & Hs).
  unfold column_role in Hs. rewrite Hempty, lookup_empty in Hs.
  apply IH in E as [-> ->]. rewrite Hl, Ho. split; [|exact Hla].
  destruct (is_same_real_t && _); destruct Hs as (-> & _); reflexivity.
Qed.

Lemma parse_lines_labels_zero fuel (o o' : RowBlockContainer DType) lbegin :
  label_column_indices param_ = ∅ ->
  parse_lines fuel o lbegin = Ok o' ->
  label o' =
    label o ++ replicate (label_count param_ * length (row_weights fuel o lbegin))
                 DType_zero.
Proof.
  intros Hempty. revert o lbegin. induction fuel as [|fuel IH]; intros o lbegin;
    simpl; destruct (lbegin =? end_)%nat; try discriminate;
    try (intros [= <-]; rewrite Nat.mul_0_r, app_nil_r; reflexivity).
  intros E. bind_inv E. destruct a as [o1 lb1].
  unfold parse_line in Ha. apply parse_line_at_Ok in Ha as (st & Hs & ->).
  rewrite Hs. apply IH in E. rewrite E. simpl.
  unfold scan_line in Hs. bind_inv Hs. bind_inv Hs. bind_inv Hs.
  injection Hs as <- <-.
  apply parse_fields_row_label_kept in Ha0 as [-> ->]; [|exact Hempty]. simpl.
  rewrite <- app_assoc. f_equal. rewrite <- replicate_add. f_equal. lia.
Qed.

(** X9. When no label column is configured, every label of the container
    that [ParseBlock] returns is [DType(0)]: [label_count] zeros for each
    row. *)
Theorem ParseBlock_labels_zero (o : RowBlockContainer DType) :
  label_column_indices param_ = ∅ ->
  ParseBlock = Ok o ->
  label o =
    replicate (label_count param_ * (length (offset o) - 1)) DType_zero.
Proof.
  intros Hempty E. apply ParseBlock_Ok in E as (lbegin & _ & Hl & _).
  pose proof (parse_lines_frame _ _ _ _ _ _ _ _ Hl) as (_ & Eo & _).
  apply parse_lines_labels_zero in Hl; [|exact Hempty].
  rewrite Hl, Eo. simpl. do 2 f_equal. lia.
Qed.

(** ** A [DType] that is not supported *)

Lemma parse_lines_unsupported fuel (o : RowBlockContainer DType) lbegin lend :
  strtonum = None ->
  (lbegin =? end_)%nat = false ->
  find_line_end (drop (S (IgnoreUTF8BOM lbegin)) mem) (S (IgnoreUTF8BOM lbegin))
    = Ok lend ->
  parse_lines (S fuel) o lbegin = Fatal UnsupportedDType.
Proof.
  intros Hnone Hne Hend. simpl. rewrite Hne.
  unfold parse_line, parse_line_at, scan_line. rewrite Hend. simpl.
  apply find_line_end_bounds in Hend as [Hle _].
  destruct (lend - IgnoreUTF8BOM lbegin)%nat as [|n] eqn:Hn; [lia|]. simpl.
  destruct (Nat.eqb_spec (IgnoreUTF8BOM lbegin) lend); [lia|].
  unfold parse_field. rewrite Hnone. reflexivity.
Qed.

(** X10. With a [DType] other than the three that are supported,
    [ParseBlock] stops at line 158 on the first field of the first line:
    whenever the line loop finds the end of a line it fails there, and
    [ParseBlock] returns only the empty container. *)
Theorem ParseBlock_unsupported_DType :
  strtonum = None ->
  (forall fuel (o : RowBlockContainer DType) lbegin lend,
     (lbegin =? end_)%nat = false ->
     find_line_end (drop (S (IgnoreUTF8BOM lbegin)) mem)
       (S (IgnoreUTF8BOM lbegin)) = Ok lend ->
     parse_lines (S fuel) o lbegin = Fatal UnsupportedDType) /\
  (forall o : RowBlockContainer DType,
     ParseBlock = Ok o -> o = Clear (label_count param_)).
Proof.
  intros Hnone. split.
  - intros fuel o lbegin lend. apply parse_lines_unsupported. exact Hnone.
  - intros o E. apply ParseBlock_Ok in E as (lbegin & _ & Hl & _).
    destruct (length mem) as [|fuel]; simpl in Hl.
    + destruct (lbegin =? end_)%nat; [|discriminate]. congruence.
    + destruct (lbegin =? end_)%nat eqn:Hne; [congruence|].
      unfold parse_line, parse_line_at, scan_line in Hl.
      destruct (find_line_end _ _) as [lend| | | |] eqn:Hend; try discriminate.
      pose proof (parse_lines_unsupported fuel (Clear (label_count param_))
                    lbegin lend Hnone Hne Hend) as Hf.
      simpl in Hf. rewrite Hne in Hf.
      unfold parse_line, parse_line_at, scan_line in Hf. rewrite Hend in Hf.
      simpl in Hl, Hf. rewrite Hf in Hl. discriminate.
Qed.

(** ** The label of a row *)

Lemma store_field_label_slot_kept v consumed st st1 slot :
  store_field v consumed st = Ok st1 ->
  label_column_indices param_ !! column_index st ≠ Some slot ->
  row_label st1 !! slot = row_label st !! slot.
Proof.
  intros Hs Hne. apply store_field_Ok_inv in Hs as (_ & _ & Hs).
  unfold column_role in Hs.
  destruct (label_column_indices param_ !! column_index st) as [slot'|].
  - destruct Hs as (_ & -> & _). apply list_lookup_insert_ne. congruence.
  - destruct (is_same_real_t && _); destruct Hs as (-> & _); reflexivity.
Qed.

(** No field of the line is in a column of label slot [slot]: the slot is
    as it was. *)
Lemma parse_fields_label_slot_kept fuel lend st st' slot :
  parse_fields fuel lend st = Ok st' ->
  (forall st_c, field_steps lend st st_c -> p st_c ≠ lend ->
                label_column_indices param_ !! column_index st_c ≠ Some slot) ->
  row_label st' !! slot = row_label st !! slot.
Proof.
  revert st. induction fuel as [|fuel IH]; intros st; simpl;
    destruct (Nat.eqb_spec (p st) lend); try discriminate;
    try (intros [= <-]; reflexivity).
  intros E Hno. bind_inv E. pose proof Ha as Hstep.
  apply parse_field_Ok_store in Ha
    as (parse & st1 & _ & Hs & _ & _ & _ & Hl & _).
  apply store_field_label_slot_kept with (slot := slot) in Hs.
  - apply IH in E; [rewrite E, Hl; exact Hs|].
    intros st_c Hsteps. apply Hno. econstructor; eauto.
  - apply Hno; [constructor|assumption].
Qed.

(** When the map is injective, the field in a label column decides its
    label slot at the end of the line: it holds the value parsed where that
    field starts. *)
Lemma label_field_decides_slot fuel lend st0 st st_c parse slot :
  (forall k1 k2 s, label_column_indices param_ !! k1 = Some s ->
                   label_column_indices param_ !! k2 = Some s -> k1 = k2) ->
  strtonum = Some parse ->
  (p st0 <= lend)%nat ->
  parse_fields fuel lend st0 = Ok st ->
  field_steps lend st0 st_c ->
  p st_c ≠ lend ->
  label_column_indices param_ !! column_index st_c = Some slot ->
  row_label st !! slot = Some (parse (drop (p st_c) mem)).1.
Proof.
  intros Hinj Hparse Hp E Hsteps Hne Hslot.
  destruct (field_steps_parse_fields _ _ _ _ _ _ Hsteps _ _ E) as [fuel' E'].
  apply field_steps_column_index in Hsteps as [Hpc _]; [|exact Hp].
  destruct fuel' as [|fuel']; simpl in E';
    destruct (Nat.eqb_spec (p st_c) lend); try contradiction; try discriminate.
  bind_inv E'.
  pose proof (parse_field_frame _ _ _ _ _ _ Ha Hpc) as (Hp' & Hc' & _).
  apply parse_field_Ok_store in Ha
    as (parse' & st1 & Hparse' & Hs & _ & _ & _ & Hl & _).
  rewrite Hparse in Hparse'. injection Hparse' as <-.
  apply store_field_Ok_inv in Hs as (_ & _ & Hs).
  unfold column_role in Hs. rewrite Hslot in Hs.
  destruct Hs as (Hlt & Hrl & _).
  rewrite (parse_fields_label_slot_kept _ _ _ _ slot E').
  - rewrite Hl, Hrl. apply list_lookup_insert_eq. exact Hlt.
  - intros st_d Hsteps' Hned Hslot'.
    apply field_steps_column_index in Hsteps' as [_ Hcol]; [|lia].
    assert (column_index st_d = column_index st_c) by eauto.
    destruct Hcol as [->|Hcol]; lia.
Qed.

(** ** The values that are stored *)

Section StoredValues.

Variable P : DType -> Prop.
Hypothesis P_zero : P DType_zero.
Hypothesis P_parse :
  forall parse s, strtonum = Some parse -> P (parse s).1.

Lemma parse_fields_stored fuel lend st st' :
  parse_fields fuel lend st = Ok st' ->
  Forall P (row_label st) -> Forall P (value (out st)) ->
  Forall P (label (out st)) ->
  Forall P (row_label st') /\ Forall P (value (out st')) /\
  Forall P (label (out st')).
Proof.
  revert st. induction fuel as [|fuel IH]; intros st; simpl;
    destruct (p st =? lend)%nat; try discriminate;
    try (intros [= <-]; auto).
  intros E Hrl Hv Hla. bind_inv E.
  apply parse_field_Ok_store in Ha
    as (parse & st1 & Hparse & Hs & _ & _ & _ & Hl & _ & Ho).
  pose proof (P_parse parse (drop (p st) mem) Hparse) as HP.
  pose proof (store_field_frame _ _ _ _ _ _ Hs) as (_ & _ & _ & _ & Hlab & _).
  apply store_field_Ok_inv in Hs as (_ & _ & Hs).
  apply IH in E; [exact E| | |]; rewrite ?Hl, ?Ho.
  - destruct (column_role (column_index st)).
    + destruct Hs as (_ & -> & _). apply Forall_insert; assumption.
    + destruct Hs as (-> & _). exact Hrl.
    + destruct Hs as (-> & _). exact Hrl.
  - destruct (column_role (column_index st)).
    + destruct Hs as (_ & _ & _ & _ & ->). exact Hv.
    + destruct Hs as (_ & _ & _ & ->). exact Hv.
    + destruct Hs as (_ & _ & _ & _ & _ & _ & [(_ & _ & ->)|(_ & _ & ->)]);
        [exact Hv|].
      apply Forall_app. split; [exact Hv|]. constructor; [exact HP|constructor].
  - rewrite Hlab. exact Hla.
Qed.

Lemma parse_lines_stored fuel (o o' : RowBlockContainer DType) lbegin :
  parse_lines fuel o lbegin = Ok o' ->
  Forall P (value o) -> Forall P (label o) ->
  Forall P (value o') /\ Forall P (label o').
Proof.
  revert o lbegin. induction fuel as [|fuel IH]; intros o lbegin; simpl;
    destruct (lbegin =? end_)%nat; try discriminate;
    try (intros [= <-]; auto).
  intros E Hv Hla. bind_inv E. destruct a as [o1 lb1].
  apply parse_line_at_Ok in Ha as (st & Hs & ->).
  unfold scan_line in Hs. bind_inv Hs. bind_inv Hs. bind_inv Hs.
  injection Hs as <- <-.
  apply parse_fields_stored in Ha0 as (Hrl' & Hv' & Hla'); simpl; auto.
  - apply IH in E; [exact E|exact Hv'|].
    simpl. apply Forall_app. auto.
  - apply Forall_replicate. exact P_zero.
Qed.

Lemma ParseBlock_stored (o : RowBlockContainer DType) :
  ParseBlock = Ok o -> Forall P (value o) /\ Forall P (label o).
Proof.
  intros E. apply ParseBlock_Ok in E as (lbegin & _ & Hl & _).
  apply parse_lines_stored in Hl; [exact Hl| |]; constructor.
Qed.

End StoredValues.

(** ** Where a failure of the line loop comes from *)

Lemma failure_bind {A B : Type} (m : result A) (k : A -> result B) e :
  failure_of (m ≫= k) = Some e ->
  failure_of m = Some e \/ exists a, m = Ok a /\ failure_of (k a) = Some e.
Proof. destruct m; simpl; eauto. Qed.

Lemma find_line_end_failure s lend e :
  failure_of (find_line_end s lend) = Some e ->
  exists pos, e = FailUndefined (ReadLineEnd pos).
Proof.
  revert lend. induction s as [|c s IH]; intros lend; simpl;
    destruct (lend =? end_)%nat; simpl; try discriminate.
  - intros [= <-]. eauto.
  - destruct (is_newline c); simpl; [discriminate|apply IH].
Qed.

Lemma skip_newline_run_failure s lend e :
  failure_of (skip_newline_run s lend) = Some e ->
  exists pos, e = FailUndefined (ReadNewlineRun pos).
Proof.
  revert lend. induction s as [|c s IH]; intros lend; simpl.
  - intros [= <-]. eauto.
  - destruct (is_newline c && negb (lend =? end_)%nat); simpl;
      [apply IH|discriminate].
Qed.

Lemma find_delimiter_failure lend s p0 e :
  failure_of (find_delimiter lend s p0) = Some e ->
  exists pos, e = FailUndefined (ReadDelimiterScan pos).
Proof.
  revert p0. induction s as [|c s IH]; intros p0; simpl.
  - intros [= <-]. eauto.
  - destruct (negb (c =? delimiter0)%char && negb (p0 =? lend)%nat); simpl;
      [apply IH|discriminate].
Qed.

Lemma skip_leading_newlines_failure s lbegin e :
  failure_of (skip_leading_newlines s lbegin) = Some e ->
  exists pos, e = FailUndefined (ReadLeadingNewline pos).
Proof.
  revert lbegin. induction s as [|c s IH]; intros lbegin; simpl;
    destruct (lbegin =? end_)%nat; simpl; try discriminate.
  - intros [= <-]. eauto.
  - destruct (is_newline c); simpl; [apply IH|discriminate].
Qed.

(** A failure of the line loop is a read outside the memory by the loops
    of lines 136 and 186, or the failure of the field loop of some line; the
    end of that line is inside the memory when [end] is. *)
Lemma parse_lines_failure fuel (o : RowBlockContainer DType) lbegin e :
  failure_of (parse_lines fuel o lbegin) = Some e ->
  e = FailOutOfFuel \/
  (exists pos, e = FailUndefined (ReadLineEnd pos)) \/
  (exists pos, e = FailUndefined (ReadNewlineRun pos)) \/
  (exists o1 lb1 lend,
      (lb1 < lend)%nat /\ ((end_ <= length mem)%nat -> (lend <= length mem)%nat) /\
      failure_of (parse_fields (lend - lb1) lend (row_start o1 lb1)) = Some e).
Proof.
  revert o lbegin. induction fuel as [|fuel IH]; intros o lbegin; simpl;
    destruct (lbegin =? end_)%nat; simpl; try discriminate.
  - intros [= <-]. auto.
  - intros E. apply failure_bind in E as [E|([o1 lb1] & _ & E)];
      [|apply IH in E; exact E].
    unfold parse_line, parse_line_at in E.
    apply failure_bind in E as [E|([st lb] & _ & E)]; [|discriminate].
    unfold scan_line in E.
    apply failure_bind in E as [E|(lend & Hend & E)].
    { apply find_line_end_failure in E. auto. }
    apply failure_bind in E as [E|(st & _ & E)].
    { right. right. right. exists o, (IgnoreUTF8BOM lbegin), lend.
      apply find_line_end_bounds in Hend as [Hle Hb].
      rewrite length_drop in Hb. split; [lia|]. split; [lia|exact E]. }
    apply failure_bind in E as [E|(lb & _ & E)]; [|discriminate].
    apply skip_newline_run_failure in E. auto.
Qed.

Lemma final_checks_failure (o : RowBlockContainer DType) e :
  failure_of (final_checks o) = Some e ->
  e = FailFatal CheckLabelCountPositive \/ e = FailFatal CheckLabelSizeMultiple \/
  e = FailFatal CheckOffsetSize \/ e = FailFatal CheckWeightSize.
Proof.
  unfold final_checks.
  repeat (match goal with
          | |- context [if ?b then _ else _] => destruct b
          end; simpl; try discriminate; try (intros [= <-]; auto)).
Qed.

(** The same for [ParseBlock], with the failures of lines 131 and 195-198;
    the fuel is enough. *)
Lemma ParseBlock_failure e :
  failure_of ParseBlock = Some e ->
  (exists pos, e = FailUndefined (ReadLeadingNewline pos)) \/
  (exists pos, e = FailUndefined (ReadLineEnd pos)) \/
  (exists pos, e = FailUndefined (ReadNewlineRun pos)) \/
  (e = FailFatal CheckLabelCountPositive \/ e = FailFatal CheckLabelSizeMultiple \/
   e = FailFatal CheckOffsetSize \/ e = FailFatal CheckWeightSize) \/
  (exists (o1 : RowBlockContainer DType) lb1 lend,
      (lb1 < lend)%nat /\ ((end_ <= length mem)%nat -> (lend <= length mem)%nat) /\
      failure_of (parse_fields (lend - lb1) lend (row_start o1 lb1)) = Some e).
Proof.
  intros E. assert (Hfuel : e ≠ FailOutOfFuel).
  { intros ->. pose proof (ParseBlock_total I param_ mem end_) as Ht.
    destruct ParseBlock; simpl in E; try discriminate. congruence. }
  unfold ParseBlock in E.
  apply failure_bind in E as [E|(lbegin & _ & E)].
  { apply skip_leading_newlines_failure in E. auto. }
  apply failure_bind in E as [E|(o & _ & E)].
  - apply parse_lines_failure in E as [E|[E|[E|E]]]; auto 10. contradiction.
  - apply final_checks_failure in E. auto 10.
Qed.

(** ** Failures that a block cannot have *)

Lemma parse_field_failure lend st e :
  failure_of (parse_field lend st) = Some e ->
  e = FailFatal UnsupportedDType \/
  (exists slot, e = FailUndefined (WriteLabelSlot slot)) \/
  (e = FailUndefined ColumnIndexOverflow /\ column_index st = INT_MAX) \/
  (exists pos, e = FailUndefined (ReadDelimiterScan pos)) \/
  (e = FailFatal DelimiterNotFound /\
   exists v consumed st1, store_field v consumed st = Ok st1 /\ idx st1 = 0).
Proof.
  unfold parse_field. destruct strtonum as [parse|]; simpl;
    [|intros [= <-]; auto].
  destruct (parse (drop (p st) mem)) as [v consumed].
  destruct (store_field_outcome I param_ v consumed st) as [[st1 Hs]|[slot Hs]];
    rewrite Hs; simpl; [|intros [= <-]; eauto].
  pose proof (store_field_frame _ _ _ _ _ _ Hs) as (_ & Hc & _).
  destruct (Z.eqb_spec (column_index st1) INT_MAX); simpl.
  { intros [= <-]. right. right. left. split; [reflexivity|congruence]. }
  intros E. apply failure_bind in E as [E|(p2 & _ & E)].
  - right. right. right. left. exact (find_delimiter_failure _ _ _ _ E).
  - destruct (Nat.eqb_spec p2 lend); simpl in E; [|discriminate].
    destruct (Z.eqb_spec (idx st1) 0); simpl in E; [|discriminate].
    injection E as <-. right. right. right. right. eauto 10.
Qed.

Lemma failure_of_Fatal {A : Type} (r : result A) f :
  failure_of r = Some (FailFatal f) -> r = Fatal f.
Proof. destruct r; simpl; intros [= <-] || discriminate. reflexivity. Qed.

Lemma parse_fields_no_overflow fuel lend st :
  (p st <= lend)%nat ->
  column_index st + Z.of_nat (lend - p st) <= INT_MAX ->
  failure_of (parse_fields fuel lend st) ≠ Some (FailUndefined ColumnIndexOverflow).
Proof.
  revert st. induction fuel as [|fuel IH]; intros st Hp Hc; simpl;
    destruct (Nat.eqb_spec (p st) lend); simpl; try discriminate.
  intros E. apply failure_bind in E as [E|(st' & Hs & E)].
  - apply parse_field_failure in E
      as [E|[[slot E]|[[_ E]|[[pos E]|[E _]]]]]; try discriminate. lia.
  - pose proof (parse_field_frame _ _ _ _ _ _ Hs Hp) as (Hp' & Hc' & _).
    revert E. apply IH; lia.
Qed.

(** X14. For a block whose end is inside the memory and whose memory is at
    most [INT_MAX] bytes, [column_index] never overflows: it is at most the
    number of bytes of the line that were consumed. *)
Theorem ParseBlock_no_column_overflow :
  (end_ <=? length mem)%nat = true ->
  (Z.of_nat (length mem) <=? INT_MAX) = true ->
  ParseBlock ≠ Undefined ColumnIndexOverflow.
Proof.
  intros Hend Hmem E. apply Nat.leb_le in Hend. apply Z.leb_le in Hmem.
  assert (Hf : failure_of ParseBlock = Some (FailUndefined ColumnIndexOverflow))
    by (rewrite E; reflexivity).
  apply ParseBlock_failure in Hf
    as [[pos Hf]|[[pos Hf]|[[pos Hf]|[[Hf|[Hf|[Hf|Hf]]]|Hf]]]];
    try discriminate.
  destruct Hf as (o1 & lb1 & lend & Hlt & Hle & Hf). revert Hf.
  apply parse_fields_no_overflow; simpl; [lia|].
  specialize (Hle Hend). lia.
Qed.

Lemma parse_fields_first_feature fuel lend (o : RowBlockContainer DType) lbegin :
  column_role 0 = FeatureColumn ->
  (lbegin < lend)%nat ->
  Z.of_nat (lend - lbegin) < index_modulus I ->
  parse_fields fuel lend (row_start o lbegin) ≠ Fatal DelimiterNotFound.
Proof.
  intros Hrole Hlt Hwrap. destruct fuel as [|fuel]; simpl;
    destruct (Nat.eqb_spec lbegin lend); try discriminate; try lia.
  destruct (parse_field lend (row_start o lbegin)) as [st'|f|e|u|] eqn:E; simpl;
    try discriminate.
  - pose proof (parse_field_frame _ _ _ _ _ _ E) as (Hp' & _); [simpl; lia|].
    simpl in Hp'.
    apply parse_field_Ok_store in E as (parse & st1 & _ & Hs & _ & _ & Hi & _).
    apply store_field_idx in Hs. simpl in Hs. rewrite Hrole in Hs.
    rewrite idx_incr_0 in Hs.
    apply delimiter_check_after_feature_aux; lia.
  - intros [= ->]. apply parse_field_Fatal_inv in E as (parse & st1 & _ & Hs & H0).
    apply store_field_idx in Hs. simpl in Hs. rewrite Hrole in Hs.
    rewrite idx_incr_0 in Hs. lia.
Qed.

(** X13. When column 0 is a feature column, as it is when no label column
    and no weight column are configured, [ParseBlock] never fails with
    "Delimiter is not found", whatever the block holds (its end being
    inside the memory and the memory smaller than the range of
    [IndexType]). *)
Theorem ParseBlock_no_delimiter_error :
  column_role 0 = FeatureColumn ->
  (end_ <=? length mem)%nat = true ->
  (Z.of_nat (length mem) <? index_modulus I) = true ->
  ParseBlock ≠ Fatal DelimiterNotFound.
Proof.
  intros Hrole Hend Hmem E. apply Nat.leb_le in Hend. apply Z.ltb_lt in Hmem.
  assert (Hf : failure_of ParseBlock = Some (FailFatal DelimiterNotFound))
    by (rewrite E; reflexivity).
  apply ParseBlock_failure in Hf
    as [[pos Hf]|[[pos Hf]|[[pos Hf]|[[Hf|[Hf|[Hf|Hf]]]|Hf]]]];
    try discriminate.
  destruct Hf as (o1 & lb1 & lend & Hlt & Hle & Hf).
  apply failure_of_Fatal in Hf. revert Hf.
  apply parse_fields_first_feature; [exact Hrole|exact Hlt|].
  specialize (Hle Hend). lia.
Qed.

End FurtherProperties.

(** ** The constructor and [ParseBlock] together *)

Lemma CSVParser_init_Ok raw param ws :
  CSVParser_init raw = Ok (param, ws) ->
  ExtractLabelColumnIndices raw = Ok (param, ws) /\
  label_column_indices param !! weight_column param = None.
Proof.
  unfold CSVParser_init. intros E. bind_inv E. destruct a as [param' ws'].
  destruct (negb (String.eqb (format param') "csv")); [discriminate|].
  destruct (label_column_indices param' !! weight_column param') eqn:Hl;
    [discriminate|].
  injection E as <- <-. auto.
Qed.

(** X4. For a parser that the constructor accepted, [ParseBlock] never
    writes outside the label vector and never fails the checks of lines
    195 to 197: on every block it returns, or it stops at line 158, 179 or
    198, or it reads outside the memory or overflows [column_index]. *)
Theorem constructed_parser_outcome {DType : Type} {ops : DTypeOps DType}
    I raw param ws mem end_ :
  label_column_indices raw = ∅ ->
  CSVParser_init raw = Ok (param, ws) ->
  block_outcome (ParseBlock I param mem end_).
Proof.
  intros Hempty E. apply CSVParser_init_Ok in E as [E _].
  destruct (ExtractLabelColumnIndices_Ok _ _ _ Hempty E)
    as (st & (_ & Hslot & _) & Hidx & _ & Hlc & _).
  apply ParseBlock_outcome.
  - intros k slot Hk. rewrite Hidx in Hk. apply Hslot in Hk. lia.
  - lia.
Qed.

(** X11. For a parser whose map [ExtractLabelColumnIndices] built, the
    label of a row in a slot is the value parsed at the field of the column
    of that slot: a later field of the line cannot overwrite it, because no
    other column has the slot. *)
Theorem label_field_decides {DType : Type} {ops : DTypeOps DType}
    I raw param ws mem parse fuel lend (st0 st st_c : row_state) slot :
  label_column_indices raw = ∅ ->
  ExtractLabelColumnIndices raw = Ok (param, ws) ->
  strtonum = Some parse ->
  (p st0 <=? lend)%nat = true ->
  parse_fields I param mem fuel lend st0 = Ok st ->
  field_steps I param mem lend st0 st_c ->
  (p st_c =? lend)%nat = false ->
  label_column_indices param !! column_index st_c = Some slot ->
  row_label st !! slot = Some (parse (drop (p st_c) mem)).1.
Proof.
  intros Hempty E Hparse Hp Hfields Hsteps Hne Hslot.
  destruct (ExtractLabelColumnIndices_Ok _ _ _ Hempty E)
    as (est & (_ & _ & Hinj & _) & Hidx & _).
  apply Nat.leb_le in Hp. apply Nat.eqb_neq in Hne.
  eapply label_field_decides_slot; eauto.
  rewrite Hidx. exact Hinj.
Qed.

Lemma cast_int32_range z : - 2 ^ 31 <= cast_int32 z < 2 ^ 31.
Proof.
  unfold cast_int32.
  pose proof (Z.mod_pos_bound (z + 2 ^ 31) (2 ^ 32) eq_refl). lia.
Qed.

(** X12. Under [int32_t], every value and every label of the container
    that [ParseBlock] returns is in the range of [int32_t]: each is 0 or
    went through the cast of line 152. *)
Theorem int32_values_in_range I param mem end_ (o : RowBlockContainer int32_t) :
  ParseBlock (ops := int32_t_ops) I param mem end_ = Ok o ->
  Forall (fun z => - 2 ^ 31 <= z < 2 ^ 31) (value o) /\
  Forall (fun z => - 2 ^ 31 <= z < 2 ^ 31) (label o).
Proof.
  apply (ParseBlock_stored (ops := int32_t_ops)).
  - simpl. lia.
  - intros parse s [= <-]. destruct (strtoll s) as [v n]. simpl.
    apply cast_int32_range.
Qed.

(** ** What [ParseBlock] uses of the parameters *)

Section ParametersUsed.

Context {DType : Type} {ops : DTypeOps DType}.
Variable I : IndexType.
Variables param1 param2 : CSVParserParam.
Variable mem : list char.
Variable end_ : nat.

Hypothesis same_delimiter0 : delimiter0 param1 = delimiter0 param2.
Hypothesis same_indices :
  label_column_indices param1 = label_column_indices param2.
Hypothesis same_weight_column : weight_column param1 = weight_column param2.
Hypothesis same_label_count : label_count param1 = label_count param2.







End ParametersUsed.


(** ** Bytes before the block *)

Section BytesBefore.

Context {DType : Type} {ops : DTypeOps DType}.
Variable I : IndexType.
Variable param_ : CSVParserParam.
Variables pre mem : list char.
Variable end_ : nat.

Local Abbreviation k := (length pre).

Lemma find_line_end_shift s lend :
  find_line_end (k + end_) s (k + lend) =
  shift_result k (fun n => k + n)%nat (find_line_end end_ s lend).
Proof.
  revert lend. induction s as [|c s IH]; intros lend; simpl;
    destruct (Nat.eqb_spec lend end_), (Nat.eqb_spec (k + lend) (k + end_));
    try lia; try reflexivity.
  destruct (is_newline c); [reflexivity|].
  rewrite <- IH. f_equal. lia.
Qed.

Lemma find_delimiter_shift lend s p0 :
  find_delimiter param_ (k + lend) s (k + p0) =
  shift_result k (fun n => k + n)%nat (find_delimiter param_ lend s p0).
Proof.
  revert p0. induction s as [|c s IH]; intros p0; simpl; [reflexivity|].
  destruct (Nat.eqb_spec p0 lend), (Nat.eqb_spec (k + p0) (k + lend));
    try lia; destruct (negb (c =? delimiter0 param_)%char); simpl;
    try reflexivity.
  rewrite <- IH. f_equal. lia.
Qed.

Lemma skip_newline_run_shift s lend :
  skip_newline_run (k + end_) s (k + lend) =
  shift_result k (fun n => k + n)%nat (skip_newline_run end_ s lend).
Proof.
  revert lend. induction s as [|c s IH]; intros lend; simpl; [reflexivity|].
  destruct (Nat.eqb_spec lend end_), (Nat.eqb_spec (k + lend) (k + end_));
    try lia; destruct (is_newline c); simpl; try reflexivity.
  rewrite <- IH. f_equal. lia.
Qed.

Lemma skip_leading_newlines_shift s lbegin :
  skip_leading_newlines (k + end_) s (k + lbegin) =
  shift_result k (fun n => k + n)%nat (skip_leading_newlines end_ s lbegin).
Proof.
  revert lbegin. induction s as [|c s IH]; intros lbegin; simpl;
    destruct (Nat.eqb_spec lbegin end_), (Nat.eqb_spec (k + lbegin) (k + end_));
    try lia; try reflexivity.
  destruct (is_newline c); [|reflexivity].
  rewrite <- IH. f_equal. lia.
Qed.

Lemma IgnoreUTF8BOM_shift lbegin :
  IgnoreUTF8BOM (pre ++ mem) (k + end_) (k + lbegin) =
  (k + IgnoreUTF8BOM mem end_ lbegin)%nat.
Proof.
  unfold IgnoreUTF8BOM. rewrite drop_app_add.
  destruct (Nat.leb_spec (lbegin + 3) end_),
           (Nat.leb_spec (k + lbegin + 3) (k + end_)); try lia; simpl;
    [|reflexivity].
  destruct (bool_decide _); lia.
Qed.

Lemma store_field_shift v consumed (st : row_state) :
  store_field I param_ v consumed (shift_row k st) =
  shift_result k (shift_row k) (store_field I param_ v consumed st).
Proof.
  unfold store_field. simpl.
  destruct (label_column_indices param_ !! column_index st) as [slot|].
  - destruct (slot <? length (row_label st))%nat; reflexivity.
  - destruct (is_same_real_t && _); [reflexivity|].
    destruct (negb (consumed =? 0)%nat); reflexivity.
Qed.

Lemma parse_field_shift lend (st : row_state) :
  parse_field I param_ (pre ++ mem) (k + lend) (shift_row k st) =
  shift_result k (shift_row k) (parse_field I param_ mem lend st).
Proof.
  unfold parse_field. destruct strtonum as [parse|]; [|reflexivity].
  cbn [p shift_row]. rewrite drop_app_add.
  destruct (parse (drop (p st) mem)) as [v consumed].
  rewrite store_field_shift.
  destruct (store_field I param_ v consumed st) as [st1| | | |]; simpl;
    try reflexivity.
  destruct (column_index st1 =? INT_MAX); [reflexivity|].
  replace (if (k + lend <=? k + p st + consumed)%nat
           then (k + lend)%nat else (k + p st + consumed)%nat)
    with (k + (if (lend <=? p st + consumed)%nat
               then lend else (p st + consumed)%nat))%nat.
  2:{ destruct (Nat.leb_spec lend (p st + consumed)),
               (Nat.leb_spec (k + lend) (k + p st + consumed)); lia. }
  rewrite drop_app_add, find_delimiter_shift.
  destruct (find_delimiter param_ lend _ _) as [p2| | | |]; simpl;
    try reflexivity.
  destruct (Nat.eqb_spec p2 lend), (Nat.eqb_spec (k + p2) (k + lend)); try lia;
    simpl.
  - destruct (idx st1 =? 0); reflexivity.
  - unfold shift_row. simpl. do 2 f_equal. lia.
Qed.

Lemma parse_fields_shift fuel lend (st : row_state) :
  parse_fields I param_ (pre ++ mem) fuel (k + lend) (shift_row k st) =
  shift_result k (shift_row k) (parse_fields I param_ mem fuel lend st).
Proof.
  revert st. induction fuel as [|fuel IH]; intros st; simpl;
    destruct (Nat.eqb_spec (p st) lend), (Nat.eqb_spec (k + p st) (k + lend));
    try lia; try reflexivity.
  rewrite parse_field_shift.
  destruct (parse_field I param_ mem lend st); simpl; auto.
Qed.

Lemma scan_line_shift (o : RowBlockContainer DType) lbegin :
  scan_line I param_ (pre ++ mem) (k + end_) o (k + lbegin) =
  shift_result k (fun '(st, lb) => (shift_row k st, (k + lb)%nat))
    (scan_line I param_ mem end_ o lbegin).
Proof.
  unfold scan_line.
  replace (S (k + lbegin)) with (k + S lbegin)%nat by lia.
  rewrite drop_app_add, find_line_end_shift.
  destruct (find_line_end end_ _ _) as [lend| | | |]; simpl; try reflexivity.
  replace (k + lend - (k + lbegin))%nat with (lend - lbegin)%nat by lia.
  change (row_start param_ o (k + lbegin))
    with (shift_row k (row_start param_ o lbegin)).
  rewrite parse_fields_shift.
  destruct (parse_fields I param_ mem _ lend _) as [st| | | |]; simpl;
    try reflexivity.
  rewrite drop_app_add, skip_newline_run_shift.
  destruct (skip_newline_run end_ _ _); reflexivity.
Qed.

Lemma parse_line_shift (o : RowBlockContainer DType) lbegin :
  parse_line I param_ (pre ++ mem) (k + end_) o (k + lbegin) =
  shift_result k (fun '(o', lb) => (o', (k + lb)%nat))
    (parse_line I param_ mem end_ o lbegin).
Proof.
  unfold parse_line, parse_line_at. rewrite IgnoreUTF8BOM_shift, scan_line_shift.
  destruct (scan_line I param_ mem end_ o _) as [[st lb]| | | |]; reflexivity.
Qed.

Lemma parse_lines_shift fuel (o : RowBlockContainer DType) lbegin :
  parse_lines I param_ (pre ++ mem) (k + end_) fuel o (k + lbegin) =
  shift_result k id (parse_lines I param_ mem end_ fuel o lbegin).
Proof.
  revert o lbegin. induction fuel as [|fuel IH]; intros o lbegin; simpl;
    destruct (Nat.eqb_spec lbegin end_), (Nat.eqb_spec (k + lbegin) (k + end_));
    try lia; try reflexivity.
  rewrite parse_line_shift.
  destruct (parse_line I param_ mem end_ o lbegin) as [[o' lb']| | | |]; simpl;
    auto.
Qed.

(** More fuel than the line loop needs changes nothing. *)
Lemma parse_lines_more_fuel fuel n (o : RowBlockContainer DType) lbegin :
  parse_lines I param_ mem end_ fuel o lbegin ≠ OutOfFuel ->
  parse_lines I param_ mem end_ (fuel + n) o lbegin =
  parse_lines I param_ mem end_ fuel o lbegin.
Proof.
  revert o lbegin. induction fuel as [|fuel IH]; intros o lbegin; simpl.
  - destruct n; simpl; destruct (lbegin =? end_)%nat; congruence.
  - destruct (lbegin =? end_)%nat; [reflexivity|].
    destruct (parse_line I param_ mem end_ o lbegin) as [[o' lb']| | | |]; simpl;
      auto.
Qed.

(** Newline characters before the block are skipped by the loop of line
    131. *)
Lemma skip_leading_newlines_prefix s1 pos :
  forallb is_newline s1 = true ->
  (pos + length s1 = k)%nat ->
  skip_leading_newlines (k + end_) (s1 ++ mem) pos =
  skip_leading_newlines (k + end_) mem k.
Proof.
  revert pos. induction s1 as [|c s1 IH]; intros pos Hnl Hpos; simpl in *.
  - replace pos with k by lia. reflexivity.
  - apply andb_true_iff in Hnl as [Hc Hnl]. rewrite Hc.
    destruct (Nat.eqb_spec pos (k + end_)); [lia|].
    apply IH; [exact Hnl|lia].
Qed.

End BytesBefore.

(** X16. Newline characters at the start of a block are ignored: the
    block with a run of [\n] and [\r] before it is parsed as the block
    itself; only the positions of a read outside the memory are further by
    the length of the run. *)
Theorem ParseBlock_leading_newlines {DType : Type} {ops : DTypeOps DType}
    I param_ pre mem end_ :
  forallb is_newline pre = true ->
  ParseBlock I param_ (pre ++ mem) (length pre + end_) =
  shift_result (length pre) id (ParseBlock I param_ mem end_).
Proof.
  intros Hnl. unfold ParseBlock.
  rewrite (skip_leading_newlines_prefix pre mem end_ pre 0%nat Hnl eq_refl).
  replace (length pre) with (length pre + 0)%nat at 2 by lia.
  rewrite skip_leading_newlines_shift.
  destruct (skip_leading_newlines end_ mem 0%nat) as [lbegin| | | |] eqn:E;
    simpl; try reflexivity.
  apply skip_leading_newlines_bounds in E as [_ Hb].
  replace (length (pre ++ mem)) with (length mem + length pre)%nat
    by (rewrite length_app; lia).
  rewrite parse_lines_more_fuel.
  - rewrite parse_lines_shift.
    destruct (parse_lines I param_ mem end_ _ _ lbegin) as [o| | | |];
      try reflexivity.
    simpl. unfold id, final_checks.
    repeat (match goal with
            | |- context [if ?b then _ else _] => destruct b
            end; try reflexivity).
  - rewrite parse_lines_shift.
    pose proof (parse_lines_fuel I param_ mem end_ (length mem)
                  (Clear (label_count param_)) lbegin) as Hf.
    destruct (parse_lines I param_ mem end_ _ _ lbegin); simpl; try discriminate.
    apply Hf. destruct Hb as [->|Hb]; [left; reflexivity|right; lia].
Qed.

(** ** One row for each line *)

Section RowsAndLines.

Context {DType : Type} {ops : DTypeOps DType}.
Variable I : IndexType.
Variable param_ : CSVParserParam.

Lemma find_line_end_line E l rest pos :
  forallb (fun c => negb (is_newline c)) l = true ->
  (pos + length l <= E)%nat ->
  (pos + length l = E)%nat \/
    (exists c rest', rest = c :: rest' /\ is_newline c = true) ->
  find_line_end E (l ++ rest) pos = Ok (pos + length l)%nat.
Proof.
  revert pos. induction l as [|c l IH]; intros pos Hl Hle Hrest; simpl in *.
  - rewrite Nat.add_0_r in *. destruct Hrest as [->|(c & rest' & -> & Hc)].
    + destruct rest; simpl; rewrite Nat.eqb_refl; reflexivity.
    + simpl. rewrite Hc. destruct (pos =? E)%nat; reflexivity.
  - apply andb_true_iff in Hl as [Hc Hl]. apply negb_true_iff in Hc.
    rewrite Hc. destruct (Nat.eqb_spec pos E); [lia|].
    rewrite IH; [f_equal; lia|exact Hl|lia|].
    destruct Hrest as [Hrest|Hrest]; [left; lia|right; exact Hrest].
Qed.

Lemma skip_newline_run_run E nl rest pos r :
  forallb is_newline nl = true ->
  (pos + length nl <= E)%nat ->
  (pos + length nl = E)%nat \/
    (exists c rest', rest = c :: rest' /\ is_newline c = false) ->
  skip_newline_run E (nl ++ rest) pos = Ok r ->
  r = (pos + length nl)%nat.
Proof.
  revert pos. induction nl as [|c nl IH]; intros pos Hnl Hle Hrest; simpl in *.
  - rewrite Nat.add_0_r in *. destruct rest as [|c rest]; simpl; [discriminate|].
    destruct Hrest as [->|(c' & rest' & [= <- <-] & Hc)].
    + rewrite Nat.eqb_refl, andb_false_r. intros [= <-]. reflexivity.
    + rewrite Hc. intros [= <-]. reflexivity.
  - apply andb_true_iff in Hnl as [Hc Hnl]. rewrite Hc.
    destruct (Nat.eqb_spec pos E); [lia|]. simpl.
    intros E'. apply IH in E'; [lia|exact Hnl|lia|].
    destruct Hrest as [Hrest|Hrest]; [left; lia|right; exact Hrest].
Qed.

Lemma is_line_first l :
  is_line l = true ->
  exists c l', l = c :: l' /\ is_newline c = false /\
               forallb (fun c => negb (is_newline c)) l' = true.
Proof.
  unfold is_line. destruct l as [|c l]; simpl; [discriminate|].
  intros H. apply andb_true_iff in H as [H _].
  apply andb_true_iff in H as [Hc Hl]. apply negb_true_iff in Hc. eauto.
Qed.

(** A line does not start with the mark, whatever follows it, when what
    follows starts with a newline character or is the end of the block. *)
Lemma IgnoreUTF8BOM_line pre l rest E :
  is_line l = true ->
  (length pre + length l = E)%nat \/
    (exists c rest', rest = c :: rest' /\ is_newline c = true) ->
  IgnoreUTF8BOM (pre ++ l ++ rest) E (length pre) = length pre.
Proof.
  intros Hl Hrest. unfold IgnoreUTF8BOM.
  destruct (Nat.leb_spec (length pre + 3) E); simpl; [|reflexivity].
  rewrite drop_app_length. unfold is_line in Hl.
  apply andb_true_iff in Hl as [_ Hbom]. apply negb_true_iff in Hbom.
  apply bool_decide_eq_false in Hbom.
  destruct (bool_decide_reflect (take 3 (l ++ rest) = UTF8BOM)) as [Heq|];
    [|reflexivity].
  exfalso. destruct Hrest as [Hrest|(c & rest' & -> & Hc)].
  - apply Hbom. rewrite take_app_le in Heq by lia. exact Heq.
  - destruct l as [|c1 [|c2 [|c3 l]]]; simpl in *.
    + injection Heq; intros; subst; discriminate.
    + injection Heq; intros; subst; discriminate.
    + injection Heq; intros; subst; discriminate.
    + apply Hbom. exact Heq.
Qed.

Lemma join_lines_cons l nl ls :
  join_lines ((l, nl) :: ls) = l ++ nl ++ join_lines ls.
Proof. unfold join_lines. simpl. rewrite <- app_assoc. reflexivity. Qed.

Lemma parse_lines_unfold mem end_ fuel (o : RowBlockContainer DType) lbegin :
  parse_lines I param_ mem end_ fuel o lbegin =
  if (lbegin =? end_)%nat then Ok o
  else match fuel with
       | O => OutOfFuel
       | S fuel' =>
           '(o', lbegin') ← parse_line I param_ mem end_ o lbegin;
           parse_lines I param_ mem end_ fuel' o' lbegin'
       end.
Proof. destruct fuel; reflexivity. Qed.

(** The line loop closes one row for each line. *)
Lemma parse_lines_rows ls pre tail fuel (o o' : RowBlockContainer DType) :
  lines_wf ls = true ->
  parse_lines I param_ (pre ++ join_lines ls ++ tail)
    (length pre + length (join_lines ls)) fuel o (length pre) = Ok o' ->
  length (offset o') = (length (offset o) + length ls)%nat.
Proof.
  revert pre fuel o. induction ls as [|[l nl] ls IH]; intros pre fuel o Hwf E.
  - rewrite parse_lines_unfold in E. simpl in E. rewrite Nat.add_0_r in E.
    rewrite Nat.eqb_refl in E. injection E as <-. simpl. lia.
  - simpl in Hwf. apply andb_true_iff in Hwf as [Hwf Hls].
    apply andb_true_iff in Hwf as [Hwf Hlast].
    apply andb_true_iff in Hwf as [Hl Hnl].
    destruct (is_line_first l Hl) as (c0 & l' & Hleq & Hc0 & Hl').
    rewrite join_lines_cons in E.
    set (rest := join_lines ls ++ tail) in *.
    assert (Hmem : pre ++ (l ++ nl ++ join_lines ls) ++ tail
                   = pre ++ l ++ nl ++ rest).
    { subst rest. rewrite <- !app_assoc. reflexivity. }
    rewrite Hmem in E.
    assert (HE0 : (length pre + length (l ++ nl ++ join_lines ls))%nat
                  = (length pre + length l + length nl
                     + length (join_lines ls))%nat).
    { rewrite !length_app. lia. }
    rewrite HE0 in E.
    set (E0 := (length pre + length l + length nl
                + length (join_lines ls))%nat) in *.
    assert (Hlen : length l = S (length l')) by (rewrite Hleq; reflexivity).
    assert (Hnext : (length nl = 0%nat /\ ls = []) \/
                    exists c r, nl ++ rest = c :: r /\ is_newline c = true).
    { destruct nl as [|c nl]; simpl in *.
      - left. destruct ls; [auto|discriminate].
      - right. apply andb_true_iff in Hnl as [Hc _]. eauto. }
    assert (Hstop : (length pre + length l = E0)%nat \/
                    exists c r, nl ++ rest = c :: r /\ is_newline c = true).
    { destruct Hnext as [[H0 ->]|Hn]; [left|right; exact Hn].
      subst E0. unfold join_lines. simpl. lia. }
    rewrite parse_lines_unfold in E.
    destruct (Nat.eqb_spec (length pre) E0); [subst E0; lia|].
    destruct fuel as [|fuel]; [discriminate|].
    bind_inv E. destruct a as [o1 lb1]. unfold parse_line in Ha.
    rewrite (IgnoreUTF8BOM_line pre l (nl ++ rest) E0 Hl Hstop) in Ha.
    apply parse_line_at_Ok in Ha as (st & Hs & ->).
    pose proof (scan_line_frame _ _ _ _ _ _ _ _ Hs) as (_ & _ & Hoff & _).
    unfold scan_line in Hs.
    replace (S (length pre)) with (length pre + 1)%nat in Hs by lia.
    rewrite drop_app_add in Hs. rewrite Hleq in Hs at 1.
    change (drop 1 ((c0 :: l') ++ nl ++ rest)) with (l' ++ nl ++ rest) in Hs.
    rewrite (find_line_end_line E0 l' (nl ++ rest) (length pre + 1)) in Hs;
      [|exact Hl'|subst E0; lia|].
    2:{ destruct Hstop as [Hstop|Hstop]; [left; lia|right; exact Hstop]. }
    simpl in Hs. bind_inv Hs. bind_inv Hs. injection Hs as <- <-.
    replace (pre ++ l ++ nl ++ rest) with ((pre ++ l) ++ nl ++ rest) in Ha0
      by (rewrite <- app_assoc; reflexivity).
    rewrite drop_app_length' in Ha0 by (rewrite length_app; lia).
    apply skip_newline_run_run in Ha0.
    + subst a0.
      replace (pre ++ l ++ nl ++ rest)
        with ((pre ++ l ++ nl) ++ join_lines ls ++ tail) in E
        by (subst rest; rewrite <- !app_assoc; reflexivity).
      replace (length pre + 1 + length l' + length nl)%nat
        with (length (pre ++ l ++ nl)) in E
        by (rewrite !length_app; lia).
      replace E0 with (length (pre ++ l ++ nl)
                       + length (join_lines ls))%nat in E
        by (subst E0; rewrite !length_app; lia).
      apply IH in E; [|exact Hls]. rewrite E. simpl.
      rewrite Hoff, length_app. simpl. lia.
    + exact Hnl.
    + subst E0. lia.
    + destruct ls as [|[l2 nl2] ls2].
      * left. subst E0. unfold join_lines. simpl. lia.
      * right. simpl in Hls. apply andb_true_iff in Hls as [Hls _].
        apply andb_true_iff in Hls as [Hls _].
        apply andb_true_iff in Hls as [Hl2 _].
        destruct (is_line_first l2 Hl2) as (c2 & l2' & -> & Hc2 & _).
        subst rest. rewrite join_lines_cons. simpl. eauto.
Qed.

End RowsAndLines.

(** X17. One row for each line: when the block is a run of newline
    characters followed by lines, each line not empty, free of newline
    characters, not starting with the byte-order mark, and followed by a run
    of newline characters that is not empty, except possibly after the last
    line, then the container that [ParseBlock] returns has as many rows as
    the block has lines. *)
Theorem ParseBlock_one_row_per_line {DType : Type} {ops : DTypeOps DType}
    I param_ pre ls tail (o : RowBlockContainer DType) :
  forallb is_newline pre = true ->
  lines_wf ls = true ->
  ParseBlock I param_ (pre ++ join_lines ls ++ tail)
    (length pre + length (join_lines ls)) = Ok o ->
  length (offset o) = S (length ls).
Proof.
  intros Hpre Hwf E. apply ParseBlock_Ok in E as (lbegin & Hskip & Hl & _).
  rewrite (skip_leading_newlines_prefix pre (join_lines ls ++ tail)
             (length (join_lines ls)) pre 0%nat Hpre eq_refl) in Hskip.
  assert (lbegin = length pre) as ->.
  { destruct ls as [|[l nl] ls].
    - simpl in Hskip. rewrite Nat.add_0_r in Hskip.
      destruct tail; simpl in Hskip; rewrite Nat.eqb_refl in Hskip; congruence.
    - simpl in Hwf. apply andb_true_iff in Hwf as [Hwf _].
      apply andb_true_iff in Hwf as [Hwf _].
      apply andb_true_iff in Hwf as [Hline _].
      destruct (is_line_first l Hline) as (c0 & l' & -> & Hc0 & _).
      unfold join_lines in Hskip. simpl in Hskip. rewrite Hc0 in Hskip.
      destruct (_ =? _)%nat; congruence. }
  apply parse_lines_rows in Hl; [|exact Hwf]. rewrite Hl. reflexivity.
Qed.

(** * The further properties on concrete inputs *)

Lemma label_slots_dense_injective_witness :
  label_column_indices (init_param "2,0,2" "," (-1)) = ∅ /\
  ExtractLabelColumnIndices (init_param "2,0,2" "," (-1))
    = Ok (param_2_0, [IgnoringDuplicate 2]) /\
  label_count param_2_0 = Nat.max 1 (size (label_column_indices param_2_0)) /\
  (forall k slot, label_column_indices param_2_0 !! k = Some slot ->
                  (slot < size (label_column_indices param_2_0))%nat /\
                  0 <= k <= INT_MAX) /\
  (forall k1 k2 slot, label_column_indices param_2_0 !! k1 = Some slot ->
                      label_column_indices param_2_0 !! k2 = Some slot ->
                      k1 = k2) /\
  (forall slot, (slot < size (label_column_indices param_2_0))%nat ->
                exists k, label_column_indices param_2_0 !! k = Some slot).
Proof.
  refine (conj eq_refl (conj eq_refl _)).
  exact (label_slots_dense_injective (init_param "2,0,2" "," (-1)) param_2_0
           [IgnoringDuplicate 2] eq_refl eq_refl).
Defined.

Lemma every_entry_accepted_or_warned_witness :
  label_column_indices (init_param "2,0,2" "," (-1)) = ∅ /\
  ExtractLabelColumnIndices (init_param "2,0,2" "," (-1))
    = Ok (param_2_0, [IgnoringDuplicate 2]) /\
  (size (label_column_indices param_2_0) + length [IgnoringDuplicate 2] =
   length (getline_all (label_column (init_param "2,0,2" "," (-1)))
             EmptyString false))%nat.
Proof.
  refine (conj eq_refl (conj eq_refl _)).
  exact (every_entry_accepted_or_warned (init_param "2,0,2" "," (-1)) param_2_0
           [IgnoringDuplicate 2] eq_refl eq_refl).
Defined.

Lemma constructor_without_weight_column_witness :
  label_column_indices (init_param "2,0,2" "," (-1)) = ∅ /\
  format (init_param "2,0,2" "," (-1)) = "csv"%string /\
  weight_column (init_param "2,0,2" "," (-1)) < 0 /\
  CSVParser_init (init_param "2,0,2" "," (-1)) =
  ExtractLabelColumnIndices (init_param "2,0,2" "," (-1)).
Proof.
  refine (conj eq_refl (conj eq_refl (conj eq_refl _))).
  exact (constructor_without_weight_column (init_param "2,0,2" "," (-1))
           eq_refl eq_refl eq_refl).
Defined.

Lemma constructed_parser_outcome_witness :
  label_column_indices (init_param "2,0,2" "," (-1)) = ∅ /\
  CSVParser_init (init_param "2,0,2" "," (-1))
    = Ok (param_2_0, [IgnoringDuplicate 2]) /\
  block_outcome (ParseBlock (ops := real_t_ops) uint32_t param_2_0 block_1_3 5).
Proof.
  refine (conj eq_refl (conj eq_refl _)).
  exact (constructed_parser_outcome (ops := real_t_ops) uint32_t
           (init_param "2,0,2" "," (-1)) param_2_0 [IgnoringDuplicate 2]
           block_1_3 5%nat eq_refl eq_refl).
Defined.

Lemma ParseBlock_loops_terminate_witness :
  parse_field (ops := real_t_ops) uint32_t (constructed "1" "," (-1))
    (text "7,2" ++ [LF; NUL]) 3
    (row_start (constructed "1" "," (-1)) (Clear 1) 0) = Ok row_7_2_field1 /\
  (0 <= 3)%nat /\
  (p row_7_2_field1 = 3%nat \/ (0 < p row_7_2_field1 <= 3)%nat).
Proof.
  refine (conj eq_refl (conj (Nat.le_0_l 3) _)).
  exact (proj1 (ParseBlock_loops_terminate (ops := real_t_ops) uint32_t
                  (constructed "1" "," (-1)) (text "7,2" ++ [LF; NUL]) 4%nat)
           3%nat (row_start (constructed "1" "," (-1)) (Clear 1) 0)
           row_7_2_field1 eq_refl (Nat.le_0_l 3)).
Defined.

Lemma ParseBlock_only_newlines_witness :
  (3 <=? length [LF; CR; LF])%nat = true /\
  forallb is_newline (take 3 [LF; CR; LF]) = true /\
  (0 <? label_count (constructed "" "," (-1)))%nat = true /\
  ParseBlock (ops := real_t_ops) uint32_t (constructed "" "," (-1))
    [LF; CR; LF] 3 = Ok (Clear (label_count (constructed "" "," (-1)))).
Proof.
  refine (conj eq_refl (conj eq_refl (conj eq_refl _))).
  exact (ParseBlock_only_newlines (ops := real_t_ops) uint32_t
           (constructed "" "," (-1)) [LF; CR; LF] 3%nat eq_refl eq_refl eq_refl).
Defined.

Lemma ParseBlock_offsets_witness :
  ParseBlock (ops := real_t_ops) uint32_t (constructed "" "," (-1))
    block_1_3 5 = Ok out_1_3 /\
  offset out_1_3 !! 0%nat = Some 0%nat /\ offsets_wf out_1_3.
Proof.
  refine (conj eq_refl _).
  exact (ParseBlock_offsets (ops := real_t_ops) uint32_t
           (constructed "" "," (-1)) block_1_3 5%nat out_1_3 eq_refl).
Defined.

Lemma ParseBlock_row_indices_increase_witness :
  (Z.of_nat (length block_1_3) <? index_modulus uint32_t) = true /\
  ParseBlock (ops := real_t_ops) uint32_t (constructed "" "," (-1))
    block_1_3 5 = Ok out_1_3 /\
  StronglySorted Z.lt (row_indices out_1_3 0) /\
  Forall (fun x => 0 <= x) (row_indices out_1_3 0).
Proof.
  refine (conj eq_refl (conj eq_refl _)).
  exact (ParseBlock_row_indices_increase (ops := real_t_ops) uint32_t
           (constructed "" "," (-1)) block_1_3 5%nat out_1_3 0%nat
           eq_refl eq_refl).
Defined.

Lemma ParseBlock_labels_zero_witness :
  label_column_indices (constructed "" "," (-1)) = ∅ /\
  ParseBlock (ops := real_t_ops) uint32_t (constructed "" "," (-1))
    block_1_3 5 = Ok out_1_3 /\
  label out_1_3 =
    replicate (label_count (constructed "" "," (-1))
               * (length (offset out_1_3) - 1)) DType_zero.
Proof.
  refine (conj eq_refl (conj eq_refl _)).
  exact (ParseBlock_labels_zero (ops := real_t_ops) uint32_t
           (constructed "" "," (-1)) block_1_3 5%nat out_1_3 eq_refl eq_refl).
Defined.

Lemma ParseBlock_unsupported_DType_witness :
  strtonum (DType := bool) (DTypeOps := other_ops) = None /\
  parse_lines (ops := other_ops) uint32_t (constructed "" "," (-1))
    block_1_3 5 1 (Clear 1) 0 = Fatal UnsupportedDType.
Proof.
  refine (conj eq_refl _).
  exact (proj1 (ParseBlock_unsupported_DType (ops := other_ops) uint32_t
                  (constructed "" "," (-1)) block_1_3 5%nat eq_refl)
           0%nat (Clear 1) 0%nat 4%nat eq_refl eq_refl).
Defined.

Lemma label_field_decides_witness :
  row_label row_7_2_end !! 0%nat =
  Some (strtof (drop (p row_7_2_field1) (text "7,2" ++ [LF; NUL]))).1.
Proof.
  refine (label_field_decides (ops := real_t_ops) uint32_t
            (init_param "1" "," (-1)) (constructed "1" "," (-1)) []
            (text "7,2" ++ [LF; NUL]) strtof 3%nat 3%nat
            (row_start (constructed "1" "," (-1)) (Clear 1) 0)
            row_7_2_end row_7_2_field1 0%nat
            eq_refl eq_refl eq_refl eq_refl eq_refl _ eq_refl eq_refl).
  apply field_steps_next with (st1 := row_7_2_field1).
  - simpl. discriminate.
  - reflexivity.
  - apply field_steps_refl.
Defined.

Lemma int32_values_in_range_witness :
  ParseBlock (ops := int32_t_ops) uint32_t (constructed "0" "," (-1))
    (text "1,2,3" ++ [LF; NUL]) 6 =
  Ok {| offset := [0; 2]%nat; label := [1]; weight := []; index := [0; 1];
        value := [2; 3]; out_label_count := 1 |} /\
  Forall (fun z => - 2 ^ 31 <= z < 2 ^ 31) [2; 3] /\
  Forall (fun z => - 2 ^ 31 <= z < 2 ^ 31) [1].
Proof.
  refine (conj eq_refl _).
  exact (int32_values_in_range uint32_t (constructed "0" "," (-1))
           (text "1,2,3" ++ [LF; NUL]) 6%nat
           {| offset := [0; 2]%nat; label := [1]; weight := [];
              index := [0; 1]; value := [2; 3]; out_label_count := 1 |}
           eq_refl).
Defined.

Lemma ParseBlock_no_delimiter_error_witness :
  column_role (ops := real_t_ops) (constructed "" "," (-1)) 0 = FeatureColumn /\
  (5 <=? length block_1_3)%nat = true /\
  (Z.of_nat (length block_1_3) <? index_modulus uint32_t) = true /\
  ParseBlock (ops := real_t_ops) uint32_t (constructed "" "," (-1))
    block_1_3 5 ≠ Fatal DelimiterNotFound.
Proof.
  refine (conj eq_refl (conj eq_refl (conj eq_refl _))).
  exact (ParseBlock_no_delimiter_error (ops := real_t_ops) uint32_t
           (constructed "" "," (-1)) block_1_3 5%nat eq_refl eq_refl eq_refl).
Defined.

Lemma ParseBlock_no_column_overflow_witness :
  (5 <=? length block_1_3)%nat = true /\
  (Z.of_nat (length block_1_3) <=? INT_MAX) = true /\
  ParseBlock (ops := real_t_ops) uint32_t (constructed "" "," (-1))
    block_1_3 5 ≠ Undefined ColumnIndexOverflow.
Proof.
  refine (conj eq_refl (conj eq_refl _)).
  exact (ParseBlock_no_column_overflow (ops := real_t_ops) uint32_t
           (constructed "" "," (-1)) block_1_3 5%nat eq_refl eq_refl).
Defined.


Lemma ParseBlock_leading_newlines_witness :
  forallb is_newline [LF; CR] = true /\
  ParseBlock (ops := real_t_ops) uint32_t (constructed "" "," (-1))
    ([LF; CR] ++ block_1_3) (length [LF; CR] + 5) =
  shift_result (length [LF; CR]) id
    (ParseBlock (ops := real_t_ops) uint32_t (constructed "" "," (-1))
       block_1_3 5).
Proof.
  refine (conj eq_refl _).
  exact (ParseBlock_leading_newlines (ops := real_t_ops) uint32_t
           (constructed "" "," (-1)) [LF; CR] block_1_3 5%nat eq_refl).
Defined.

Lemma ParseBlock_one_row_per_line_witness :
  forallb is_newline [LF] = true /\
  lines_wf [(text "1,2", [CR; LF]); (text "3,4", [])] = true /\
  ParseBlock (ops := int64_t_ops) uint32_t (constructed "" "," (-1))
    ([LF] ++ join_lines [(text "1,2", [CR; LF]); (text "3,4", [])] ++ [NUL])
    (length [LF]
     + length (join_lines [(text "1,2", [CR; LF]); (text "3,4", [])])) =
  Ok {| offset := [0; 2; 4]%nat; label := [0; 0]; weight := [];
        index := [0; 1; 0; 1]; value := [1; 2; 3; 4]; out_label_count := 1 |} /\
  length [0; 2; 4]%nat = S (length [(text "1,2", [CR; LF]); (text "3,4", [])]).
Proof.
  refine (conj eq_refl (conj eq_refl (conj eq_refl _))).
  exact (ParseBlock_one_row_per_line (ops := int64_t_ops) uint32_t
           (constructed "" "," (-1)) [LF]
           [(text "1,2", [CR; LF]); (text "3,4", [])] [NUL]
           {| offset := [0; 2; 4]%nat; label := [0; 0]; weight := [];
              index := [0; 1; 0; 1]; value := [1; 2; 3; 4];
              out_label_count := 1 |}
           eq_refl eq_refl eq_refl).
Defined.
